(** * Quaternion calculator: the algebra engine, the value holder and the
      memory reducer

    A shallow embedding of

    - [src/app/libs/Quaternion.ts]   (class [TSMT$Quaternion]),
    - [src/app/state/definitions/Q.ts] (class [Q]),
    - [src/app/state/reducers/quaternion.reducers.ts] ([memoryReducer]).

    A JavaScript [number] is an IEEE 754 binary64 datum, which is what
    Rocq's primitive [float] is, so the engine is run on [float].  The
    methods themselves are written once, over the operations they use
    ([Arith]), which [float] provides; where a statement measures a length,
    a finite double is read as the real number it stands for and the
    rounding of each operation is accounted for.

    Instances of [TSMT$Quaternion] are mutable objects that are passed around
    by reference, so they live in an explicit heap and methods are programs
    of a state-and-exception monad over that heap. *)

From Stdlib Require Import ZArith Floats Reals Lia Lra Psatz String.
From stdpp Require Import base option list gmap strings.

Set Default Proof Using "Type".

(* ================================================================== *)
(** * The JavaScript side: completion records, arrays, arithmetic      *)
(* ================================================================== *)

(** A call either completes normally or throws.  The only exception the
    modelled code can raise is the [TypeError] of a property access on
    [undefined]. *)
Inductive result (A : Type) : Type :=
  | Ok (a : A)
  | TypeError.
Arguments Ok {A} a.
Arguments TypeError {A}.

(** Programs over a state [S]: state in, completion and state out. *)
Definition St (S A : Type) : Type := S -> result (A * S).

Definition ret {S A} (a : A) : St S A := fun s => Ok (a, s).

Definition bind {S A B} (c : St S A) (k : A -> St S B) : St S B :=
  fun s => match c s with
           | Ok (a, s') => k a s'
           | TypeError => TypeError
           end.

(** The arithmetic the engine uses, with the numeric literals that occur in
    [Quaternion.ts].  [num_ltb], [num_gtb] and [num_geb] are JavaScript's [<], [>] and
    [>=]; [NaN] is what arithmetic makes of [undefined]. *)
Class Arith (num : Type) : Type := {
  c0      : num;                       (* 0, 0.0 *)
  c1      : num;                       (* 1, 1.0 *)
  c0_5    : num;                       (* 0.5 *)
  c1em10  : num;                       (* 0.0000000001 *)
  c0_001  : num;                       (* 0.001 *)
  NaN     : num;
  num_add : num -> num -> num;
  num_sub : num -> num -> num;
  num_mul : num -> num -> num;
  num_div : num -> num -> num;
  num_neg : num -> num;
  num_ltb : num -> num -> bool;
  num_gtb : num -> num -> bool;
  num_geb : num -> num -> bool;
  Math_abs  : num -> num;
  Math_sqrt : num -> num;
  Math_max  : num -> num -> num;
  Math_min  : num -> num -> num
}.

(** [Math.acos] and [Math.sin] are implementation-approximated in
    ECMAScript; [slerp] takes them as they come. *)
Class Trig (num : Type) : Type := {
  Math_acos : num -> num;
  Math_sin  : num -> num
}.

Declare Scope js_scope.
Delimit Scope js_scope with js.
Notation "x + y" := (num_add x y) : js_scope.
Notation "x - y" := (num_sub x y) : js_scope.
Notation "x * y" := (num_mul x y) : js_scope.
Notation "x / y" := (num_div x y) : js_scope.
Notation "- x" := (num_neg x) : js_scope.
Notation "x <? y" := (num_ltb x y) : js_scope.
Notation "x >? y" := (num_gtb x y) (at level 70, no associativity) : js_scope.
Notation "x >=? y" := (num_geb x y) (at level 70, no associativity) : js_scope.
Notation "x <- c1 ;; c2" := (bind c1 (fun x => c2))
  (at level 100, c1 at next level, right associativity) : js_scope.
Notation "c1 ;; c2" := (bind c1 (fun _ => c2))
  (at level 100, right associativity) : js_scope.

(** An instance of [TSMT$Quaternion]: its array [_q].  The constructor also
    sets the field [PI_2], which no method reads; it is left out. *)
Record TSMT_Quaternion (num : Type) : Type := mkQuaternion { _q : list num }.
Arguments mkQuaternion {num} _q.
Arguments _q {num} t.

(** References to instances, and the heap they point into. *)
Definition ref : Type := nat.
Abbreviation heap num := (list (TSMT_Quaternion num)).

(* ================================================================== *)
(** * [Quaternion.ts]: class [TSMT$Quaternion]                         *)
(* ================================================================== *)

Module Quaternion.
Section Engine.
Context {num : Type} `{Arith num} `{Trig num}.
Local Open Scope js_scope.

Local Abbreviation M := (St (heap num)).

(** ** Arrays of numbers *)

(** [a[i]] in an arithmetic position: a missing element is [undefined],
    which every operator below turns into [NaN]. *)
Definition arr_get (a : list num) (i : nat) : num := default NaN (a !! i).

(** [a[i] = v]: inside the array an update in place; past its end the array
    grows and the hole in between is left [undefined]. *)
Definition arr_set (a : list num) (i : nat) (v : num) : list num :=
  if (i <? length a)%nat then <[i:=v]> a
  else a ++ replicate (i - length a) NaN ++ [v].

(** [m[i][j]] for an array of arrays. *)
Definition mat_get (m : list (list num)) (i j : nat) : num :=
  arr_get (default [] (m !! i)) j.

(** ** Field access through a reference *)

(** [this._q[i]] *)
Definition get_q (this : ref) (i : nat) : M num :=
  fun h => match h !! this with
           | Some o => Ok (arr_get (_q o) i, h)
           | None => TypeError
           end.

(** [this._q[i] = v] *)
Definition set_q (this : ref) (i : nat) (v : num) : M unit :=
  fun h => match h !! this with
           | Some o => Ok (tt, <[this := mkQuaternion (arr_set (_q o) i v)]> h)
           | None => TypeError
           end.

(** [new TSMT$Quaternion()]: a fresh object holding [[1, 0, 0, 0]]. *)
Definition new_TSMT_Quaternion : M ref :=
  fun h => Ok (length h, h ++ [mkQuaternion [c1; c0; c0; c0]]).

(** [get values()]: [this._q.slice()], a copy of the array. *)
Definition values (this : ref) : M (list num) :=
  fun h => match h !! this with
           | Some o => Ok (_q o, h)
           | None => TypeError
           end.

(** [toArray()] *)
Definition toArray (this : ref) : M (list num) := values this.

(** [fromArray(... values)]; a rest parameter is always an array, so
    [!values] is false. *)
Definition fromArray (this : ref) (values : list num) : M unit :=
  if (length values <? 3)%nat then ret tt
  else if (length values =? 3)%nat then
    set_q this 1 (arr_get values 0) ;;
    set_q this 2 (arr_get values 1) ;;
    set_q this 3 (arr_get values 2) ;;
    set_q this 0 c1
  else
    set_q this 0 (arr_get values 0) ;;
    set_q this 1 (arr_get values 1) ;;
    set_q this 2 (arr_get values 2) ;;
    set_q this 3 (arr_get values 3).

(** [clone()] *)
Definition clone (this : ref) : M ref :=
  q <- new_TSMT_Quaternion ;;
  a0 <- get_q this 0 ;;
  a1 <- get_q this 1 ;;
  a2 <- get_q this 2 ;;
  a3 <- get_q this 3 ;;
  fromArray q [a0; a1; a2; a3] ;;
  ret q.

(** [fromRotationMatrix(m)] *)
Definition fromRotationMatrix (this : ref) (m : list (list num)) : M unit :=
  if negb (length m =? 3)%nat then ret tt
  else
    let '(u, v, w) :=
      if (mat_get m 0 0 >? mat_get m 1 1) && (mat_get m 0 0 >? mat_get m 2 2)
      then (0, 1, 2)%nat
      else if (mat_get m 1 1 >? mat_get m 0 0) && (mat_get m 1 1 >? mat_get m 2 2)
      then (1, 2, 0)%nat
      else (2, 0, 1)%nat in
    let r := Math_sqrt (c1 + mat_get m u u - mat_get m v v - mat_get m w w) in
    set_q this u (c0_5 * r) ;;
    let r := c0_5 / r in
    set_q this v (r * (mat_get m v u + mat_get m u v)) ;;
    set_q this w (r * (mat_get m u w + mat_get m w u)) ;;
    set_q this 3 (r * (mat_get m v w - mat_get m w v)).

(** [toRotationMatrix()] *)
Definition toRotationMatrix (this : ref) : M (list (list num)) :=
  qW <- get_q this 0 ;;
  qX <- get_q this 1 ;;
  qY <- get_q this 2 ;;
  qZ <- get_q this 3 ;;
  let qWqW := qW * qW in
  let qWqX := qW * qX in
  let qWqY := qW * qY in
  let qWqZ := qW * qZ in
  (* qXqW, qYqW, qYqX, qZqW, qZqX and qZqY are computed and never used *)
  let qXqX := qX * qX in
  let qXqY := qX * qY in
  let qXqZ := qX * qZ in
  let qYqY := qY * qY in
  let qYqZ := qY * qZ in
  let qZqZ := qZ * qZ in
  let d := qWqW + qXqX + qYqY + qZqZ in
  if Math_abs d >? c1em10 then
    let d := c1 / d in
    let d2 := d + d in
    ret [ [ d * (qWqW + qXqX - qYqY - qZqZ); d2 * (qWqZ + qXqY); d2 * (qXqZ - qWqY) ];
          [ d2 * (qXqY - qWqZ); d * (qWqW - qXqX + qYqY - qZqZ); d2 * (qWqX + qYqZ) ];
          [ d2 * (qWqY + qXqZ); d2 * (qYqZ - qWqX); d * (qWqW - qXqX - qYqY + qZqZ) ] ]
  else ret [].

(** [length()] *)
Definition length (this : ref) : M num :=
  a0 <- get_q this 0 ;;
  a1 <- get_q this 1 ;;
  a2 <- get_q this 2 ;;
  a3 <- get_q this 3 ;;
  ret (Math_sqrt (a0 * a0 + a1 * a1 + a2 * a2 + a3 * a3)).

(** [normalize()] *)
Definition normalize (this : ref) : M unit :=
  l <- length this ;;
  let d := if Math_abs l <? c1em10 then c1 else c1 / l in
  a0 <- get_q this 0 ;; set_q this 0 (a0 * d) ;;
  a1 <- get_q this 1 ;; set_q this 1 (a1 * d) ;;
  a2 <- get_q this 2 ;; set_q this 2 (a2 * d) ;;
  a3 <- get_q this 3 ;; set_q this 3 (a3 * d).

(** [add(q)] *)
Definition add (this q : ref) : M unit :=
  t <- values q ;;
  a0 <- get_q this 0 ;; set_q this 0 (a0 + arr_get t 0) ;;
  a1 <- get_q this 1 ;; set_q this 1 (a1 + arr_get t 1) ;;
  a2 <- get_q this 2 ;; set_q this 2 (a2 + arr_get t 2) ;;
  a3 <- get_q this 3 ;; set_q this 3 (a3 + arr_get t 3).

(** [multiply(q)] *)
Definition multiply (this q : ref) : M unit :=
  b <- values q ;;
  aW <- get_q this 0 ;;
  aX <- get_q this 1 ;;
  aY <- get_q this 2 ;;
  aZ <- get_q this 3 ;;
  let bW := arr_get b 0 in
  let bX := arr_get b 1 in
  let bY := arr_get b 2 in
  let bZ := arr_get b 3 in
  set_q this 0 (aW * bW - aX * bX - aY * bY - aZ * bZ) ;;
  set_q this 1 (aW * bX + aX * bW + aY * bZ - aZ * bY) ;;
  set_q this 2 (aW * bY - aX * bZ + aY * bW + aZ * bX) ;;
  set_q this 3 (aW * bZ + aX * bY - aY * bX + aZ * bW).

(** [multiplyByScalar(a)] *)
Definition multiplyByScalar (this : ref) (a : num) : M unit :=
  a0 <- get_q this 0 ;; set_q this 0 (a0 * a) ;;
  a1 <- get_q this 1 ;; set_q this 1 (a1 * a) ;;
  a2 <- get_q this 2 ;; set_q this 2 (a2 * a) ;;
  a3 <- get_q this 3 ;; set_q this 3 (a3 * a).

(** [invert()] *)
Definition invert (this : ref) : M unit :=
  q0 <- get_q this 0 ;;
  q1 <- get_q this 1 ;;
  q2 <- get_q this 2 ;;
  q3 <- get_q this 3 ;;
  let l := q0 * q0 + q1 * q1 + q2 * q2 + q3 * q3 in
  let d := if Math_abs l <? c1em10 then c1 else c1 / l in
  set_q this 0 (- q0 * d) ;;
  set_q this 1 (- q1 * d) ;;
  set_q this 2 (- q2 * d) ;;
  set_q this 3 (q3 * d).

(** [divide(q)] *)
Definition divide (this q : ref) : M unit :=
  q1 <- clone q ;;
  invert q1 ;;
  multiply this q1.

(** [dot(q)] *)
Definition dot (this q : ref) : M num :=
  a <- values q ;;
  t0 <- get_q this 0 ;;
  t1 <- get_q this 1 ;;
  t2 <- get_q this 2 ;;
  t3 <- get_q this 3 ;;
  ret (arr_get a 0 * t0 + arr_get a 1 * t1 + arr_get a 2 * t2 + arr_get a 3 * t3).

(** [slerp(q, _t)] *)
Definition slerp (this q : ref) (_t : num) : M ref :=
  let t := Math_max c0 _t in
  let t := Math_min t c1 in
  qt <- clone this ;;
  qaw <- get_q this 0 ;;
  qax <- get_q this 2 ;;
  qay <- get_q this 2 ;;
  qaz <- get_q this 3 ;;
  b <- values q ;;
  let qbw := arr_get b 0 in
  let qbx := arr_get b 1 in
  let qby := arr_get b 2 in
  let qbz := arr_get b 3 in
  let ctheta := qax * qbx + qay * qby + qaz * qbz + qaw * qaw in
  if Math_abs ctheta >=? c1 then
    fromArray qt [qax; qay; qaz; qaw] ;;
    ret qt
  else
    let '(qbx, qby, qbz, qbw, ctheta) :=
      if ctheta <? c0 then (- qbx, - qby, - qbz, - qbw, - ctheta)
      else (qbx, qby, qbz, qbw, ctheta) in
    let halfTheta := Math_acos ctheta in
    let sinHalfTheta := Math_sqrt (c1 - ctheta * ctheta) in
    (if Math_abs sinHalfTheta <? c0_001 then
       fromArray qt [qax * c0_5 + qbx * c0_5; qay * c0_5 + qby * c0_5;
                     qaz * c0_5 + qbz * c0_5; qaw * c0_5 + qbw * c0_5]
     else
       let rA := Math_sin ((c1 - t) * halfTheta) / sinHalfTheta in
       let rB := Math_sin (t * halfTheta) / sinHalfTheta in
       fromArray qt [qax * rA + qbx * rB; qay * rA + qby * rB;
                     qaz * rA + qbz * rB; qaw * rA + qbw * rB]) ;;
    ret qt.

(** [nlerp(q, _t)] *)
Definition nlerp (this q : ref) (_t : num) : M ref :=
  let t := Math_max c0 _t in
  let t := Math_min t c1 in
  qt <- clone this ;;
  let t1 := c1 - t in
  d <- dot this q ;;
  let t := if d <? c0 then - t else t in
  multiplyByScalar qt t1 ;;
  multiplyByScalar q t ;;
  add qt q ;;
  normalize qt ;;
  ret qt.

End Engine.
End Quaternion.

(* ================================================================== *)
(** * The arithmetic of the program                                   *)
(* ================================================================== *)

(** ** IEEE 754 binary64: the program as it runs *)

Module Float64.

(** [Math.max]: [NaN] if either argument is, and [+0] above [-0]. *)
Definition max (x y : float) : float :=
  if is_nan x || is_nan y then nan
  else if PrimFloat.ltb x y then y
  else if PrimFloat.ltb y x then x
  else if is_zero x && get_sign x then y else x.

(** [Math.min]: [NaN] if either argument is, and [-0] below [+0]. *)
Definition min (x y : float) : float :=
  if is_nan x || is_nan y then nan
  else if PrimFloat.ltb x y then x
  else if PrimFloat.ltb y x then y
  else if is_zero x && negb (get_sign x) then y else x.

(** [|x - y| <= tol]; false when either side is [NaN]. *)
Definition within (tol x y : float) : bool :=
  PrimFloat.leb (PrimFloat.abs (PrimFloat.sub x y)) tol.

#[global] Instance arith : Arith float := {|
  c0 := 0%float;
  c1 := 1%float;
  c0_5 := 0.5%float;
  c1em10 := 0x1.b7cdfd9d7bdbbp-34%float;   (* the double nearest 0.0000000001 *)
  c0_001 := 0x1.0624dd2f1a9fcp-10%float;   (* the double nearest 0.001 *)
  NaN := nan;
  num_add := PrimFloat.add;
  num_sub := PrimFloat.sub;
  num_mul := PrimFloat.mul;
  num_div := PrimFloat.div;
  num_neg := PrimFloat.opp;
  num_ltb := PrimFloat.ltb;
  num_gtb := fun x y => PrimFloat.ltb y x;
  num_geb := fun x y => PrimFloat.leb y x;
  Math_abs := PrimFloat.abs;
  Math_sqrt := PrimFloat.sqrt;
  Math_max := max;
  Math_min := min
|}.

End Float64.

(* ================================================================== *)
(** * The real number a double stands for                             *)
(* ================================================================== *)

(** [normalize] is specified by lengths.  To state them of the program as
    it runs, a finite double is read as the real number it stands for, and
    each operation of binary64 is given the error its rounding can make. *)

Module Double.

(** 2^e *)
Definition bpow (e : Z) : R := powerRZ 2 e.

(** The absolute value m * 2^e of a finite datum; 0 for the others. *)
Definition magnitude (x : spec_float) : R :=
  match x with
  | S754_finite _ m e => (IZR (Z.pos m) * bpow e)%R
  | _ => 0%R
  end.

(** Neither a NaN nor an infinity. *)
Definition SFfinite (x : spec_float) : Prop :=
  match x with
  | S754_zero _ | S754_finite _ _ _ => True
  | S754_infinity _ | S754_nan => False
  end.

Definition SF2R (x : spec_float) : R :=
  match x with
  | S754_finite true _ _ => (- magnitude x)%R
  | _ => magnitude x
  end.

(** The real number of a finite double. *)
Definition value (x : float) : R := SF2R (Prim2SF x).

Definition finite (x : float) : Prop := SFfinite (Prim2SF x).

(** The relative and the absolute error allowed to one operation. *)
Definition rel_err : R := bpow (-51).
Definition abs_err : R := bpow (-1073).

(** [z] is what an operation returns where the exact result is [V]: never
    a NaN, an infinity only where [V] is beyond the finite range, and
    otherwise a number of the sign of [V], close to [V]. *)
Definition approximates (z : spec_float) (V : R) : Prop :=
  match z with
  | S754_nan => False
  | S754_infinity _ => (bpow 1023 <= Rabs V)%R
  | S754_zero _ => (Rabs V <= rel_err * Rabs V + abs_err)%R
  | S754_finite s _ _ =>
      (if s then V < 0 else 0 < V)%R
      /\ (Rabs (SF2R z - V) <= rel_err * Rabs V + abs_err)%R
  end.

(** The squared norm as [length] computes it, and in the reals. *)
Definition squared_norm (w i j k : float) : float :=
  (w * w + i * i + j * j + k * k)%float.

Definition norm2 (w i j k : float) : R :=
  (value w * value w + value i * value i + value j * value j
   + value k * value k)%R.

End Double.

(** Running a program for its value only. *)
Definition eval {S A} (p : St S A) (s : S) : result A :=
  match p s with
  | Ok (a, _) => Ok a
  | TypeError => TypeError
  end.

(* ================================================================== *)
(** * [Q.ts]: the value holder                                        *)
(* ================================================================== *)

Module Holder.

(** The global functions [isNaN] and [isFinite] on a [number]. *)
Definition isNaN (v : float) : bool := is_nan v.
Definition isFinite (v : float) : bool := negb (is_nan v) && negb (is_infinity v).

(** The guard of the four setters, [!isNaN(value) && isFinite(value)]. *)
Definition accepts (value : float) : bool := negb (isNaN value) && isFinite value.

(** The fields of a [Q]. *)
Record Q : Type := mkQ {
  id : string;
  _w : float;
  _i : float;
  _j : float;
  _k : float
}.

(** The getters. *)
Definition w (this : Q) : float := _w this.
Definition i (this : Q) : float := _i this.
Definition j (this : Q) : float := _j this.
Definition k (this : Q) : float := _k this.

(** The setters, as programs over the fields of [this]. *)
Definition set_w (value : float) : St Q unit :=
  fun this =>
    if negb (isNaN value) && isFinite value
    then Ok (tt, mkQ (id this) value (_i this) (_j this) (_k this))
    else Ok (tt, this).

Definition set_i (value : float) : St Q unit :=
  fun this =>
    if negb (isNaN value) && isFinite value
    then Ok (tt, mkQ (id this) (_w this) value (_j this) (_k this))
    else Ok (tt, this).

Definition set_j (value : float) : St Q unit :=
  fun this =>
    if negb (isNaN value) && isFinite value
    then Ok (tt, mkQ (id this) (_w this) (_i this) value (_k this))
    else Ok (tt, this).

Definition set_k (value : float) : St Q unit :=
  fun this =>
    if negb (isNaN value) && isFinite value
    then Ok (tt, mkQ (id this) (_w this) (_i this) (_j this) value)
    else Ok (tt, this).

Definition set_id (value : string) : St Q unit :=
  fun this => Ok (tt, mkQ value (_w this) (_i this) (_j this) (_k this)).

(** The field initialisers, which run before the constructor body. *)
Definition initial : Q := mkQ EmptyString 0 0 0 0.

(** [constructor(wValue, iValue, jValue, kValue, _id?)] *)
Definition constructor (wValue iValue jValue kValue : float) (_id : option string)
  : St Q unit :=
  (set_w wValue ;;
   set_i iValue ;;
   set_j jValue ;;
   set_k kValue ;;
   match _id with
   | Some s => set_id s
   | None => ret tt
   end)%js.

(** [new Q(...)] *)
Definition new_Q (wValue iValue jValue kValue : float) (_id : option string)
  : result Q :=
  match constructor wValue iValue jValue kValue _id initial with
  | Ok (_, this) => Ok this
  | TypeError => TypeError
  end.

(** [clone()] *)
Definition clone (this : Q) : result Q :=
  new_Q (_w this) (_i this) (_j this) (_k this) (Some (id this)).

(** The component denotes a real number: its IEEE datum is a zero or a
    finite non-zero number, not a NaN and not an infinity. *)
Definition finite (x : float) : Prop :=
  match Prim2SF x with
  | S754_zero _ | S754_finite _ _ _ => True
  | S754_infinity _ | S754_nan => False
  end.

Definition all_finite (q : Q) : Prop :=
  finite (_w q) /\ finite (_i q) /\ finite (_j q) /\ finite (_k q).

(** The instances a caller can hold: built by [new Q], then changed by
    the setters only (the fields are private). *)
Inductive reachable : Q -> Prop :=
  | reach_new wValue iValue jValue kValue _id q :
      new_Q wValue iValue jValue kValue _id = Ok q -> reachable q
  | reach_set_w q value q' :
      reachable q -> set_w value q = Ok (tt, q') -> reachable q'
  | reach_set_i q value q' :
      reachable q -> set_i value q = Ok (tt, q') -> reachable q'
  | reach_set_j q value q' :
      reachable q -> set_j value q = Ok (tt, q') -> reachable q'
  | reach_set_k q value q' :
      reachable q -> set_k value q = Ok (tt, q') -> reachable q'
  | reach_set_id q value q' :
      reachable q -> set_id value q = Ok (tt, q') -> reachable q'.

End Holder.

(* ================================================================== *)
(** * [quaternion.reducers.ts]: the memory slice                      *)
(* ================================================================== *)

Module Reducers.

(** [CalcActions.ts] *)
Definition TO_MEMORY : string := "[Calc] To_Memory".
Definition FROM_MEMORY : string := "[Calc] From_Memory".

(** Modelled from the spec: [state/definitions/QMemory.ts] is missing.  The
    reducer builds a [QMemory] from the three properties [action], [id] and
    [memory], and the spec describes the slot as an optional quaternion
    value with an identity tag and a provenance action tag.  [memory] is
    [None] when the property is [undefined]. *)
Record QMemory : Type := mkQMemory {
  action : string;
  id : string;
  memory : option Holder.Q
}.

(** [QMemoryAction]; [payload] is [None] for an action dispatched without
    one, as [{type: CalcActions.FROM_MEMORY}] is. *)
Record QMemoryAction : Type := mkQMemoryAction {
  type : string;
  payload : option QMemory
}.

(** [memoryReducer(state, action)].  The slice is [undefined] ([None]) until
    the first [TO_MEMORY]: the store is created without an initial state and
    every other action returns [state] as it is. *)
Definition memoryReducer (state : option QMemory) (action : QMemoryAction)
  : result (option QMemory) :=
  if String.eqb (type action) TO_MEMORY then
    match payload action with
    | Some p => Ok (Some (mkQMemory (type action) (id p) (memory p)))
    | None => TypeError
    end
  else if String.eqb (type action) FROM_MEMORY then
    match state with
    | Some s => Ok (Some (mkQMemory FROM_MEMORY (id s) (memory s)))
    | None => TypeError
    end
  else Ok state.

End Reducers.

(* ================================================================== *)
(** * Calls made on the engine                                        *)
(* ================================================================== *)

Module Scenario.
Import Quaternion.
Section Calls.
Context {num : Type} `{Arith num} `{Trig num}.
Local Open Scope js_scope.

Local Abbreviation M := (St (heap num)).

(** A fresh engine loaded with four components. *)
Definition load (a : list num) : M ref :=
  q <- new_TSMT_Quaternion ;;
  fromArray q a ;;
  ret q.

(** [q1 = q.clone(); q1.invert(); q.multiply(q1)], then the components of
    [q]: the quaternion times its own inverse. *)
Definition times_inverse (a : list num) : M (list num) :=
  q <- load a ;;
  q1 <- clone q ;;
  invert q1 ;;
  multiply q q1 ;;
  values q.

(** [q.invert()], then the components of [q]. *)
Definition inverted (a : list num) : M (list num) :=
  q <- load a ;;
  invert q ;;
  values q.

(** [qa.slerp(qb, t)], then the components of the quaternion returned. *)
Definition slerped (a b : list num) (t : num) : M (list num) :=
  qa <- load a ;;
  qb <- load b ;;
  qt <- slerp qa qb t ;;
  values qt.

(** The components of the two operands before and after [q1.nlerp(q2, t)]. *)
Definition nlerp_operands (a b : list num) (t : num)
  : M (list num * list num * (list num * list num)) :=
  q1 <- load a ;;
  q2 <- load b ;;
  a1 <- values q1 ;;
  a2 <- values q2 ;;
  nlerp q1 q2 t ;;
  v1 <- values q1 ;;
  v2 <- values q2 ;;
  ret (a1, a2, (v1, v2)).

(** [q.length()], [q.normalize()], then the components and the length. *)
Definition normalized (a : list num) : M (num * list num * num) :=
  q <- load a ;;
  l0 <- length q ;;
  normalize q ;;
  v <- values q ;;
  l <- length q ;;
  ret (l0, v, l).

(** [q.fromRotationMatrix(m)], then the components and
    [q.toRotationMatrix()]. *)
Definition round_trip (m : list (list num)) : M (list num * list (list num)) :=
  q <- new_TSMT_Quaternion ;;
  fromRotationMatrix q m ;;
  v <- values q ;;
  r <- toRotationMatrix q ;;
  ret (v, r).

End Calls.
End Scenario.

(* ================================================================== *)
(** * [Quaternion.ts]: the remaining methods                          *)
(* ================================================================== *)

(** The global functions [isNaN] and [isFinite], next to [Arith]. *)
Class Guards (num : Type) : Type := {
  js_isNaN    : num -> bool;
  js_isFinite : num -> bool
}.

#[global] Instance float_guards : Guards float := {|
  js_isNaN := Holder.isNaN;
  js_isFinite := Holder.isFinite
|}.

(** Completions of calls that do not touch the heap. *)
Definition lift {S A} (r : result A) : St S A :=
  fun s => match r with
           | Ok a => Ok (a, s)
           | TypeError => TypeError
           end.

Module QuaternionOps.
Import Quaternion.
Section Engine.
Context {num : Type} `{Arith num} `{Guards num}.
Local Open Scope js_scope.

Local Abbreviation M := (St (heap num)).

(** What [isNaN(q[p]) ? old : +q[p]] leaves in a component, for a property
    that may be missing. *)
Definition chosen (p : option num) (old : num) : num :=
  match p with
  | Some v => if js_isNaN v then old else v
  | None => old
  end.

(** [fromObject(q)], for an object whose own properties hold numbers;
    [+v] is [v] on a number. *)
Definition fromObject (this : ref) (q : gmap string num) : M unit :=
  match q !! "w"%string with
  | Some v =>
      if js_isNaN v then old <- get_q this 0 ;; set_q this 0 old
      else set_q this 0 v
  | None => ret tt
  end ;;
  match q !! "i"%string with
  | Some v =>
      if js_isNaN v then old <- get_q this 1 ;; set_q this 1 old
      else set_q this 1 v
  | None => ret tt
  end ;;
  match q !! "j"%string with
  | Some v =>
      if js_isNaN v then old <- get_q this 2 ;; set_q this 2 old
      else set_q this 2 v
  | None => ret tt
  end ;;
  match q !! "k"%string with
  | Some v =>
      if js_isNaN v then old <- get_q this 3 ;; set_q this 3 old
      else set_q this 3 v
  | None => ret tt
  end.

(** [toObject()] *)
Definition toObject (this : ref) : M (gmap string num) :=
  q0 <- get_q this 0 ;;
  q1 <- get_q this 1 ;;
  q2 <- get_q this 2 ;;
  q3 <- get_q this 3 ;;
  ret (<["w"%string := q0]> (<["i"%string := q1]>
        (<["j"%string := q2]> (<["k"%string := q3]> ∅)))).

(** [addTo(q)] *)
Definition addTo (this q : ref) : M ref :=
  s <- clone this ;;
  add s q ;;
  ret s.

(** [addScalar(a)] *)
Definition addScalar (this : ref) (a : num) : M unit :=
  if negb (js_isNaN a) && js_isFinite a then
    a0 <- get_q this 0 ;; set_q this 0 (a0 + a)
  else ret tt.

(** [addScalarTo(a)] *)
Definition addScalarTo (this : ref) (a : num) : M ref :=
  s <- clone this ;;
  (if negb (js_isNaN a) && js_isFinite a then addScalar s a else ret tt) ;;
  ret s.

(** [subtract(q)] *)
Definition subtract (this q : ref) : M unit :=
  t <- values q ;;
  a0 <- get_q this 0 ;; set_q this 0 (a0 - arr_get t 0) ;;
  a1 <- get_q this 1 ;; set_q this 1 (a1 - arr_get t 1) ;;
  a2 <- get_q this 2 ;; set_q this 2 (a2 - arr_get t 2) ;;
  a3 <- get_q this 3 ;; set_q this 3 (a3 - arr_get t 3).

(** [subtractFrom(q)] *)
Definition subtractFrom (this q : ref) : M ref :=
  s <- clone this ;;
  subtract s q ;;
  ret s.

(** [subtractScalar(a)] *)
Definition subtractScalar (this : ref) (a : num) : M unit :=
  if negb (js_isNaN a) && js_isFinite a then
    a0 <- get_q this 0 ;; set_q this 0 (a0 - a)
  else ret tt.

(** [subractScalarFrom(a)] *)
Definition subractScalarFrom (this : ref) (a : num) : M ref :=
  s <- clone this ;;
  subtractScalar s a ;;
  ret s.

(** [multiplyInto(q)] *)
Definition multiplyInto (this q : ref) : M ref :=
  s <- clone this ;;
  multiply s q ;;
  ret s.

(** [multiplyByScalarInto(a)] *)
Definition multiplyByScalarInto (this : ref) (a : num) : M ref :=
  s <- clone this ;;
  multiplyByScalar s a ;;
  ret s.

(** [divideInto(q)] *)
Definition divideInto (this q : ref) : M ref :=
  s <- clone this ;;
  divide s q ;;
  ret s.

(** [divideByScalar(a)] *)
Definition divideByScalar (this : ref) (a : num) : M unit :=
  let k := if Math_abs a <? c1em10 then c1 else c1 / a in
  a0 <- get_q this 0 ;; set_q this 0 (a0 * k) ;;
  a1 <- get_q this 1 ;; set_q this 1 (a1 * k) ;;
  a2 <- get_q this 2 ;; set_q this 2 (a2 * k) ;;
  a3 <- get_q this 3 ;; set_q this 3 (a3 * k).

(** [divideByScalarInto(a)] *)
Definition divideByScalarInto (this : ref) (a : num) : M ref :=
  s <- clone this ;;
  divideByScalar s a ;;
  ret s.

(** [divideScalarBy(a)] *)
Definition divideScalarBy (this : ref) (a : num) : M unit :=
  q0 <- get_q this 0 ;;
  q1 <- get_q this 1 ;;
  q2 <- get_q this 2 ;;
  q3 <- get_q this 3 ;;
  let l := q0 * q0 + q1 * q1 + q2 * q2 + q3 * q3 in
  let d := if Math_abs l <? c1em10 then c1 else c1 / l in
  set_q this 0 (- a * q0 * d) ;;
  set_q this 1 (- a * q1 * d) ;;
  set_q this 2 (- a * q2 * d) ;;
  set_q this 3 (a * q3 * d).

(** [inverse()] *)
Definition inverse (this : ref) : M ref :=
  q <- clone this ;;
  invert q ;;
  ret q.

End Engine.
End QuaternionOps.

(* ================================================================== *)
(** * [Q.ts] and [QCalc.ts]: the dispatcher                          *)
(* ================================================================== *)

(** What [new Q] keeps of a constructor argument: the argument when the
    setter accepts it, the initial 0 otherwise. *)
Definition kept (value : float) : float :=
  if Holder.accepts value then value else 0%float.

Module QCalc.
Import Quaternion.
Local Open Scope js_scope.

(** The two static engines.  They are created when the class is loaded,
    before any other engine, so they are the first two objects. *)
Definition Q1 : ref := 0.
Definition Q2 : ref := 1.

Definition statics : St (heap float) unit :=
  new_TSMT_Quaternion ;;
  new_TSMT_Quaternion ;;
  ret tt.

(** [new Q(values[0], values[1], values[2], values[3])] *)
Definition wrap (values : list float) : St (heap float) Holder.Q :=
  lift (Holder.new_Q (arr_get values 0) (arr_get values 1)
                     (arr_get values 2) (arr_get values 3) None).

(** [QCalc.add(q1, q2)] *)
Definition add (q1 q2 : Holder.Q) : St (heap float) Holder.Q :=
  fromArray Q1 [Holder.w q1; Holder.i q1; Holder.j q1; Holder.k q1] ;;
  fromArray Q2 [Holder.w q2; Holder.i q2; Holder.j q2; Holder.k q2] ;;
  Quaternion.add Q1 Q2 ;;
  values <- toArray Q1 ;;
  wrap values.

(** [QCalc.subtract(q1, q2)] *)
Definition subtract (q1 q2 : Holder.Q) : St (heap float) Holder.Q :=
  fromArray Q1 [Holder.w q1; Holder.i q1; Holder.j q1; Holder.k q1] ;;
  fromArray Q2 [Holder.w q2; Holder.i q2; Holder.j q2; Holder.k q2] ;;
  QuaternionOps.subtract Q1 Q2 ;;
  values <- toArray Q1 ;;
  wrap values.

(** [QCalc.multiply(q1, q2)] *)
Definition multiply (q1 q2 : Holder.Q) : St (heap float) Holder.Q :=
  fromArray Q1 [Holder.w q1; Holder.i q1; Holder.j q1; Holder.k q1] ;;
  fromArray Q2 [Holder.w q2; Holder.i q2; Holder.j q2; Holder.k q2] ;;
  Quaternion.multiply Q1 Q2 ;;
  values <- toArray Q1 ;;
  wrap values.

(** [QCalc.divide(q1, q2)] *)
Definition divide (q1 q2 : Holder.Q) : St (heap float) Holder.Q :=
  fromArray Q1 [Holder.w q1; Holder.i q1; Holder.j q1; Holder.k q1] ;;
  fromArray Q2 [Holder.w q2; Holder.i q2; Holder.j q2; Holder.k q2] ;;
  Quaternion.divide Q1 Q2 ;;
  values <- toArray Q1 ;;
  wrap values.

(** The state the static engines are in between calls: both exist and
    hold four numbers. *)
Definition ready (h : heap float) : Prop :=
  (exists a b c d, h !! Q1 = Some (mkQuaternion [a; b; c; d]))
  /\ (exists a b c d, h !! Q2 = Some (mkQuaternion [a; b; c; d])).

End QCalc.

(* ================================================================== *)
(** * [CalcActions.ts], [QInputs.ts] and the input reducer            *)
(* ================================================================== *)

Module CalcActions.
Definition Q_NONE : string := "[Calc] None".
Definition Q_ADD : string := "[Calc] Add".
Definition Q_SUBTRACT : string := "[Calc] Subtract".
Definition Q_MULTIPLY : string := "[Calc] Multiply".
Definition Q_DIVIDE : string := "[Calc] Divide".
Definition Q_CLEAR : string := "[Calc] Clear".
Definition INIT : string := "[Calc] Init".
Definition STORE : string := "[Calc] Store".
End CalcActions.

Module Inputs.
Import CalcActions.
Local Open Scope js_scope.

(** The fields of a [QInputs]. *)
Record QInputs : Type := mkQInputs {
  q1 : Holder.Q;
  q2 : Holder.Q;
  result : Holder.Q;
  op : string;
  action : string
}.

(** [new QInputs()] *)
Definition new_QInputs {S} : St S QInputs :=
  a <- lift (Holder.new_Q 0 0 0 0 None) ;;
  b <- lift (Holder.new_Q 0 0 0 0 None) ;;
  c <- lift (Holder.new_Q 0 0 0 0 None) ;;
  ret (mkQInputs a b c "none" "none").

(** [clone()] *)
Definition clone {S} (this : QInputs) : St S QInputs :=
  q <- new_QInputs ;;
  a <- lift (Holder.clone (q1 this)) ;;
  b <- lift (Holder.clone (q2 this)) ;;
  c <- lift (Holder.clone (result this)) ;;
  ret (mkQInputs a b c (op this) (action this)).

(** [QInputAction]; the payload is taken at its declared type. *)
Record QInputAction : Type := mkQInputAction {
  type : string;
  payload : option QInputs
}.

(** [inputReducer(state, action)]; the parameter [action] is [act] here,
    the field [action] of [QInputs] keeps its name. *)
Definition inputReducer (state : option QInputs) (act : QInputAction)
  : St (heap float) QInputs :=
  qi <- new_QInputs ;;
  qi <- match payload act with
        | Some p => ret (mkQInputs (q1 p) (q2 p) (result qi) (op p) (action qi))
        | None =>
            a <- match state with
                 | Some s => lift (Holder.clone (q1 s))
                 | None => lift (Holder.new_Q 1 0 0 0 None)
                 end ;;
            b <- match state with
                 | Some s => lift (Holder.clone (q2 s))
                 | None => lift (Holder.new_Q 1 0 0 0 None)
                 end ;;
            ret (mkQInputs a b (result qi)
                   (match state with Some s => op s | None => Q_NONE end)
                   (action qi))
        end ;;
  let qi := mkQInputs (q1 qi) (q2 qi) (result qi) (op qi) (type act) in
  if String.eqb (type act) Q_ADD then
    r <- QCalc.add (q1 qi) (q2 qi) ;;
    ret (mkQInputs (q1 qi) (q2 qi) r (op qi) (action qi))
  else if String.eqb (type act) Q_SUBTRACT then
    r <- QCalc.subtract (q1 qi) (q2 qi) ;;
    ret (mkQInputs (q1 qi) (q2 qi) r (op qi) (action qi))
  else if String.eqb (type act) Q_MULTIPLY then
    r <- QCalc.multiply (q1 qi) (q2 qi) ;;
    ret (mkQInputs (q1 qi) (q2 qi) r (op qi) (action qi))
  else if String.eqb (type act) Q_DIVIDE then
    r <- QCalc.divide (q1 qi) (q2 qi) ;;
    ret (mkQInputs (q1 qi) (q2 qi) r (op qi) (action qi))
  else if String.eqb (type act) Q_CLEAR then
    a <- lift (Holder.new_Q 1 0 0 0 None) ;;
    b <- lift (Holder.new_Q 1 0 0 0 None) ;;
    c <- lift (Holder.new_Q 1 0 0 0 None) ;;
    ret (mkQInputs a b c Q_NONE (action qi))
  else if String.eqb (type act) INIT then
    match payload act with
    | None => fun _ => TypeError
    | Some p =>
        q <- clone p ;;
        let q := mkQInputs (q1 q) (q2 q) (result q) (op q) (type act) in
        if String.eqb (op q) Q_ADD then
          r <- QCalc.add (q1 q) (q2 q) ;;
          ret (mkQInputs (q1 q) (q2 q) r (op q) (action q))
        else if String.eqb (op q) Q_SUBTRACT then
          r <- QCalc.subtract (q1 q) (q2 q) ;;
          ret (mkQInputs (q1 q) (q2 q) r (op q) (action q))
        else if String.eqb (op q) Q_MULTIPLY then
          r <- QCalc.multiply (q1 q) (q2 q) ;;
          ret (mkQInputs (q1 q) (q2 q) r (op q) (action q))
        else if String.eqb (op q) Q_DIVIDE then
          r <- QCalc.divide (q1 q) (q2 q) ;;
          ret (mkQInputs (q1 q) (q2 q) r (op q) (action q))
        else ret q
    end
  else ret qi.

(** The operands of a slice are instances built by [new Q]. *)
Definition operands_reachable (s : QInputs) : Prop :=
  Holder.reachable (q1 s) /\ Holder.reachable (q2 s).

End Inputs.

(* ================================================================== *)
(** * [app.component.ts]: from the operation to the action            *)
(* ================================================================== *)

Module App.
Import CalcActions.

(** [__opToString(op)] *)
Definition opToString (op : string) : string :=
  if String.eqb op Q_ADD then "add"
  else if String.eqb op Q_SUBTRACT then "sub"
  else if String.eqb op Q_MULTIPLY then "mul"
  else if String.eqb op Q_DIVIDE then "div"
  else "none".

(** [__update(qi)], with the field [_op] as a parameter: the actions it
    dispatches to the store. *)
Definition update (_op : string) (qi : Inputs.QInputs)
  : list Inputs.QInputAction :=
  if String.eqb _op "add" then [Inputs.mkQInputAction Q_ADD (Some qi)]
  else if String.eqb _op "sub" then [Inputs.mkQInputAction Q_SUBTRACT (Some qi)]
  else if String.eqb _op "mul" then [Inputs.mkQInputAction Q_MULTIPLY (Some qi)]
  else if String.eqb _op "div" then [Inputs.mkQInputAction Q_DIVIDE (Some qi)]
  else [].

End App.

(* ================================================================== *)
(** * Running the heap programs symbolically                          *)
(* ================================================================== *)

Section HeapFacts.
Context {num : Type} `{Arith num}.
Import Quaternion.

Implicit Types (h : heap num) (o : TSMT_Quaternion num) (this q : ref).

Lemma bind_Ok {S A B} (c : St S A) (k : A -> St S B) s a s' :
  c s = Ok (a, s') -> bind c k s = k a s'.
Proof. unfold bind. intros ->. reflexivity. Qed.

Lemma bind_ret {S A B} (a : A) (k : A -> St S B) s : bind (ret a) k s = k a s.
Proof. reflexivity. Qed.

Lemma get_q_at h this o i :
  h !! this = Some o -> get_q this i h = Ok (arr_get (_q o) i, h).
Proof. unfold get_q. intros ->. reflexivity. Qed.

Lemma values_at h this o :
  h !! this = Some o -> values this h = Ok (_q o, h).
Proof. unfold values. intros ->. reflexivity. Qed.

Lemma set_q_at h this o i v :
  h !! this = Some o ->
  set_q this i v h = Ok (tt, <[this := mkQuaternion (arr_set (_q o) i v)]> h).
Proof. unfold set_q. intros ->. reflexivity. Qed.

(** A written object is read back, and a second write replaces the first. *)
Lemma lookup_written h this o o' :
  h !! this = Some o -> <[this := o']> h !! this = Some o'.
Proof. intros Hl. apply list_lookup_insert_eq. eapply lookup_lt_Some, Hl. Qed.

Lemma lookup_other h this q o' :
  this <> q -> <[this := o']> h !! q = h !! q.
Proof. apply list_lookup_insert_ne. Qed.

(** Allocation: the new reference is the old length of the heap. *)
Lemma lookup_fresh h o : (h ++ [o]) !! Datatypes.length h = Some o.
Proof. rewrite lookup_app_r by lia. rewrite Nat.sub_diag. reflexivity. Qed.

Lemma lookup_old h o this o' : h !! this = Some o' -> (h ++ [o]) !! this = Some o'.
Proof. apply lookup_app_l_Some. Qed.

Lemma write_fresh h o o' : <[Datatypes.length h := o']> (h ++ [o]) = h ++ [o'].
Proof.
  replace (Datatypes.length h) with (Datatypes.length h + 0)%nat by lia.
  rewrite insert_app_r. reflexivity.
Qed.

(** Reading and writing a four-element array at its four indices. *)
Lemma arr_get_0 (a b c d : num) : arr_get [a; b; c; d] 0 = a.
Proof. reflexivity. Qed.
Lemma arr_get_1 (a b c d : num) : arr_get [a; b; c; d] 1 = b.
Proof. reflexivity. Qed.
Lemma arr_get_2 (a b c d : num) : arr_get [a; b; c; d] 2 = c.
Proof. reflexivity. Qed.
Lemma arr_get_3 (a b c d : num) : arr_get [a; b; c; d] 3 = d.
Proof. reflexivity. Qed.
Lemma arr_set_0 (a b c d v : num) : arr_set [a; b; c; d] 0 v = [v; b; c; d].
Proof. reflexivity. Qed.
Lemma arr_set_1 (a b c d v : num) : arr_set [a; b; c; d] 1 v = [a; v; c; d].
Proof. reflexivity. Qed.
Lemma arr_set_2 (a b c d v : num) : arr_set [a; b; c; d] 2 v = [a; b; v; d].
Proof. reflexivity. Qed.
Lemma arr_set_3 (a b c d v : num) : arr_set [a; b; c; d] 3 v = [a; b; c; v].
Proof. reflexivity. Qed.

End HeapFacts.

Create Rewrite HintDb arr.
#[global] Hint Rewrite @arr_get_0 @arr_get_1 @arr_get_2 @arr_get_3
  @arr_set_0 @arr_set_1 @arr_set_2 @arr_set_3 : arr.

(** Runs a method body on the object [Hthis] describes: reads come from
    the hypothesis, and each write collapses onto the one before. *)
Ltac run Hthis :=
  unfold bind, ret, Quaternion.get_q, Quaternion.set_q, Quaternion.values;
  repeat (first [ rewrite Hthis
                | rewrite list_insert_insert_eq
                | rewrite (lookup_written _ _ _ _ Hthis) ];
          cbn [_q]; autorewrite with arr).

(* ================================================================== *)
(** * What each method does to the heap                               *)
(* ================================================================== *)

Section MethodFacts.
Context {num : Type} `{Arith num}.
Import Quaternion.
Local Open Scope js_scope.

Implicit Types (h : heap num) (this q : ref).

(** C6.  [multiply] leaves in the receiver the Hamilton product of the
    receiver (w1,i1,j1,k1), on the left, and the argument (w2,i2,j2,k2), on
    the right, each component computed by the textbook formula, the terms
    taken in the order written; the argument may be the receiver itself. *)
Theorem multiply_is_hamilton_product h this q w1 i1 j1 k1 w2 i2 j2 k2 :
  h !! this = Some (mkQuaternion [w1; i1; j1; k1]) ->
  h !! q = Some (mkQuaternion [w2; i2; j2; k2]) ->
  multiply this q h =
    Ok (tt, <[this := mkQuaternion
               [ w1 * w2 - i1 * i2 - j1 * j2 - k1 * k2;
                 w1 * i2 + i1 * w2 + j1 * k2 - k1 * j2;
                 w1 * j2 - i1 * k2 + j1 * w2 + k1 * i2;
                 w1 * k2 + i1 * j2 - j1 * i2 + k1 * w2 ]]> h).
Proof.
  intros Hthis Hq. unfold multiply.
  rewrite (bind_Ok _ _ _ _ _ (values_at _ _ _ Hq)).
  run Hthis. reflexivity.
Qed.

Lemma multiplyByScalar_at h this w i j k a :
  h !! this = Some (mkQuaternion [w; i; j; k]) ->
  multiplyByScalar this a h =
    Ok (tt, <[this := mkQuaternion [w * a; i * a; j * a; k * a]]> h).
Proof. intros Hthis. unfold multiplyByScalar. run Hthis. reflexivity. Qed.

Lemma invert_at h this w i j k :
  h !! this = Some (mkQuaternion [w; i; j; k]) ->
  let l := w * w + i * i + j * j + k * k in
  let d := if Math_abs l <? c1em10 then c1 else c1 / l in
  invert this h =
    Ok (tt, <[this := mkQuaternion [- w * d; - i * d; - j * d; k * d]]> h).
Proof. intros Hthis l d. unfold invert. run Hthis. reflexivity. Qed.

Lemma length_at h this w i j k :
  h !! this = Some (mkQuaternion [w; i; j; k]) ->
  length this h = Ok (Math_sqrt (w * w + i * i + j * j + k * k), h).
Proof. intros Hthis. unfold length. run Hthis. reflexivity. Qed.

Lemma normalize_at h this w i j k :
  h !! this = Some (mkQuaternion [w; i; j; k]) ->
  let l := Math_sqrt (w * w + i * i + j * j + k * k) in
  let d := if Math_abs l <? c1em10 then c1 else c1 / l in
  normalize this h =
    Ok (tt, <[this := mkQuaternion [w * d; i * d; j * d; k * d]]> h).
Proof.
  intros Hthis l d. unfold normalize.
  rewrite (bind_Ok _ _ _ _ _ (length_at _ _ _ _ _ _ Hthis)).
  run Hthis. reflexivity.
Qed.

(** C10.  On a quaternion (w,i,j,k), [fromArray] with fewer than three
    values completes normally and leaves the heap, hence the four
    components, as they were; with three values x, y, z it leaves
    (1.0, x, y, z). *)
Theorem fromArray_short_and_triple h this w i j k :
  h !! this = Some (mkQuaternion [w; i; j; k]) ->
  (forall values : list num,
     (Datatypes.length values < 3)%nat -> fromArray this values h = Ok (tt, h))
  /\ (forall x y z : num,
       fromArray this [x; y; z] h =
         Ok (tt, <[this := mkQuaternion [c1; x; y; z]]> h)).
Proof.
  intros Hthis. split.
  - intros values Hlen. unfold fromArray.
    apply Nat.ltb_lt in Hlen. rewrite Hlen. reflexivity.
  - intros x y z. unfold fromArray.
    cbn [Datatypes.length Nat.ltb Nat.leb Nat.eqb].
    change (arr_get [x; y; z] 0) with x.
    change (arr_get [x; y; z] 1) with y.
    change (arr_get [x; y; z] 2) with z.
    run Hthis. reflexivity.
Qed.

Lemma fromArray_four h this w i j k a b c d :
  h !! this = Some (mkQuaternion [w; i; j; k]) ->
  fromArray this [a; b; c; d] h = Ok (tt, <[this := mkQuaternion [a; b; c; d]]> h).
Proof.
  intros Hthis. unfold fromArray.
  cbn [Datatypes.length Nat.ltb Nat.leb Nat.eqb].
  autorewrite with arr. run Hthis. reflexivity.
Qed.

(** [clone] allocates: the copy is a new object at the end of the heap. *)
Lemma clone_at h this w i j k :
  h !! this = Some (mkQuaternion [w; i; j; k]) ->
  clone this h = Ok (Datatypes.length h, h ++ [mkQuaternion [w; i; j; k]]).
Proof.
  intros Hthis. unfold clone, new_TSMT_Quaternion.
  rewrite bind_Ok with (a := Datatypes.length h)
                       (s' := h ++ [mkQuaternion [c1; c0; c0; c0]]) by reflexivity.
  pose proof (lookup_old h (mkQuaternion [c1; c0; c0; c0]) _ _ Hthis) as Hold.
  rewrite (bind_Ok _ _ _ _ _ (get_q_at _ _ _ 0 Hold)).
  rewrite (bind_Ok _ _ _ _ _ (get_q_at _ _ _ 1 Hold)).
  rewrite (bind_Ok _ _ _ _ _ (get_q_at _ _ _ 2 Hold)).
  rewrite (bind_Ok _ _ _ _ _ (get_q_at _ _ _ 3 Hold)).
  cbn [_q]. autorewrite with arr.
  rewrite (bind_Ok _ _ _ _ _
             (fromArray_four _ _ _ _ _ _ w i j k (lookup_fresh h _))).
  unfold ret. rewrite write_fresh. reflexivity.
Qed.

Lemma add_at h this q a0 a1 a2 a3 b0 b1 b2 b3 :
  h !! this = Some (mkQuaternion [a0; a1; a2; a3]) ->
  h !! q = Some (mkQuaternion [b0; b1; b2; b3]) ->
  add this q h =
    Ok (tt, <[this := mkQuaternion [a0 + b0; a1 + b1; a2 + b2; a3 + b3]]> h).
Proof.
  intros Hthis Hq. unfold add.
  rewrite (bind_Ok _ _ _ _ _ (values_at _ _ _ Hq)).
  run Hthis. reflexivity.
Qed.

Lemma dot_at h this q a0 a1 a2 a3 b0 b1 b2 b3 :
  h !! this = Some (mkQuaternion [a0; a1; a2; a3]) ->
  h !! q = Some (mkQuaternion [b0; b1; b2; b3]) ->
  dot this q h = Ok (b0 * a0 + b1 * a1 + b2 * a2 + b3 * a3, h).
Proof.
  intros Hthis Hq. unfold dot.
  rewrite (bind_Ok _ _ _ _ _ (values_at _ _ _ Hq)).
  run Hthis. reflexivity.
Qed.

(** [nlerp] on any two distinct operands: the receiver is left as it was,
    and the argument is left multiplied by the signed, clamped parameter. *)
Lemma nlerp_operands_after h this q a0 a1 a2 a3 b0 b1 b2 b3 _t :
  this <> q ->
  h !! this = Some (mkQuaternion [a0; a1; a2; a3]) ->
  h !! q = Some (mkQuaternion [b0; b1; b2; b3]) ->
  let t := Math_min (Math_max c0 _t) c1 in
  let t' := if b0 * a0 + b1 * a1 + b2 * a2 + b3 * a3 <? c0 then - t else t in
  exists h',
    nlerp this q _t h = Ok (Datatypes.length h, h')
    /\ h' !! this = Some (mkQuaternion [a0; a1; a2; a3])
    /\ h' !! q = Some (mkQuaternion [b0 * t'; b1 * t'; b2 * t'; b3 * t']).
Proof.
  intros Hne Hthis Hq t t'.
  pose proof (lookup_lt_Some _ _ _ Hthis) as Hlt_this.
  pose proof (lookup_lt_Some _ _ _ Hq) as Hlt_q.
  set (qt := Datatypes.length h).
  assert (Hqt_this : qt <> this) by (unfold qt; lia).
  assert (Hqt_q : qt <> q) by (unfold qt; lia).
  set (h1 := h ++ [mkQuaternion [a0; a1; a2; a3]]).
  assert (H1this : h1 !! this = Some (mkQuaternion [a0; a1; a2; a3]))
    by (apply lookup_old, Hthis).
  assert (H1q : h1 !! q = Some (mkQuaternion [b0; b1; b2; b3]))
    by (apply lookup_old, Hq).
  assert (H1qt : h1 !! qt = Some (mkQuaternion [a0; a1; a2; a3]))
    by apply lookup_fresh.
  set (h2 := <[qt := mkQuaternion
                       [a0 * (c1 - t); a1 * (c1 - t); a2 * (c1 - t); a3 * (c1 - t)]]> h1).
  assert (H2q : h2 !! q = Some (mkQuaternion [b0; b1; b2; b3]))
    by (unfold h2; rewrite lookup_other by exact Hqt_q; exact H1q).
  set (h3 := <[q := mkQuaternion [b0 * t'; b1 * t'; b2 * t'; b3 * t']]> h2).
  assert (H3q : h3 !! q = Some (mkQuaternion [b0 * t'; b1 * t'; b2 * t'; b3 * t']))
    by (apply (lookup_written _ _ _ _ H2q)).
  assert (H3qt : h3 !! qt = Some (mkQuaternion
            [a0 * (c1 - t); a1 * (c1 - t); a2 * (c1 - t); a3 * (c1 - t)])).
  { unfold h3. rewrite lookup_other by (intros E; apply Hqt_q; symmetry; exact E).
    apply (lookup_written _ _ _ _ H1qt). }
  pose proof (add_at _ _ _ _ _ _ _ _ _ _ _ H3qt H3q) as Hadd.
  match type of Hadd with _ = Ok (_, ?x) => set (h4 := x) in Hadd end.
  assert (H4qt : h4 !! qt = Some (mkQuaternion
            [a0 * (c1 - t) + b0 * t'; a1 * (c1 - t) + b1 * t';
             a2 * (c1 - t) + b2 * t'; a3 * (c1 - t) + b3 * t']))
    by (apply (lookup_written _ _ _ _ H3qt)).
  pose proof (normalize_at _ _ _ _ _ _ H4qt) as Hnorm. cbv zeta in Hnorm.
  match type of Hnorm with _ = Ok (_, ?x) => set (h5 := x) in Hnorm end.
  exists h5. split; [| split].
  - unfold nlerp. fold t.
    rewrite (bind_Ok _ _ _ _ _ (clone_at _ _ _ _ _ _ Hthis)). fold h1 qt.
    rewrite (bind_Ok _ _ _ _ _ (dot_at _ _ _ _ _ _ _ _ _ _ _ H1this H1q)).
    fold t'.
    rewrite (bind_Ok _ _ _ _ _ (multiplyByScalar_at _ _ _ _ _ _ (c1 - t) H1qt)).
    fold h2.
    rewrite (bind_Ok _ _ _ _ _ (multiplyByScalar_at _ _ _ _ _ _ t' H2q)).
    fold h3.
    rewrite (bind_Ok _ _ _ _ _ Hadd), (bind_Ok _ _ _ _ _ Hnorm).
    reflexivity.
  - unfold h5, h4, h3, h2.
    rewrite !lookup_other by first [exact Hqt_this | exact Hne | intros E; apply Hne; symmetry; exact E ].
    exact H1this.
  - unfold h5, h4. rewrite !lookup_other by exact Hqt_q. exact H3q.
Qed.

(** The branch [|ctheta| >= 1] of [slerp], on any operands: the quaternion
    returned is a new object holding (j, j, k, w) of the receiver. *)
Lemma slerp_degenerate `{Trig num} h this q a0 a1 a2 a3 b0 b1 b2 b3 t :
  h !! this = Some (mkQuaternion [a0; a1; a2; a3]) ->
  h !! q = Some (mkQuaternion [b0; b1; b2; b3]) ->
  (Math_abs (a2 * b1 + a2 * b2 + a3 * b3 + a0 * a0) >=? c1) = true ->
  slerp this q t h =
    Ok (Datatypes.length h, h ++ [mkQuaternion [a2; a2; a3; a0]]).
Proof.
  intros Hthis Hq Hdeg. unfold slerp.
  rewrite (bind_Ok _ _ _ _ _ (clone_at _ _ _ _ _ _ Hthis)).
  pose proof (lookup_old h (mkQuaternion [a0; a1; a2; a3]) _ _ Hthis) as Hthis'.
  pose proof (lookup_old h (mkQuaternion [a0; a1; a2; a3]) _ _ Hq) as Hq'.
  rewrite (bind_Ok _ _ _ _ _ (get_q_at _ _ _ 0 Hthis')).
  rewrite (bind_Ok _ _ _ _ _ (get_q_at _ _ _ 2 Hthis')).
  rewrite (bind_Ok _ _ _ _ _ (get_q_at _ _ _ 2 Hthis')).
  rewrite (bind_Ok _ _ _ _ _ (get_q_at _ _ _ 3 Hthis')).
  rewrite (bind_Ok _ _ _ _ _ (values_at _ _ _ Hq')).
  cbn [_q]. autorewrite with arr. rewrite Hdeg.
  rewrite (bind_Ok _ _ _ _ _
             (fromArray_four _ _ _ _ _ _ a2 a2 a3 a0 (lookup_fresh h _))).
  unfold ret. rewrite write_fresh. reflexivity.
Qed.

End MethodFacts.

(* ================================================================== *)
(** * The engine on binary64 operands                                 *)
(* ================================================================== *)

Section Binary64.
Import Quaternion.
Local Open Scope float_scope.

(** C1.  [multiply(q, invert(q))] does not approximate the identity
    (1,0,0,0): for q = (1,0,0,0) itself, inverting a clone and multiplying q
    by it leaves (-1, 0, -0, 0) in q.  The real part is -1, at distance 2
    from the identity. *)
Theorem times_inverse_of_identity :
  eval (Scenario.times_inverse [1; 0; 0; 0]) [] = Ok [-1; 0; -0; 0]
  /\ Float64.within 0x1.12e0be826d695p-30 (-1) 1 = false.
Proof. split; vm_compute; reflexivity. Qed.

(** C2.  [invert] does not hold w and negate i, j, k: on (w,i,j,k) =
    (1,1,1,1), whose squared norm is 4, it leaves (-1/4, -1/4, -1/4, 1/4),
    with w negated and k held, where the conjugate over the squared norm is
    (1/4, -1/4, -1/4, -1/4). *)
Theorem invert_negates_w_and_holds_k :
  eval (Scenario.inverted [1; 1; 1; 1]) [] = Ok [-0.25; -0.25; -0.25; 0.25].
Proof. vm_compute. reflexivity. Qed.

(** C3.  In the branch [|cosHalfTheta| >= 1], [slerp] does not return the
    first operand: for qa = qb = (1,0,0,0), where the computed cosine is 1,
    it returns (0,0,0,1), whatever [Math.acos] and [Math.sin] compute. *)
Theorem slerp_of_identity_with_itself (T : Trig float) :
  eval (Scenario.slerped [1; 0; 0; 0] [1; 0; 0; 0] 0.5) [] = Ok [0; 0; 0; 1].
Proof. vm_compute. reflexivity. Qed.

(** C5.  [nlerp] changes its second operand: with q1 = (1,0,0,0),
    q2 = (0,1,0,0) and t = 0.5, q1 still holds (1,0,0,0) after the call and
    q2 holds (0,0.5,0,0). *)
Theorem nlerp_scales_second_operand :
  eval (Scenario.nlerp_operands [1; 0; 0; 0] [0; 1; 0; 0] 0.5) [] =
    Ok ([1; 0; 0; 0], [0; 1; 0; 0], ([1; 0; 0; 0], [0; 0.5; 0; 0])).
Proof. vm_compute. reflexivity. Qed.

(** C8.  [toRotationMatrix] after [fromRotationMatrix] does not reproduce
    the matrix: the half turn about the x axis, diag(1,-1,-1), is loaded as
    the quaternion (1,0,0,0) and exported as the identity matrix. *)
Theorem round_trip_of_half_turn :
  eval (Scenario.round_trip [[1; 0; 0]; [0; -1; 0]; [0; 0; -1]]) [] =
    Ok ([1; 0; 0; 0], [[1; 0; 0]; [0; 1; 0]; [0; 0; 1]]).
Proof. vm_compute. reflexivity. Qed.

End Binary64.

(* ================================================================== *)
(** * The memory reducer                                              *)
(* ================================================================== *)

(** C4.  Recalling before anything was stored throws: the memory slice is
    still [undefined], and [memoryReducer] reads [state.id] on it.  Only on
    a slice that exists and holds no quaternion does the recall return the
    absent value, which differs from a stored (0,0,0,0). *)
Theorem recall_before_store_throws :
  Reducers.memoryReducer None
    (Reducers.mkQMemoryAction Reducers.FROM_MEMORY None) = TypeError
  /\ (forall action id,
        Reducers.memoryReducer (Some (Reducers.mkQMemory action id None))
          (Reducers.mkQMemoryAction Reducers.FROM_MEMORY None) =
        Ok (Some (Reducers.mkQMemory Reducers.FROM_MEMORY id None)))
  /\ None <> Some (Holder.mkQ EmptyString 0 0 0 0).
Proof. split; [reflexivity | split; [intros; reflexivity | discriminate]]. Qed.

(* ================================================================== *)
(** * Instances of the general facts                                  *)
(* ================================================================== *)

Section Instances.
Import Quaternion.

Lemma multiply_is_hamilton_product_witness :
  let h : heap float := [mkQuaternion [1; 2; 3; 4]; mkQuaternion [5; 6; 7; 8]]%float in
  h !! 0%nat = Some (mkQuaternion [1; 2; 3; 4]%float)
  /\ h !! 1%nat = Some (mkQuaternion [5; 6; 7; 8]%float)
  /\ multiply 0 1 h =
       Ok (tt, [mkQuaternion [-60; 12; 30; 24]; mkQuaternion [5; 6; 7; 8]]%float).
Proof.
  intros h. split; [reflexivity | split; [reflexivity |]].
  rewrite (multiply_is_hamilton_product h 0%nat 1%nat 1 2 3 4 5 6 7 8)%float
    by reflexivity.
  vm_compute. reflexivity.
Defined.

Lemma fromArray_short_and_triple_witness :
  let h : heap float := [mkQuaternion [1; 2; 3; 4]]%float in
  h !! 0%nat = Some (mkQuaternion [1; 2; 3; 4]%float)
  /\ fromArray 0 [9; 8]%float h = Ok (tt, h)
  /\ fromArray 0 [5; 6; 7]%float h = Ok (tt, [mkQuaternion [1; 5; 6; 7]]%float).
Proof.
  intros h.
  destruct (fromArray_short_and_triple h 0%nat 1 2 3 4 eq_refl)%float as [Hs Ht].
  split; [reflexivity | split].
  - apply Hs. simpl. lia.
  - rewrite Ht. reflexivity.
Defined.

End Instances.

(* ================================================================== *)
(** * Rounding in binary64                                            *)
(* ================================================================== *)

(** What [SpecFloat] computes for a product, a sum, a quotient and a
    square root, against the exact result: the mantissa is truncated to
    its 53 digits, one unit of its last place is added or not, and the
    result is infinite only if the exact result is beyond the finite
    range. *)

Section Rounding.
Import Double.
Local Open Scope Z_scope.

Lemma bpow_pos e : (0 < bpow e)%R.
Proof. apply powerRZ_lt. lra. Qed.

Lemma bpow_add a b : bpow (a + b) = (bpow a * bpow b)%R.
Proof. apply powerRZ_add. lra. Qed.

Lemma bpow_IZR k : 0 <= k -> bpow k = IZR (2 ^ k).
Proof.
  intros Hk. unfold bpow.
  destruct k as [| p | p]; [reflexivity | | lia].
  rewrite <- Zpower_pos_powerRZ. reflexivity.
Qed.

Lemma bpow_le a b : a <= b -> (bpow a <= bpow b)%R.
Proof.
  intros Hab. replace b with (a + (b - a)) by lia.
  rewrite bpow_add, (bpow_IZR (b - a)) by lia.
  assert (1 <= IZR (2 ^ (b - a)))%R.
  { apply IZR_le. pose proof (Z.pow_pos_nonneg 2 (b - a)). lia. }
  pose proof (bpow_pos a). nra.
Qed.

Lemma bpow_succ a : bpow (a + 1) = (2 * bpow a)%R.
Proof. rewrite bpow_add. change (bpow 1) with (2 * 1)%R. lra. Qed.

Lemma digits2_pos_bounds p :
  2 ^ (Z.pos (digits2_pos p) - 1) <= Z.pos p < 2 ^ Z.pos (digits2_pos p).
Proof.
  induction p as [p IH | p IH |]; cbn [digits2_pos].
  - rewrite Pos2Z.inj_succ.
    replace (Z.succ (Z.pos (digits2_pos p)) - 1) with (Z.succ (Z.pos (digits2_pos p) - 1)) by lia.
    rewrite !Z.pow_succ_r by lia. lia.
  - rewrite Pos2Z.inj_succ.
    replace (Z.succ (Z.pos (digits2_pos p)) - 1) with (Z.succ (Z.pos (digits2_pos p) - 1)) by lia.
    rewrite !Z.pow_succ_r by lia. lia.
  - cbn. lia.
Qed.

Lemma Zdigits2_nonneg m : 0 <= Zdigits2 m.
Proof. destruct m; cbn; lia. Qed.

Lemma Zdigits2_lt m : 0 <= m -> m < 2 ^ Zdigits2 m.
Proof.
  destruct m as [| p | p]; cbn [Zdigits2]; intros; [cbn; lia | | lia].
  apply digits2_pos_bounds.
Qed.

Lemma Zdigits2_ge m : 0 < m -> 2 ^ (Zdigits2 m - 1) <= m.
Proof.
  destruct m as [| p | p]; cbn [Zdigits2]; intros; [lia | | lia].
  apply digits2_pos_bounds.
Qed.

Lemma Zdigits2_le m n : 0 <= m < 2 ^ n -> 0 <= n -> Zdigits2 m <= n.
Proof.
  intros [Hm Hlt] Hn.
  destruct (Z.eq_dec m 0) as [-> | Hne]; [cbn; lia |].
  pose proof (Zdigits2_ge m ltac:(lia)) as Hge.
  destruct (Z_le_gt_dec (Zdigits2 m) n) as [| Hgt]; [assumption |].
  exfalso.
  assert (2 ^ n <= 2 ^ (Zdigits2 m - 1)) by (apply Z.pow_le_mono_r; lia).
  lia.
Qed.

Lemma shr_1_m mrs : 0 <= shr_m mrs -> shr_m (shr_1 mrs) = shr_m mrs / 2.
Proof.
  destruct mrs as [m r s]. cbn [shr_m shr_1]. intros Hm.
  destruct m as [| [p | p |] | p]; cbn [shr_m]; [reflexivity | | | reflexivity | lia].
  - apply Z.div_unique with 1; lia.
  - apply Z.div_unique with 0; lia.
Qed.

Lemma iter_shr_1_m p : forall mrs,
  0 <= shr_m mrs ->
  shr_m (SpecFloat.iter_pos shr_1 p mrs) = shr_m mrs / 2 ^ Z.pos p.
Proof.
  induction p as [p IH | p IH |]; intros mrs Hm; cbn [SpecFloat.iter_pos].
  - assert (H1 : 0 <= shr_m (shr_1 mrs)).
    { rewrite shr_1_m by assumption. apply Z.div_pos; lia. }
    assert (H2 : 0 <= shr_m (SpecFloat.iter_pos shr_1 p (shr_1 mrs))).
    { rewrite IH by assumption. apply Z.div_pos; [assumption |]. apply Z.pow_pos_nonneg; lia. }
    rewrite IH, IH, shr_1_m by assumption.
    rewrite !Z.div_div by (try apply Z.pow_pos_nonneg; lia).
    f_equal. rewrite Pos2Z.inj_xI.
    replace (2 * Z.pos p + 1) with (1 + Z.pos p + Z.pos p) by lia.
    rewrite !Z.pow_add_r by lia. lia.
  - assert (H2 : 0 <= shr_m (SpecFloat.iter_pos shr_1 p mrs)).
    { rewrite IH by assumption. apply Z.div_pos; [assumption |]. apply Z.pow_pos_nonneg; lia. }
    rewrite IH, IH by assumption.
    rewrite !Z.div_div by (try apply Z.pow_pos_nonneg; lia).
    f_equal. rewrite <- Z.pow_add_r by lia. f_equal. lia.
  - apply shr_1_m. assumption.
Qed.

Lemma fexp_eq x : fexp prec emax x = Z.max (x - 53) (-1074).
Proof. reflexivity. Qed.

Lemma shr_fexp_spec m e l mrs e' :
  0 <= m ->
  shr_fexp prec emax m e l = (mrs, e') ->
  e' = Z.max e (fexp prec emax (Zdigits2 m + e))
  /\ shr_m mrs = m / 2 ^ (e' - e).
Proof.
  intros Hm. unfold shr_fexp, shr.
  assert (Hr : shr_m (shr_record_of_loc m l) = m)
    by (destruct l as [| []]; reflexivity).
  destruct (fexp prec emax (Zdigits2 m + e) - e) as [| p | p] eqn:Hn;
    intros [= <- <-].
  - split; [lia |]. rewrite Hr. rewrite Z.sub_diag, Z.pow_0_r, Z.div_1_r. reflexivity.
  - split; [lia |]. rewrite iter_shr_1_m by lia. rewrite Hr.
    do 2 f_equal. lia.
  - split; [lia |]. rewrite Hr. rewrite Z.sub_diag, Z.pow_0_r, Z.div_1_r. reflexivity.
Qed.

Lemma round_nearest_even_bounds m l :
  m <= round_nearest_even m l <= m + 1.
Proof.
  destruct l as [| []]; cbn [round_nearest_even]; try lia.
  destruct (Z.even m); lia.
Qed.

(** Truncating a mantissa by k places brackets the value it stood for. *)
Lemma truncation_bounds m k e :
  0 <= m -> 0 <= k ->
  (IZR (m / 2 ^ k) * bpow (e + k) <= IZR m * bpow e
   /\ (IZR m + 1) * bpow e <= (IZR (m / 2 ^ k) + 1) * bpow (e + k))%R.
Proof.
  intros Hm Hk.
  assert (Hp : 0 < 2 ^ k) by (apply Z.pow_pos_nonneg; lia).
  pose proof (Z.mul_div_le m (2 ^ k) Hp) as Hlo.
  pose proof (Z.mul_succ_div_gt m (2 ^ k) Hp) as Hhi.
  pose proof (bpow_pos e) as He.
  rewrite bpow_add, (bpow_IZR k Hk).
  rewrite (Rmult_comm (bpow e)), <- !Rmult_assoc.
  split; apply Rmult_le_compat_r; try lra.
  - rewrite <- mult_IZR. apply IZR_le. lia.
  - rewrite <- !plus_IZR, <- mult_IZR. apply IZR_le. lia.
Qed.

Lemma mantissa_lower m e :
  0 < m -> (bpow (Zdigits2 m - 1 + e) <= IZR m * bpow e)%R.
Proof.
  intros Hm. pose proof (Zdigits2_ge m Hm) as Hge.
  pose proof (Zdigits2_nonneg m) as Hd.
  assert (Zdigits2 m <> 0) by (destruct m; cbn; lia).
  rewrite bpow_add, (bpow_IZR (Zdigits2 m - 1)) by lia.
  apply Rmult_le_compat_r; [pose proof (bpow_pos e); lra | apply IZR_le, Hge].
Qed.

Lemma mantissa_upper m e :
  0 <= m -> (IZR m * bpow e < bpow (Zdigits2 m + e))%R.
Proof.
  intros Hm. pose proof (Zdigits2_lt m Hm) as Hlt.
  pose proof (Zdigits2_nonneg m) as Hd.
  rewrite bpow_add, (bpow_IZR (Zdigits2 m)) by lia.
  apply Rmult_lt_compat_r; [apply bpow_pos | apply IZR_lt, Hlt].
Qed.

Lemma Zdigits2_div m k :
  0 <= m -> 0 <= k -> Zdigits2 (m / 2 ^ k) <= Z.max (Zdigits2 m - k) 0.
Proof.
  intros Hm Hk.
  pose proof (Zdigits2_lt m Hm) as Hlt.
  pose proof (Zdigits2_nonneg m) as Hd.
  assert (Hp : 0 < 2 ^ k) by (apply Z.pow_pos_nonneg; lia).
  apply Zdigits2_le; [| lia].
  split; [apply Z.div_pos; lia |].
  destruct (Z_le_gt_dec k (Zdigits2 m)) as [Hle | Hgt].
  - rewrite Z.max_l by lia.
    apply Z.div_lt_upper_bound; [assumption |].
    rewrite <- Z.pow_add_r by lia.
    replace (k + (Zdigits2 m - k)) with (Zdigits2 m) by lia. assumption.
  - rewrite Z.max_r by lia.
    assert (2 ^ Zdigits2 m <= 2 ^ k) by (apply Z.pow_le_mono_r; lia).
    rewrite Z.div_small by lia. cbn. lia.
Qed.

Lemma Zdigits2_succ m n :
  0 <= m -> 0 <= n <= m + 1 -> Zdigits2 n <= Zdigits2 m + 1.
Proof.
  intros Hm Hn.
  pose proof (Zdigits2_lt m Hm) as Hlt.
  pose proof (Zdigits2_nonneg m) as Hd.
  apply Zdigits2_le; [| lia].
  rewrite Z.pow_add_r, Z.pow_1_r by lia. lia.
Qed.

(** The rounding of a value [V] known to lie between two neighbouring
    multiples of [2^ex]: the result is not a NaN, it is within two units of
    the exponent [E] the mantissa is truncated to, and it is infinite only
    if [V] is huge. *)
Lemma binary_round_aux_spec sx mx ex lx (V : R) :
  0 <= mx ->
  (IZR mx * bpow ex <= V <= (IZR mx + 1) * bpow ex)%R ->
  let E := Z.max ex (fexp prec emax (Zdigits2 mx + ex)) in
  match binary_round_aux prec emax sx mx ex lx with
  | S754_nan => False
  | S754_infinity s => s = sx /\ (971 < ex \/ (bpow 1023 <= V)%R)
  | S754_zero s => s = sx /\ (Rabs (0 - V) <= 2 * bpow E)%R
  | S754_finite s m e =>
      s = sx /\ (Rabs (IZR (Z.pos m) * bpow e - V) <= 2 * bpow E)%R
  end.
Proof.
  intros Hmx HV E. unfold binary_round_aux.
  destruct (shr_fexp prec emax mx ex lx) as [mrs1 e1] eqn:H1.
  apply shr_fexp_spec in H1 as [He1 Hm1]; [| assumption].
  fold E in He1. subst e1.
  set (m1 := shr_m mrs1) in *.
  set (m2 := round_nearest_even m1 (loc_of_shr_record mrs1)).
  pose proof (round_nearest_even_bounds m1 (loc_of_shr_record mrs1)) as Hm2.
  fold m2 in Hm2.
  assert (Hk1 : 0 <= E - ex) by lia.
  assert (Hp1 : 0 < 2 ^ (E - ex)) by (apply Z.pow_pos_nonneg; lia).
  assert (Hm1pos : 0 <= m1) by (rewrite Hm1; apply Z.div_pos; lia).
  destruct (shr_fexp prec emax m2 E loc_Exact) as [mrs3 e3] eqn:H3.
  apply shr_fexp_spec in H3 as [He3 Hm3]; [| lia].
  set (m3 := shr_m mrs3) in *.
  assert (Hk3 : 0 <= e3 - E) by lia.
  assert (Hp3 : 0 < 2 ^ (e3 - E)) by (apply Z.pow_pos_nonneg; lia).
  assert (Hm3pos : 0 <= m3) by (rewrite Hm3; apply Z.div_pos; lia).
  (* the exponent grows by one place at most *)
  pose proof (Zdigits2_div mx (E - ex) Hmx Hk1) as Hd1. rewrite <- Hm1 in Hd1.
  pose proof (Zdigits2_succ m1 m2 Hm1pos ltac:(lia)) as Hd2.
  pose proof (Zdigits2_nonneg mx) as Hdx.
  pose proof (Zdigits2_nonneg m2) as Hdm2.
  assert (He3' : e3 <= E + 1).
  { subst e3. unfold E in *. rewrite !fexp_eq in *. lia. }
  (* the brackets *)
  destruct (truncation_bounds mx (E - ex) ex Hmx Hk1) as [Hlo1 Hhi1].
  rewrite <- Hm1 in Hlo1, Hhi1.
  replace (ex + (E - ex)) with E in Hlo1, Hhi1 by lia.
  destruct (truncation_bounds m2 (e3 - E) E ltac:(lia) Hk3) as [Hlo3 Hhi3].
  rewrite <- Hm3 in Hlo3, Hhi3.
  replace (E + (e3 - E)) with e3 in Hlo3, Hhi3 by lia.
  assert (HbE : (0 < bpow E)%R) by apply bpow_pos.
  assert (Hb3 : (bpow e3 <= 2 * bpow E)%R).
  { rewrite <- bpow_succ. apply bpow_le. lia. }
  assert (Hm2R : (IZR m1 <= IZR m2 <= IZR m1 + 1)%R).
  { split; [apply IZR_le; lia |]. rewrite <- plus_IZR. apply IZR_le. lia. }
  assert (Hr : (Rabs (IZR m3 * bpow e3 - V) <= 2 * bpow E)%R).
  { apply Rabs_le. nra. }
  destruct m3 as [| p | p] eqn:Hm3e; [| | lia].
  - split; [reflexivity |]. rewrite Rmult_0_l in Hr. exact Hr.
  - destruct (e3 <=? emax - prec) eqn:Hle.
    + split; [reflexivity | exact Hr].
    + split; [reflexivity |].
      apply Z.leb_gt in Hle. change (emax - prec) with 971 in Hle.
      destruct (Z_le_gt_dec ex 971) as [Hex | Hex]; [right | left; lia].
      destruct (Z_le_gt_dec E 971) as [HE | HE].
      * (* the carry of the rounding reached the 54th digit *)
        assert (Hd54 : Zdigits2 m2 = 54).
        { subst e3. unfold E in *. rewrite !fexp_eq in *. lia. }
        assert (HE971 : E = 971) by lia.
        pose proof (Zdigits2_ge m2 ltac:(destruct m2; cbn in Hd54; lia)) as Hge.
        rewrite Hd54 in Hge. change (2 ^ (54 - 1)) with 9007199254740992 in Hge.
        assert (IZR 9007199254740991 <= IZR m1)%R by (apply IZR_le; lia).
        replace 1023 with (52 + E) by lia.
        rewrite bpow_add, (bpow_IZR 52) by lia.
        change (2 ^ 52) with 4503599627370496. nra.
      * (* the mantissa had too many digits for the largest exponent *)
        assert (HEd : E = Zdigits2 mx + ex - 53).
        { unfold E in *. rewrite !fexp_eq in *. lia. }
        assert (0 < mx) by (destruct mx; cbn in HEd; lia).
        pose proof (mantissa_lower mx ex ltac:(lia)) as Hlow.
        assert (bpow 1023 <= bpow (Zdigits2 mx - 1 + ex))%R by (apply bpow_le; lia).
        lra.
Qed.

Lemma bpow_max a b : (bpow (Z.max a b) <= Rmax (bpow a) (bpow b))%R.
Proof.
  destruct (Z.max_spec a b) as [[_ ->] | [_ ->]];
    [apply Rmax_r | apply Rmax_l].
Qed.

(** The rounding error in terms of the value: a mantissa of 53 digits
    loses at most two units in 2^52, and nothing is lost below the least
    exponent but two units of it. *)
Lemma rounding_error sx mx ex lx (V : R) :
  0 <= mx ->
  (IZR mx * bpow ex <= V <= (IZR mx + 1) * bpow ex)%R ->
  (bpow ex <= bpow (-52) * V + bpow (-1074))%R ->
  (971 < ex -> (bpow 1023 <= V)%R) ->
  match binary_round_aux prec emax sx mx ex lx with
  | S754_nan => False
  | S754_infinity s => s = sx /\ (bpow 1023 <= V)%R
  | S754_zero s => s = sx /\ (Rabs (0 - V) <= rel_err * V + abs_err)%R
  | S754_finite s m e =>
      s = sx /\ (Rabs (IZR (Z.pos m) * bpow e - V) <= rel_err * V + abs_err)%R
  end.
Proof.
  intros Hmx HV Hex Hov.
  pose proof (binary_round_aux_spec sx mx ex lx V Hmx HV) as Hs.
  cbv zeta in Hs.
  set (E := Z.max ex (fexp prec emax (Zdigits2 mx + ex))) in *.
  assert (HV0 : (0 <= V)%R).
  { pose proof (bpow_pos ex). assert (0 <= IZR mx)%R by (apply IZR_le; lia). nra. }
  assert (HE : (2 * bpow E <= rel_err * V + abs_err)%R).
  { unfold rel_err, abs_err.
    replace (-51) with (-52 + 1) by lia. replace (-1073) with (-1074 + 1) by lia.
    rewrite !bpow_succ.
    enough (bpow E <= bpow (-52) * V + bpow (-1074))%R by lra.
    pose proof (bpow_pos (-52)). pose proof (bpow_pos (-1074)).
    unfold E. eapply Rle_trans; [apply bpow_max |].
    apply Rmax_lub; [exact Hex |].
    rewrite fexp_eq. eapply Rle_trans; [apply bpow_max |].
    apply Rmax_lub; [| nra].
    destruct (Z.eq_dec mx 0) as [-> | Hne].
    - cbn [Zdigits2]. eapply Rle_trans; [| exact Hex]. apply bpow_le. lia.
    - pose proof (mantissa_lower mx ex ltac:(lia)) as Hlow.
      replace (Zdigits2 mx + ex - 53) with (-52 + (Zdigits2 mx - 1 + ex)) by lia.
      rewrite bpow_add. nra. }
  destruct (binary_round_aux prec emax sx mx ex lx) as [s | s | | s m e].
  - destruct Hs as [-> Hs]. split; [reflexivity | lra].
  - destruct Hs as [-> [Hs | Hs]]; split; auto.
  - exact Hs.
  - destruct Hs as [-> Hs]. split; [reflexivity | lra].
Qed.

Lemma iter_xO m d : Z.pos (Pos.iter xO m d) = Z.pos m * 2 ^ Z.pos d.
Proof.
  induction d as [| d IH] using Pos.peano_ind.
  - cbn. lia.
  - rewrite Pos.iter_succ, Pos2Z.inj_xO, IH, Pos2Z.inj_succ, Z.pow_succ_r by lia.
    lia.
Qed.

Lemma shl_align_spec m e e' :
  snd (shl_align m e e') = Z.min e e'
  /\ Z.pos (fst (shl_align m e e')) = Z.pos m * 2 ^ (e - Z.min e e').
Proof.
  unfold shl_align. destruct (e' - e) as [| d | d] eqn:Hd; cbn [fst snd].
  - split; [lia |]. replace (e - Z.min e e') with 0 by lia. lia.
  - split; [lia |]. replace (e - Z.min e e') with 0 by lia. lia.
  - split; [lia |]. rewrite iter_xO. do 2 f_equal. lia.
Qed.

Lemma shl_align_value m e e' :
  (IZR (Z.pos (fst (shl_align m e e'))) * bpow (Z.min e e') =
   IZR (Z.pos m) * bpow e)%R.
Proof.
  destruct (shl_align_spec m e e') as [_ ->].
  rewrite mult_IZR, <- bpow_IZR by lia.
  rewrite Rmult_assoc, <- bpow_add. do 2 f_equal. lia.
Qed.

(** [binary_round]: the mantissa is first lengthened so that rounding
    has its 53 digits to truncate. *)
Lemma binary_round_spec sx m e :
  let V := (IZR (Z.pos m) * bpow e)%R in
  match binary_round prec emax sx m e with
  | S754_nan => False
  | S754_infinity s => s = sx /\ (bpow 1023 <= V)%R
  | S754_zero s => s = sx /\ (Rabs (0 - V) <= rel_err * V + abs_err)%R
  | S754_finite s m' e' =>
      s = sx /\ (Rabs (IZR (Z.pos m') * bpow e' - V) <= rel_err * V + abs_err)%R
  end.
Proof.
  intros V. unfold binary_round.
  set (D := Z.pos (digits2_pos m) + e).
  pose proof (shl_align_spec m e (fexp prec emax D)) as [He' Hm'].
  pose proof (shl_align_value m e (fexp prec emax D)) as Hval.
  destruct (shl_align m e (fexp prec emax D)) as [mz ez].
  cbn [fst snd] in *. subst ez. fold V in Hval.
  pose proof (mantissa_lower (Z.pos m) e ltac:(lia)) as Hlow.
  cbn [Zdigits2] in Hlow. fold D in Hlow. fold V in Hlow.
  pose proof (bpow_pos (Z.min e (fexp prec emax D))) as Hb.
  assert (HV0 : (0 < V)%R).
  { pose proof (bpow_pos (Z.pos (digits2_pos m) - 1 + e)). lra. }
  assert (Hfexp : (bpow (fexp prec emax D) <= bpow (-52) * V + bpow (-1074))%R).
  { pose proof (bpow_pos (-52)). pose proof (bpow_pos (-1074)).
    rewrite fexp_eq. eapply Rle_trans; [apply bpow_max |].
    apply Rmax_lub; [| nra].
    replace (D - 53) with (-52 + (D - 1)) by lia.
    replace (D - 1) with (Z.pos (digits2_pos m) - 1 + e) by (unfold D; lia).
    rewrite bpow_add. nra. }
  apply rounding_error.
  - lia.
  - rewrite Hval. lra.
  - eapply Rle_trans; [| exact Hfexp]. apply bpow_le. lia.
  - intros Hbig. eapply Rle_trans; [| exact Hlow]. apply bpow_le.
    rewrite fexp_eq in Hbig. unfold D in *. lia.
Qed.

Lemma magnitude_pos s m e : (0 < magnitude (S754_finite s m e))%R.
Proof.
  cbn [magnitude]. apply Rmult_lt_0_compat; [apply IZR_lt; lia | apply bpow_pos].
Qed.

Lemma approximates_refl x : SFfinite x -> approximates x (SF2R x).
Proof.
  pose proof (bpow_pos (-51)). pose proof (bpow_pos (-1073)).
  destruct x as [s | s | | s m e]; cbn [SFfinite approximates]; try tauto; intros _.
  - cbn [SF2R magnitude]. rewrite Rabs_R0. unfold rel_err, abs_err. lra.
  - pose proof (magnitude_pos s m e). pose proof (Rabs_pos (SF2R (S754_finite s m e))).
    split; [destruct s; cbn [SF2R]; lra |].
    rewrite Rminus_diag, Rabs_R0. unfold rel_err, abs_err. nra.
Qed.

Lemma approximates_zero s : approximates (S754_zero s) 0.
Proof. exact (approximates_refl (S754_zero s) I). Qed.

(** From the rounding of a magnitude to the rounding of a signed value. *)
Lemma approximates_signed z sx (V : R) :
  (0 < V)%R ->
  match z with
  | S754_nan => False
  | S754_infinity s => s = sx /\ (bpow 1023 <= V)%R
  | S754_zero s => s = sx /\ (Rabs (0 - V) <= rel_err * V + abs_err)%R
  | S754_finite s m e =>
      s = sx /\ (Rabs (IZR (Z.pos m) * bpow e - V) <= rel_err * V + abs_err)%R
  end ->
  approximates z (if sx then - V else V).
Proof.
  intros HV.
  assert (Habs : Rabs (if sx then - V else V) = V).
  { destruct sx; [rewrite Rabs_Ropp |]; apply Rabs_pos_eq; lra. }
  destruct z as [s | s | | s m e]; cbn [approximates]; rewrite ?Habs.
  - intros [_ Hz]. rewrite Rminus_0_l, Rabs_Ropp, Rabs_pos_eq in Hz by lra. exact Hz.
  - tauto.
  - tauto.
  - intros [-> Hz]. split; [destruct sx; lra |].
    destruct sx; cbn [SF2R magnitude]; [| exact Hz].
    replace (- (IZR (Z.pos m) * bpow e) - - V)%R
      with (- (IZR (Z.pos m) * bpow e - V))%R by ring.
    rewrite Rabs_Ropp. exact Hz.
Qed.

Lemma valid_finite s m e :
  valid_binary (S754_finite s m e) = true ->
  -1074 <= e <= 971 /\ (2 ^ 52 <= Z.pos m \/ e = -1074) /\ Z.pos m < 2 ^ 53.
Proof.
  unfold valid_binary, SpecFloat.valid_binary, bounded, canonical_mantissa.
  intros [Hc Hb]%andb_prop. apply Z.eqb_eq in Hc. apply Z.leb_le in Hb.
  change (emax - prec) with 971 in Hb. rewrite fexp_eq in Hc.
  pose proof (digits2_pos_bounds m) as [Hlo Hhi].
  split; [lia |].
  destruct (Z.max_spec (Z.pos (digits2_pos m) + e - 53) (-1074)) as [[_ Hm] | [_ Hm]].
  - split; [right; lia |].
    eapply Z.lt_le_trans; [exact Hhi |]. apply Z.pow_le_mono_r; lia.
  - assert (Hd : Z.pos (digits2_pos m) = 53) by lia.
    rewrite Hd in Hlo, Hhi. split; [left; exact Hlo | exact Hhi].
Qed.

Lemma scaled_unit (M b : R) :
  (bpow 52 <= M -> 0 < b -> b <= bpow (-52) * (M * b))%R.
Proof.
  intros HM Hb.
  assert (H1 : (bpow (-52) * bpow 52 = 1)%R)
    by (rewrite <- bpow_add; reflexivity).
  pose proof (bpow_pos (-52)).
  replace b with (bpow (-52) * (bpow 52 * b))%R at 1
    by (rewrite <- Rmult_assoc, H1; ring).
  apply Rmult_le_compat_l; [lra |]. apply Rmult_le_compat_r; lra.
Qed.

(** ** Multiplication *)
Lemma SFmul_spec x y :
  valid_binary x = true -> valid_binary y = true ->
  SFfinite x -> SFfinite y ->
  approximates (SFmul prec emax x y) (SF2R x * SF2R y).
Proof.
  intros Hvx Hvy Hfx Hfy.
  destruct x as [sx | sx | | sx mx ex]; try contradiction;
    destruct y as [sy | sy | | sy my ey]; try contradiction;
    cbn [SFmul];
    try (replace (SF2R _ * SF2R _)%R with 0%R
           by (cbn [SF2R magnitude]; ring);
         apply approximates_zero).
  apply valid_finite in Hvx as (Hex & Hnx & Hmx), Hvy as (Hey & Hny & Hmy).
  set (V := (IZR (Z.pos (mx * my)) * bpow (ex + ey))%R).
  assert (HVpos : (0 < V)%R).
  { apply Rmult_lt_0_compat; [apply IZR_lt; lia | apply bpow_pos]. }
  replace (SF2R (S754_finite sx mx ex) * SF2R (S754_finite sy my ey))%R
    with (if xorb sx sy then - V else V)%R.
  2:{ unfold V. rewrite Pos2Z.inj_mul, mult_IZR, bpow_add.
      destruct sx, sy; cbn [SF2R magnitude xorb]; ring. }
  apply approximates_signed; [exact HVpos |].
  pose proof (bpow_pos (ex + ey)) as Hb.
  assert (Hone : (1 <= IZR (Z.pos mx))%R /\ (1 <= IZR (Z.pos my))%R)
    by (split; apply IZR_le; lia).
  apply rounding_error.
  - lia.
  - fold V. split; [lra |]. unfold V. lra.
  - (* one unit of the exponent against the product *)
    destruct (Z_le_gt_dec (ex + ey) (-1074)) as [Hsmall | Hbig].
    + pose proof (bpow_le _ _ Hsmall). pose proof (bpow_pos (-52)). nra.
    + assert (Hm : 2 ^ 52 <= Z.pos (mx * my)) by nia.
      apply IZR_le in Hm. rewrite <- bpow_IZR in Hm by lia.
      pose proof (bpow_pos (-1074)).
      pose proof (scaled_unit _ _ Hm Hb) as Hsc. fold V in Hsc. lra.
  - intros Hbig.
    assert (Hm : 2 ^ 52 <= Z.pos (mx * my)) by nia.
    apply IZR_le in Hm. rewrite <- bpow_IZR in Hm by lia.
    assert (bpow 1023 <= bpow 52 * bpow (ex + ey))%R
      by (rewrite <- bpow_add; apply bpow_le; lia).
    assert (bpow 52 * bpow (ex + ey) <= IZR (Z.pos (mx * my)) * bpow (ex + ey))%R
      by (apply Rmult_le_compat_r; lra).
    unfold V. lra.
Qed.

(** An exponent chosen no larger than [fexp t], for a value of at least
    [2^(t-1)], is small against the value. *)
Lemma exponent_bounds e' t (V : R) :
  e' <= fexp prec emax t ->
  (bpow (t - 1) <= V)%R ->
  (bpow e' <= bpow (-52) * V + bpow (-1074))%R
  /\ (971 < e' -> (bpow 1023 <= V)%R).
Proof.
  intros He HV. rewrite fexp_eq in He.
  pose proof (bpow_pos (t - 1)). pose proof (bpow_pos (-52)).
  pose proof (bpow_pos (-1074)).
  split.
  - destruct (Z_le_gt_dec e' (-1074)) as [Hs | Hb].
    + pose proof (bpow_le _ _ Hs). nra.
    + assert (bpow e' <= bpow (-52) * bpow (t - 1))%R
        by (rewrite <- bpow_add; apply bpow_le; lia).
      assert (bpow (-52) * bpow (t - 1) <= bpow (-52) * V)%R
        by (apply Rmult_le_compat_l; lra).
      lra.
  - intros Hbig. eapply Rle_trans; [| exact HV]. apply bpow_le. lia.
Qed.

(** ** Addition *)
Lemma SF2R_aligned s m e ez :
  ez <= e ->
  SF2R (S754_finite s m e) =
    (IZR (cond_Zopp s (Z.pos (fst (shl_align m e ez)))) * bpow ez)%R.
Proof.
  intros Hez. pose proof (shl_align_value m e ez) as Hv.
  rewrite Z.min_r in Hv by lia.
  destruct s; cbn [SF2R magnitude cond_Zopp].
  - rewrite <- Hv, opp_IZR. ring.
  - rewrite <- Hv. reflexivity.
Qed.

Lemma SFadd_spec x y :
  SFfinite x -> SFfinite y ->
  approximates (SFadd prec emax x y) (SF2R x + SF2R y).
Proof.
  intros Hfx Hfy.
  destruct x as [sx | sx | | sx mx ex]; try contradiction;
    destruct y as [sy | sy | | sy my ey]; try contradiction;
    cbn [SFadd].
  - replace (SF2R _ + SF2R _)%R with 0%R by (cbn [SF2R magnitude]; ring).
    destruct sx, sy; apply approximates_zero.
  - replace (SF2R (S754_zero sx) + _)%R with (SF2R (S754_finite sy my ey))
      by (cbn [SF2R magnitude]; ring).
    apply approximates_refl, I.
  - replace (_ + SF2R (S754_zero sy))%R with (SF2R (S754_finite sx mx ex))
      by (cbn [SF2R magnitude]; ring).
    apply approximates_refl, I.
  - set (ez := Z.min ex ey).
    rewrite (SF2R_aligned sx mx ex ez), (SF2R_aligned sy my ey ez) by lia.
    rewrite <- Rmult_plus_distr_r, <- plus_IZR.
    set (msum := cond_Zopp sx _ + cond_Zopp sy _).
    destruct msum as [| m | m]; cbn [binary_normalize].
    + rewrite Rmult_0_l. apply approximates_zero.
    + apply (approximates_signed _ false).
      * apply Rmult_lt_0_compat; [apply IZR_lt; lia | apply bpow_pos].
      * apply binary_round_spec.
    + replace (IZR (Z.neg m) * bpow ez)%R with (- (IZR (Z.pos m) * bpow ez))%R
        by (change (Z.neg m) with (- Z.pos m); rewrite opp_IZR; ring).
      apply (approximates_signed _ true).
      * apply Rmult_lt_0_compat; [apply IZR_lt; lia | apply bpow_pos].
      * apply binary_round_spec.
Qed.

(** ** Square root *)
Lemma SFsqrt_spec x :
  match x with
  | S754_zero _ | S754_finite false _ _ => True
  | _ => False
  end ->
  approximates (SFsqrt prec emax x) (sqrt (SF2R x)).
Proof.
  destruct x as [s | s | | [|] m e]; try contradiction; intros _.
  - cbn [SFsqrt SF2R magnitude]. rewrite sqrt_0. apply approximates_zero.
  - cbn [SFsqrt SF2R]. unfold SFsqrt_core_binary.
    set (d := Zdigits2 (Z.pos m)).
    set (t := Z.div2 (d + e + 1)).
    set (e' := Z.min (fexp prec emax t) (Z.div2 e)).
    set (sh := e - 2 * e').
    assert (Hdiv2e : 2 * Z.div2 e <= e) by (rewrite Z.div2_div; apply Z.mul_div_le; lia).
    assert (Hdiv2t : 2 * t <= d + e + 1)
      by (unfold t; rewrite Z.div2_div; apply Z.mul_div_le; lia).
    assert (Hsh : 0 <= sh) by (unfold sh, e'; lia).
    set (m' := match sh with Z.pos _ => Z.shiftl (Z.pos m) sh | 0 => Z.pos m | Z.neg _ => 0 end).
    assert (Hm' : m' = Z.pos m * 2 ^ sh).
    { unfold m'. destruct sh as [| p | p]; [lia | | lia].
      apply Z.shiftl_mul_pow2. lia. }
    pose proof (Z.sqrtrem_spec m' ltac:(rewrite Hm'; apply Z.mul_nonneg_nonneg; [lia | apply Z.pow_nonneg; lia])) as Hsq.
    destruct (Z.sqrtrem m') as [q r]. destruct Hsq as [Hq Hr].
    set (V := sqrt (magnitude (S754_finite false m e))).
    set (X := magnitude (S754_finite false m e)) in *.
    assert (HX : (0 < X)%R) by apply magnitude_pos.
    assert (HVpos : (0 < V)%R) by (apply sqrt_lt_R0; exact HX).
    assert (HVV : (V * V = X)%R) by (apply sqrt_sqrt; lra).
    (* the value in terms of the lengthened mantissa *)
    assert (HXm : (X = IZR m' * (bpow e' * bpow e'))%R).
    { unfold X. cbn [magnitude]. rewrite Hm', mult_IZR, <- bpow_IZR by lia.
      rewrite <- bpow_add, Rmult_assoc, <- bpow_add. do 2 f_equal. unfold sh. lia. }
    pose proof (bpow_pos e') as Hbe.
    assert (Hq0 : 0 <= q) by nia.
    assert (HqR : (0 <= IZR q)%R) by (apply IZR_le; lia).
    assert (Hlo : (IZR q * IZR q <= IZR m')%R)
      by (rewrite <- mult_IZR; apply IZR_le; lia).
    assert (Hhi : (IZR m' <= (IZR q + 1) * (IZR q + 1))%R)
      by (rewrite <- plus_IZR, <- mult_IZR; apply IZR_le; lia).
    assert (Hbr : (IZR q * bpow e' <= V <= (IZR q + 1) * bpow e')%R).
    { assert (Hbb : (0 < bpow e' * bpow e')%R) by (apply Rmult_lt_0_compat; lra).
      pose proof (Rmult_le_compat_r _ _ _ (Rlt_le _ _ Hbb) Hlo) as Hlo'.
      pose proof (Rmult_le_compat_r _ _ _ (Rlt_le _ _ Hbb) Hhi) as Hhi'.
      split.
      - apply Rnot_lt_le. intros Hc.
        assert (V * V < (IZR q * bpow e') * (IZR q * bpow e'))%R
          by (apply Rmult_le_0_lt_compat; lra).
        lra.
      - apply Rnot_lt_le. intros Hc.
        assert (0 <= (IZR q + 1) * bpow e')%R
          by (apply Rmult_le_pos; lra).
        assert ((IZR q + 1) * bpow e' * ((IZR q + 1) * bpow e') < V * V)%R
          by (apply Rmult_le_0_lt_compat; lra).
        lra. }
    (* the exponent against the value *)
    assert (Hlow : (bpow (t - 1) <= V)%R).
    { pose proof (mantissa_lower (Z.pos m) e ltac:(lia)) as Hl. fold d in Hl.
      cbn [magnitude] in X. fold X in Hl.
      pose proof (bpow_pos (t - 1)).
      assert (bpow (t - 1) * bpow (t - 1) <= X)%R.
      { rewrite <- bpow_add. eapply Rle_trans; [| exact Hl]. apply bpow_le. lia. }
      apply Rnot_lt_le. intros Hc. nra. }
    destruct (exponent_bounds e' t V ltac:(unfold e'; lia) Hlow) as [Hex Hov].
    apply (approximates_signed _ false V HVpos).
    apply rounding_error; assumption.
Qed.

(** ** Division *)
Lemma SFdiv_spec x sy my ey :
  SFfinite x ->
  approximates (SFdiv prec emax x (S754_finite sy my ey))
    (SF2R x / SF2R (S754_finite sy my ey)).
Proof.
  intros Hfx.
  pose proof (magnitude_pos sy my ey) as HY.
  destruct x as [sx | sx | | sx mx ex]; try contradiction; cbn [SFdiv].
  - replace (SF2R (S754_zero sx) / _)%R with 0%R
      by (cbn [SF2R magnitude]; unfold Rdiv; ring).
    apply approximates_zero.
  - pose proof (magnitude_pos sx mx ex) as HX.
    unfold SFdiv_core_binary.
    set (d1 := Zdigits2 (Z.pos mx)). set (d2 := Zdigits2 (Z.pos my)).
    set (t := d1 + ex - (d2 + ey)).
    set (e' := Z.min (fexp prec emax t) (ex - ey)).
    set (sh := ex - ey - e').
    assert (Hsh : 0 <= sh) by (unfold sh, e'; lia).
    set (m' := match sh with Z.pos _ => Z.shiftl (Z.pos mx) sh | 0 => Z.pos mx | Z.neg _ => 0 end).
    assert (Hm' : m' = Z.pos mx * 2 ^ sh).
    { unfold m'. destruct sh as [| p | p]; [lia | | lia].
      apply Z.shiftl_mul_pow2. lia. }
    assert (Hm'0 : 0 <= m')
      by (rewrite Hm'; apply Z.mul_nonneg_nonneg; [lia | apply Z.pow_nonneg; lia]).
    pose proof (Z_div_mod m' (Z.pos my) ltac:(lia)) as Hdm.
    destruct (Z.div_eucl m' (Z.pos my)) as [q r]. destruct Hdm as [Hq Hr].
    set (X := magnitude (S754_finite sx mx ex)) in *.
    set (Y := magnitude (S754_finite sy my ey)) in *.
    set (V := (X / Y)%R).
    assert (HVpos : (0 < V)%R) by (apply Rdiv_lt_0_compat; assumption).
    replace (SF2R (S754_finite sx mx ex) / SF2R (S754_finite sy my ey))%R
      with (if xorb sx sy then - V else V)%R.
    2:{ unfold V. destruct sx, sy; cbn [SF2R xorb]; fold X Y; field; lra. }
    pose proof (bpow_pos e') as Hbe. pose proof (bpow_pos ey) as Hbey.
    assert (HmyR : (0 < IZR (Z.pos my))%R) by (apply IZR_lt; lia).
    (* the value in terms of the lengthened mantissa *)
    assert (HVm : (V * IZR (Z.pos my) = IZR m' * bpow e')%R).
    { unfold V, X, Y. cbn [magnitude].
      rewrite Hm', mult_IZR, <- bpow_IZR by lia.
      replace ex with (sh + e' + ey) at 1 by (unfold sh; lia).
      rewrite !bpow_add. field. split; lra. }
    assert (Hq0 : 0 <= q) by nia.
    assert (Hlo : (IZR q * IZR (Z.pos my) <= IZR m')%R)
      by (rewrite <- mult_IZR; apply IZR_le; lia).
    assert (Hhi : (IZR m' <= (IZR q + 1) * IZR (Z.pos my))%R)
      by (rewrite <- plus_IZR, <- mult_IZR; apply IZR_le; lia).
    assert (Hbr : (IZR q * bpow e' <= V <= (IZR q + 1) * bpow e')%R).
    { pose proof (Rmult_le_compat_r _ _ _ (Rlt_le _ _ Hbe) Hlo) as Hlo'.
      pose proof (Rmult_le_compat_r _ _ _ (Rlt_le _ _ Hbe) Hhi) as Hhi'.
      split; apply (Rmult_le_reg_r (IZR (Z.pos my))); lra. }
    (* the exponent against the value *)
    assert (Hlow : (bpow (t - 1) <= V)%R).
    { pose proof (mantissa_lower (Z.pos mx) ex ltac:(lia)) as Hl.
      pose proof (mantissa_upper (Z.pos my) ey ltac:(lia)) as Hu.
      fold d1 in Hl. fold d2 in Hu. cbn [magnitude] in X, Y. fold X in Hl. fold Y in Hu.
      pose proof (bpow_pos (t - 1)) as Hbt.
      assert (Hsplit : (bpow (t - 1) * bpow (d2 + ey) = bpow (d1 - 1 + ex))%R).
      { rewrite <- bpow_add. f_equal. unfold t. lia. }
      apply (Rmult_le_reg_r Y); [exact HY |].
      replace (V * Y)%R with X by (unfold V; field; lra).
      assert (bpow (t - 1) * Y <= bpow (t - 1) * bpow (d2 + ey))%R
        by (apply Rmult_le_compat_l; lra).
      lra. }
    destruct (exponent_bounds e' t V ltac:(unfold e'; lia) Hlow) as [Hex Hov].
    apply (approximates_signed _ (xorb sx sy) V HVpos).
    apply rounding_error; assumption.
Qed.

(** ** What is finite came from what was finite *)
Lemma SFmul_finite x y :
  SFfinite (SFmul prec emax x y) -> SFfinite x /\ SFfinite y.
Proof.
  destruct x as [sx | sx | | sx mx ex], y as [sy | sy | | sy my ey];
    cbn [SFmul SFfinite]; tauto.
Qed.

Lemma SFadd_finite x y :
  SFfinite (SFadd prec emax x y) -> SFfinite x /\ SFfinite y.
Proof.
  destruct x as [sx | sx | | sx mx ex], y as [sy | sy | | sy my ey];
    cbn [SFadd SFfinite]; try tauto; destruct sx, sy; cbn [SFfinite]; tauto.
Qed.

(** What approximates a value within the finite range is finite. *)
Lemma approximates_finite z (V : R) :
  approximates z V -> (Rabs V < bpow 1023)%R -> SFfinite z.
Proof.
  destruct z as [s | s | | s m e]; cbn [approximates SFfinite]; try tauto.
  lra.
Qed.

Lemma approximates_error z (V : R) :
  approximates z V -> SFfinite z ->
  (Rabs (SF2R z - V) <= rel_err * Rabs V + abs_err)%R.
Proof.
  destruct z as [s | s | | s m e]; cbn [approximates SFfinite]; try tauto.
  intros Hz _. cbn [SF2R magnitude]. rewrite Rminus_0_l, Rabs_Ropp. exact Hz.
Qed.

(** ** Comparison *)
Lemma SFltb_false x my ey :
  valid_binary x = true ->
  valid_binary (S754_finite false my ey) = true ->
  SFfinite x ->
  SFltb (SFabs x) (S754_finite false my ey) = false ->
  (magnitude (S754_finite false my ey) <= magnitude x)%R.
Proof.
  intros Hvx Hvy Hfx.
  destruct x as [sx | sx | | sx mx ex]; try contradiction;
    unfold SFltb; cbn [SFabs SFcompare]; [discriminate |].
  apply valid_finite in Hvx as (Hex & Hnx & Hmx), Hvy as (Hey & Hny & Hmy).
  cbn [magnitude].
  pose proof (bpow_pos ex) as Hbx. pose proof (bpow_pos ey) as Hby.
  destruct (Z.compare_spec ex ey) as [-> | Hlt | Hgt]; [| discriminate |].
  - rewrite Pos.compare_cont_spec. unfold Pos.switch_Eq.
    destruct (Pos.compare_spec mx my) as [-> | Hlt | Hgt];
      try discriminate; intros _.
    + lra.
    + apply Rmult_le_compat_r; [lra |]. apply IZR_le. lia.
  - intros _.
    assert (Hmx52 : 2 ^ 52 <= Z.pos mx) by lia.
    apply IZR_le in Hmx52. apply IZR_lt in Hmy.
    rewrite <- bpow_IZR in Hmx52, Hmy by lia.
    assert (bpow (ey + 1) <= bpow ex)%R by (apply bpow_le; lia).
    rewrite bpow_succ in *.
    assert (Hb53 : bpow 53 = (2 * bpow 52)%R) by (rewrite <- bpow_succ; reflexivity).
    assert (IZR (Z.pos my) * bpow ey <= bpow 53 * bpow ey)%R
      by (apply Rmult_le_compat_r; lra).
    assert (bpow 52 * bpow ex <= IZR (Z.pos mx) * bpow ex)%R
      by (apply Rmult_le_compat_r; lra).
    pose proof (bpow_pos 52). nra.
Qed.

End Rounding.

(** ** The errors of a chain of operations *)

Section ErrorAnalysis.
Import Double.
Local Open Scope R_scope.

Local Abbreviation u := rel_err.
Local Abbreviation eta := abs_err.

Lemma Rabs_le_inv (a b : R) : Rabs a <= b -> - b <= a <= b.
Proof. unfold Rabs. destruct (Rcase_abs a); lra. Qed.

Lemma bpow_neg k : (0 <= k)%Z -> bpow (- k) = / IZR (2 ^ k).
Proof.
  intros Hk.
  assert (H : bpow (- k) * bpow k = 1).
  { rewrite <- bpow_add. replace (- k + k)%Z with 0%Z by lia. reflexivity. }
  pose proof (bpow_pos k) as Hp. rewrite (bpow_IZR k) in H, Hp by assumption.
  apply (Rmult_eq_reg_r (IZR (2 ^ k))); [| lra].
  rewrite H. field. lra.
Qed.

Lemma u_pos : 0 < u.
Proof. apply bpow_pos. Qed.

Lemma u_small : u <= / 1000000000000000.
Proof.
  unfold rel_err. change (-51)%Z with (Z.opp 51). rewrite (bpow_neg 51) by lia.
  change (2 ^ 51)%Z with 2251799813685248%Z. lra.
Qed.

Lemma eta_pos : 0 < eta.
Proof. apply bpow_pos. Qed.

Lemma eta_u : eta = u * bpow (-1022).
Proof. unfold rel_err, abs_err. rewrite <- bpow_add. reflexivity. Qed.

Lemma bpow_small k : (10 <= k)%Z -> bpow (- k) <= / 1000.
Proof.
  intros Hk. eapply Rle_trans; [apply (bpow_le _ (-10)); lia |].
  change (-10)%Z with (Z.opp 10). rewrite (bpow_neg 10) by lia. change (2 ^ 10)%Z with 1024%Z. lra.
Qed.

Lemma eta_small : eta <= u / 1000.
Proof.
  rewrite eta_u. pose proof u_pos.
  apply Rmult_le_compat_l; [lra |]. exact (bpow_small 1022 ltac:(lia)).
Qed.

Lemma bpow_1023_big : 1024 <= bpow 1023.
Proof.
  replace 1024 with (bpow 10) by (rewrite bpow_IZR by lia; reflexivity).
  apply bpow_le. lia.
Qed.

(** One more rounded operation after [y], which stood for [A]. *)
Lemma step (c k A y x : R) :
  0 <= A -> 0 <= c -> c * u <= 1 -> 0 <= k ->
  Rabs (y - A) <= c * u * A + k * eta ->
  Rabs (x - y) <= u * Rabs y + eta ->
  Rabs (x - A) <= (c + 2) * u * A + (2 * k + 1) * eta.
Proof.
  intros HA Hc Hcu Hk Hy Hx.
  pose proof u_pos. pose proof u_small. pose proof eta_pos.
  apply Rabs_le_inv in Hy.
  assert (Hay : Rabs y <= (1 + c * u) * A + k * eta).
  { apply Rabs_le. nra. }
  apply Rabs_le_inv in Hx.
  assert (Hcuu : c * u * u * A <= u * A).
  { assert (0 <= u * A) by nra. nra. }
  assert (Hku : u * (k * eta) <= k * eta) by (assert (0 <= k * eta) by nra; nra).
  apply Rabs_le. nra.
Qed.

Lemma sum_error (a1 a2 a3 a4 p1 p2 p3 p4 s1 s2 s3 : R) :
  0 <= a1 -> 0 <= a2 -> 0 <= a3 -> 0 <= a4 ->
  Rabs (p1 - a1) <= u * Rabs a1 + eta ->
  Rabs (p2 - a2) <= u * Rabs a2 + eta ->
  Rabs (p3 - a3) <= u * Rabs a3 + eta ->
  Rabs (p4 - a4) <= u * Rabs a4 + eta ->
  Rabs (s1 - (p1 + p2)) <= u * Rabs (p1 + p2) + eta ->
  Rabs (s2 - (s1 + p3)) <= u * Rabs (s1 + p3) + eta ->
  Rabs (s3 - (s2 + p4)) <= u * Rabs (s2 + p4) + eta ->
  Rabs (s1 - (a1 + a2)) <= 3 * u * (a1 + a2) + 5 * eta
  /\ Rabs (s2 - (a1 + a2 + a3)) <= 5 * u * (a1 + a2 + a3) + 13 * eta
  /\ Rabs (s3 - (a1 + a2 + a3 + a4)) <= 7 * u * (a1 + a2 + a3 + a4) + 29 * eta.
Proof.
  intros H1 H2 H3 H4 Hp1 Hp2 Hp3 Hp4 Hs1 Hs2 Hs3.
  pose proof u_pos. pose proof u_small. pose proof eta_pos.
  rewrite (Rabs_pos_eq a1) in Hp1 by assumption.
  rewrite (Rabs_pos_eq a2) in Hp2 by assumption.
  rewrite (Rabs_pos_eq a3) in Hp3 by assumption.
  rewrite (Rabs_pos_eq a4) in Hp4 by assumption.
  apply Rabs_le_inv in Hp1, Hp2, Hp3, Hp4.
  assert (Hq1 : Rabs (p1 + p2 - (a1 + a2)) <= 1 * u * (a1 + a2) + 2 * eta)
    by (apply Rabs_le; lra).
  pose proof (step 1 2 (a1 + a2) (p1 + p2) s1 ltac:(lra) ltac:(lra) ltac:(lra) ltac:(lra) Hq1 Hs1) as Ht1.
  replace ((1 + 2) * u * (a1 + a2) + (2 * 2 + 1) * eta)
    with (3 * u * (a1 + a2) + 5 * eta) in Ht1 by ring.
  split; [exact Ht1 |].
  assert (Hq2 : Rabs (s1 + p3 - (a1 + a2 + a3)) <= 3 * u * (a1 + a2 + a3) + 6 * eta).
  { apply Rabs_le_inv in Ht1. apply Rabs_le. nra. }
  pose proof (step 3 6 (a1 + a2 + a3) (s1 + p3) s2 ltac:(lra) ltac:(lra) ltac:(lra) ltac:(lra) Hq2 Hs2) as Ht2.
  replace ((3 + 2) * u * (a1 + a2 + a3) + (2 * 6 + 1) * eta)
    with (5 * u * (a1 + a2 + a3) + 13 * eta) in Ht2 by ring.
  split; [exact Ht2 |].
  assert (Hq3 : Rabs (s2 + p4 - (a1 + a2 + a3 + a4)) <=
                5 * u * (a1 + a2 + a3 + a4) + 14 * eta).
  { apply Rabs_le_inv in Ht2. apply Rabs_le. nra. }
  pose proof (step 5 14 (a1 + a2 + a3 + a4) (s2 + p4) s3 ltac:(lra) ltac:(lra) ltac:(lra) ltac:(lra) Hq3 Hs3) as Ht3.
  replace ((5 + 2) * u * (a1 + a2 + a3 + a4) + (2 * 14 + 1) * eta)
    with (7 * u * (a1 + a2 + a3 + a4) + 29 * eta) in Ht3 by ring.
  exact Ht3.
Qed.

(** The square root of a relative approximation. *)
Lemma sqrt_error (g S s : R) :
  0 <= S -> 0 <= g <= 1 ->
  Rabs (s - S) <= g * S ->
  Rabs (sqrt s - sqrt S) <= g * sqrt S.
Proof.
  intros HS Hg Hs. apply Rabs_le_inv in Hs.
  pose proof (sqrt_pos S) as HN.
  pose proof (sqrt_sqrt S HS) as HNN.
  set (N := sqrt S) in *.
  assert (Hs0 : 0 <= s) by nra.
  apply Rabs_le. split.
  - enough ((1 - g) * N <= sqrt s) by lra.
    assert (H0 : 0 <= (1 - g) * N) by (apply Rmult_le_pos; lra).
    rewrite <- (sqrt_square ((1 - g) * N)) by exact H0.
    assert (H1 : (1 - g) * (1 - g) * S <= (1 - g) * S)
      by (apply Rmult_le_compat_r; nra).
    apply sqrt_le_1; [apply Rmult_le_pos; exact H0 | exact Hs0 |].
    replace ((1 - g) * N * ((1 - g) * N)) with ((1 - g) * (1 - g) * S)
      by (rewrite <- HNN; ring).
    lra.
  - enough (sqrt s <= (1 + g) * N) by lra.
    assert (H0 : 0 <= (1 + g) * N) by (apply Rmult_le_pos; lra).
    rewrite <- (sqrt_square ((1 + g) * N)) by exact H0.
    assert (H1 : (1 + g) * S <= (1 + g) * (1 + g) * S)
      by (apply Rmult_le_compat_r; nra).
    apply sqrt_le_1; [exact Hs0 | apply Rmult_le_pos; exact H0 |].
    replace ((1 + g) * N * ((1 + g) * N)) with ((1 + g) * (1 + g) * S)
      by (rewrite <- HNN; ring).
    lra.
Qed.

(** The reciprocal of a relative approximation. *)
Lemma inv_error (g N L : R) :
  0 < N -> 0 <= g <= / 2 ->
  Rabs (L - N) <= g * N ->
  0 < L /\ Rabs (/ L - / N) <= 2 * g * / N.
Proof.
  intros HN Hg HL. apply Rabs_le_inv in HL.
  assert (HLpos : 0 < L) by nra.
  split; [exact HLpos |].
  assert (HiN : 0 < / N) by (apply Rinv_0_lt_compat; exact HN).
  assert (HiL : 0 < / L) by (apply Rinv_0_lt_compat; exact HLpos).
  assert (HLL : L * / L = 1) by (field; lra).
  assert (HNN : N * / N = 1) by (field; lra).
  replace (/ L - / N) with ((N - L) * (/ L * / N)) by (field; lra).
  assert (HiLb : / L <= 2 * / N).
  { apply (Rmult_le_reg_l L); [exact HLpos |]. rewrite HLL.
    assert (N <= 2 * L) by nra.
    replace (L * (2 * / N)) with (2 * L * / N) by ring.
    apply (Rmult_le_reg_r N); [exact HN |].
    rewrite Rmult_assoc, (Rmult_comm (/ N)), HNN. lra. }
  rewrite Rabs_mult, (Rabs_pos_eq (/ L * / N)) by nra.
  assert (Rabs (N - L) <= g * N) by (apply Rabs_le; lra).
  assert (0 <= Rabs (N - L)) by apply Rabs_pos.
  assert (Rabs (N - L) * (/ L * / N) <= g * N * (/ L * / N)).
  { apply Rmult_le_compat_r; nra. }
  replace (g * N * (/ L * / N)) with (g * / L * (N * / N)) in * by ring.
  rewrite HNN in *. nra.
Qed.

End ErrorAnalysis.

(** ** The operations of [float] *)

Section Binary64Values.
Import Double.
Local Open Scope R_scope.
Local Abbreviation u := rel_err.
Local Abbreviation eta := abs_err.

Lemma is_finite_spec x : is_finite x = true <-> finite x.
Proof.
  unfold is_finite, is_nan, is_infinity, finite.
  rewrite !FloatAxioms.eqb_spec, abs_spec.
  change (Prim2SF infinity) with (S754_infinity false).
  destruct (Prim2SF x) as [s | s | | s m e]; unfold SFeqb;
    cbn [SFabs SFcompare SFfinite negb orb].
  - tauto.
  - destruct s; cbn; split; (discriminate || tauto).
  - cbn. split; (discriminate || tauto).
  - rewrite Z.compare_refl, Pos.compare_cont_refl.
    destruct s; cbn; tauto.
Qed.

(** What an approximation says of a finite result. *)
Lemma approximates_use z (V : R) :
  approximates z V -> SFfinite z ->
  Rabs (SF2R z - V) <= u * Rabs V + eta /\ (0 <= V -> 0 <= SF2R z).
Proof.
  intros Ha Hf. split; [apply approximates_error; assumption |].
  intros HV. destruct z as [s | s | | [|] m e]; cbn [approximates SF2R] in *;
    try contradiction; try (cbn [magnitude]; lra).
  pose proof (magnitude_pos false m e). lra.
Qed.

Lemma mul_approx x y :
  finite x -> finite y -> approximates (Prim2SF (x * y)) (value x * value y).
Proof.
  intros Hx Hy. rewrite mul_spec.
  apply SFmul_spec; auto using Prim2SF_valid.
Qed.

Lemma add_approx x y :
  finite x -> finite y -> approximates (Prim2SF (x + y)) (value x + value y).
Proof. intros Hx Hy. rewrite add_spec. apply SFadd_spec; assumption. Qed.

Lemma sqrt_approx x :
  finite x -> 0 <= value x ->
  approximates (Prim2SF (PrimFloat.sqrt x)) (sqrt (value x)).
Proof.
  unfold finite, value. intros Hx H0. rewrite sqrt_spec.
  apply SFsqrt_spec.
  destruct (Prim2SF x) as [s | s | | [|] m e]; try tauto.
  pose proof (magnitude_pos true m e). cbn [SF2R] in H0. lra.
Qed.

Lemma div_approx x y :
  finite x -> finite y -> value y <> 0 ->
  approximates (Prim2SF (x / y)) (value x / value y).
Proof.
  unfold finite, value. intros Hx Hy H0. rewrite div_spec.
  destruct (Prim2SF y) as [s | s | | s m e]; try contradiction.
  apply SFdiv_spec. exact Hx.
Qed.

Lemma mul_finite x y : finite (x * y) -> finite x /\ finite y.
Proof. unfold finite. rewrite mul_spec. apply SFmul_finite. Qed.

Lemma add_finite x y : finite (x + y) -> finite x /\ finite y.
Proof. unfold finite. rewrite add_spec. apply SFadd_finite. Qed.

Lemma sqrt_finite x : finite (PrimFloat.sqrt x) -> finite x /\ 0 <= value x.
Proof.
  unfold finite, value. rewrite sqrt_spec. unfold SF64sqrt.
  destruct (Prim2SF x) as [s | [|] | | [|] m e]; cbn [SFsqrt SFfinite]; try tauto;
    intros _; (split; [exact I |]); cbn [SF2R magnitude]; try lra.
  apply Rlt_le, (magnitude_pos false m e).
Qed.

(** A finite double is below 2^1024. *)
Lemma value_bound x : finite x -> Rabs (value x) < bpow 1024.
Proof.
  unfold finite, value. pose proof (Prim2SF_valid x) as Hv.
  destruct (Prim2SF x) as [s | s | | s m e]; try contradiction; intros _.
  - cbn [SF2R magnitude]. rewrite Rabs_R0. apply bpow_pos.
  - apply valid_finite in Hv as (He & _ & Hm).
    pose proof (magnitude_pos s m e) as Hpos.
    replace (Rabs (SF2R (S754_finite s m e))) with (magnitude (S754_finite s m e))
      by (destruct s; cbn [SF2R]; [rewrite Rabs_Ropp |]; rewrite Rabs_pos_eq; lra).
    cbn [magnitude]. apply IZR_lt in Hm. rewrite <- bpow_IZR in Hm by lia.
    pose proof (bpow_pos e) as Hbe.
    assert (IZR (Z.pos m) * bpow e < bpow 53 * bpow e)
      by (apply Rmult_lt_compat_r; lra).
    assert (bpow 53 * bpow e <= bpow 1024)
      by (rewrite <- bpow_add; apply bpow_le; lia).
    lra.
Qed.

(** The comparison with a positive double. *)
Lemma ltb_abs_false x y :
  finite x -> 0 <= value x ->
  match Prim2SF y with S754_finite false _ _ => True | _ => False end ->
  (abs x <? y)%float = false ->
  value y <= value x.
Proof.
  unfold finite, value. intros Hx H0 Hy.
  rewrite ltb_spec, abs_spec.
  pose proof (Prim2SF_valid x) as Hvx. pose proof (Prim2SF_valid y) as Hvy.
  destruct (Prim2SF y) as [sy | sy | | [|] my ey]; try contradiction.
  intros Hlt. pose proof (SFltb_false _ my ey Hvx Hvy Hx Hlt) as Hm.
  destruct (Prim2SF x) as [s | s | | [|] m e]; try contradiction;
    cbn [SF2R] in *; lra.
Qed.

End Binary64Values.

(** ** The squared norm *)

Section SumOfSquares.
Import Double.
Local Open Scope R_scope.
Local Abbreviation u := rel_err.
Local Abbreviation eta := abs_err.

Lemma square_nonneg (x : R) : 0 <= x * x.
Proof. apply Rle_0_sqr. Qed.

(** A rounded operation on a value of at most [B] errs by [B/500] at most. *)
Lemma error_le (V z B : R) :
  Rabs V <= B -> 1 <= B ->
  Rabs (z - V) <= u * Rabs V + eta ->
  Rabs (z - V) <= B / 500.
Proof.
  intros HV HB Hz.
  pose proof u_pos. pose proof u_small. pose proof eta_pos. pose proof eta_small.
  pose proof (Rabs_pos V).
  assert (u * Rabs V <= / 1000000000000000 * B) by (apply Rmult_le_compat; lra).
  lra.
Qed.

Lemma squared_norm_finite w i j k :
  finite (squared_norm w i j k) ->
  (finite w /\ finite i /\ finite j /\ finite k)
  /\ (finite (w * w) /\ finite (i * i) /\ finite (j * j) /\ finite (k * k))
  /\ finite (w * w + i * i) /\ finite (w * w + i * i + j * j).
Proof.
  unfold squared_norm. intros Hs.
  apply add_finite in Hs as [Hs2 Hpk].
  pose proof Hs2 as Hs2'. apply add_finite in Hs2' as [Hs1 Hpj].
  pose proof Hs1 as Hs1'. apply add_finite in Hs1' as [Hpw Hpi].
  pose proof (mul_finite _ _ Hpw) as [Hw _].
  pose proof (mul_finite _ _ Hpi) as [Hi _].
  pose proof (mul_finite _ _ Hpj) as [Hj _].
  pose proof (mul_finite _ _ Hpk) as [Hk _].
  tauto.
Qed.

Lemma squared_norm_error w i j k :
  finite (squared_norm w i j k) ->
  0 <= value (squared_norm w i j k)
  /\ Rabs (value (squared_norm w i j k) - norm2 w i j k)
     <= 7 * u * norm2 w i j k + 29 * eta.
Proof.
  intros Hs.
  destruct (squared_norm_finite w i j k Hs)
    as ((Hw & Hi & Hj & Hk) & (Hpw & Hpi & Hpj & Hpk) & Hs1 & Hs2).
  unfold squared_norm in *. unfold norm2.
  destruct (approximates_use _ _ (mul_approx w w Hw Hw) Hpw) as [Ew Nw].
  destruct (approximates_use _ _ (mul_approx i i Hi Hi) Hpi) as [Ei Ni].
  destruct (approximates_use _ _ (mul_approx j j Hj Hj) Hpj) as [Ej Nj].
  destruct (approximates_use _ _ (mul_approx k k Hk Hk) Hpk) as [Ek Nk].
  destruct (approximates_use _ _ (add_approx _ _ Hpw Hpi) Hs1) as [E1 N1].
  destruct (approximates_use _ _ (add_approx _ _ Hs1 Hpj) Hs2) as [E2 N2].
  destruct (approximates_use _ _ (add_approx _ _ Hs2 Hpk) Hs) as [E3 N3].
  fold (value (w * w)) (value (i * i)) (value (j * j)) (value (k * k))
       (value (w * w + i * i)) (value (w * w + i * i + j * j))
       (value (w * w + i * i + j * j + k * k)) in *.
  assert (Aw : 0 <= value w * value w) by apply square_nonneg.
  assert (Ai : 0 <= value i * value i) by apply square_nonneg.
  assert (Aj : 0 <= value j * value j) by apply square_nonneg.
  assert (Ak : 0 <= value k * value k) by apply square_nonneg.
  specialize (Nw Aw). specialize (Ni Ai). specialize (Nj Aj). specialize (Nk Ak).
  specialize (N1 ltac:(lra)). specialize (N2 ltac:(lra)). specialize (N3 ltac:(lra)).
  split; [exact N3 |].
  apply (sum_error _ _ _ _ _ _ _ _ _ _ _ Aw Ai Aj Ak Ew Ei Ej Ek E1 E2 E3).
Qed.

(** A quaternion of squared norm at most 4 has a finite computed squared
    norm. *)
Lemma squared_norm_small w i j k :
  finite w -> finite i -> finite j -> finite k ->
  norm2 w i j k <= 4 ->
  finite (squared_norm w i j k).
Proof.
  intros Hw Hi Hj Hk HS. unfold norm2 in HS. unfold squared_norm.
  pose proof u_pos. pose proof u_small. pose proof eta_pos. pose proof eta_small.
  pose proof bpow_1023_big as Hbig.
  assert (Aw : 0 <= value w * value w) by apply square_nonneg.
  assert (Ai : 0 <= value i * value i) by apply square_nonneg.
  assert (Aj : 0 <= value j * value j) by apply square_nonneg.
  assert (Ak : 0 <= value k * value k) by apply square_nonneg.
  assert (Hpw : finite (w * w)).
  { apply (approximates_finite _ _ (mul_approx w w Hw Hw)).
    rewrite Rabs_pos_eq by assumption. lra. }
  assert (Hpi : finite (i * i)).
  { apply (approximates_finite _ _ (mul_approx i i Hi Hi)).
    rewrite Rabs_pos_eq by assumption. lra. }
  assert (Hpj : finite (j * j)).
  { apply (approximates_finite _ _ (mul_approx j j Hj Hj)).
    rewrite Rabs_pos_eq by assumption. lra. }
  assert (Hpk : finite (k * k)).
  { apply (approximates_finite _ _ (mul_approx k k Hk Hk)).
    rewrite Rabs_pos_eq by assumption. lra. }
  destruct (approximates_use _ _ (mul_approx w w Hw Hw) Hpw) as [Ew Nw].
  destruct (approximates_use _ _ (mul_approx i i Hi Hi) Hpi) as [Ei Ni].
  destruct (approximates_use _ _ (mul_approx j j Hj Hj) Hpj) as [Ej Nj].
  destruct (approximates_use _ _ (mul_approx k k Hk Hk) Hpk) as [Ek Nk].
  fold (value (w * w)) (value (i * i)) (value (j * j)) (value (k * k)) in *.
  specialize (Nw Aw). specialize (Ni Ai). specialize (Nj Aj). specialize (Nk Ak).
  apply (error_le _ _ 4) in Ew, Ei, Ej, Ek;
    try lra; try (rewrite Rabs_pos_eq by assumption; lra).
  apply Rabs_le_inv in Ew, Ei, Ej, Ek.
  assert (Hs1 : finite (w * w + i * i)).
  { apply (approximates_finite _ _ (add_approx _ _ Hpw Hpi)).
    rewrite Rabs_pos_eq by lra. lra. }
  destruct (approximates_use _ _ (add_approx _ _ Hpw Hpi) Hs1) as [E1 N1].
  fold (value (w * w + i * i)) in *. specialize (N1 ltac:(lra)).
  apply (error_le _ _ 10) in E1; [| rewrite Rabs_pos_eq by lra; lra | lra].
  apply Rabs_le_inv in E1.
  assert (Hs2 : finite (w * w + i * i + j * j)).
  { apply (approximates_finite _ _ (add_approx _ _ Hs1 Hpj)).
    rewrite Rabs_pos_eq by lra. lra. }
  destruct (approximates_use _ _ (add_approx _ _ Hs1 Hpj) Hs2) as [E2 N2].
  fold (value (w * w + i * i + j * j)) in *. specialize (N2 ltac:(lra)).
  apply (error_le _ _ 20) in E2; [| rewrite Rabs_pos_eq by lra; lra | lra].
  apply Rabs_le_inv in E2.
  apply (approximates_finite _ _ (add_approx _ _ Hs2 Hpk)).
  rewrite Rabs_pos_eq by lra. lra.
Qed.

End SumOfSquares.

(** ** From the squared norm to the unit quaternion *)

Section UnitLength.
Import Double.
Local Open Scope R_scope.
Local Abbreviation u := rel_err.
Local Abbreviation eta := abs_err.

Lemma bpow_double a b : (b = a + 1)%Z -> bpow a + bpow a = bpow b.
Proof. intros ->. rewrite bpow_succ. ring. Qed.

Lemma bpow_square a : bpow a * bpow a = bpow (2 * a).
Proof. rewrite <- bpow_add. f_equal. lia. Qed.

Lemma sqrt_bpow a : sqrt (bpow (2 * a)) = bpow a.
Proof.
  rewrite <- bpow_square. apply sqrt_square. apply Rlt_le, bpow_pos.
Qed.

Lemma eta_le k : (-1000 <= k)%Z -> 64 * eta <= bpow k.
Proof.
  intros Hk. unfold abs_err.
  replace 64 with (bpow 6) by (rewrite bpow_IZR by lia; reflexivity).
  rewrite <- bpow_add. apply bpow_le. lia.
Qed.

(** A computed length of at least 2^-34 comes from a squared norm of at
    least 2^-82. *)
Lemma norm2_lower (S Vs L : R) :
  0 <= S -> 0 <= Vs ->
  Rabs (Vs - S) <= 7 * u * S + 29 * eta ->
  Rabs (L - sqrt Vs) <= u * Rabs (sqrt Vs) + eta ->
  bpow (-34) <= L ->
  bpow (-82) <= S.
Proof.
  intros HS HVs Hs HL Heps.
  apply Rnot_lt_le. intros Hc.
  pose proof u_pos. pose proof u_small.
  pose proof (eta_le (-81) ltac:(lia)) as He81.
  pose proof eta_pos.
  apply Rabs_le_inv in Hs.
  assert (HuS : 7 * u * S <= S).
  { replace S with (1 * S) at 2 by ring. apply Rmult_le_compat_r; lra. }
  pose proof (bpow_double (-82) (-81) ltac:(lia)) as H82.
  pose proof (bpow_double (-81) (-80) ltac:(lia)) as H81.
  assert (HVs80 : Vs <= bpow (2 * -40)).
  { change (2 * -40)%Z with (-80)%Z. lra. }
  pose proof (sqrt_le_1 _ _ HVs (Rlt_le _ _ (bpow_pos (2 * -40))) HVs80) as Hsq.
  rewrite sqrt_bpow in Hsq.
  pose proof (sqrt_pos Vs) as Hsq0.
  rewrite (Rabs_pos_eq (sqrt Vs)) in HL by exact Hsq0.
  apply Rabs_le_inv in HL.
  assert (HuV : u * sqrt Vs <= sqrt Vs).
  { replace (sqrt Vs) with (1 * sqrt Vs) at 2 by ring.
    apply Rmult_le_compat_r; lra. }
  pose proof (eta_le (-40) ltac:(lia)) as He40.
  pose proof (bpow_double (-40) (-39) ltac:(lia)) as H40.
  pose proof (bpow_double (-39) (-38) ltac:(lia)) as H39.
  assert (bpow (-38) <= bpow (-35)) by (apply bpow_le; lia).
  pose proof (bpow_double (-35) (-34) ltac:(lia)) as H35.
  pose proof (bpow_pos (-35)).
  lra.
Qed.

(** The computed length against the norm. *)
Lemma length_error (S Vs L : R) :
  bpow (-82) <= S -> 0 <= Vs ->
  Rabs (Vs - S) <= 7 * u * S + 29 * eta ->
  Rabs (L - sqrt Vs) <= u * Rabs (sqrt Vs) + eta ->
  bpow (-41) <= sqrt S /\ Rabs (L - sqrt S) <= 11 * u * sqrt S.
Proof.
  intros HS HVs Hs HL.
  pose proof u_pos. pose proof u_small. pose proof eta_pos.
  pose proof (bpow_pos (-82)) as Hb82.
  assert (HS0 : 0 <= S) by lra.
  assert (HN : bpow (-41) <= sqrt S).
  { rewrite <- (sqrt_bpow (-41)). apply sqrt_le_1; [| exact HS0 |].
    - apply Rlt_le, bpow_pos.
    - exact HS. }
  split; [exact HN |].
  (* the absolute errors are small against S and against its root *)
  assert (Heta : eta = u * bpow (-1022)) by apply eta_u.
  assert (H29 : 29 * eta <= u * S).
  { rewrite Heta.
    assert (29 * bpow (-1022) <= bpow (-82)).
    { assert (32 * bpow (-1022) = bpow (-1017)).
      { replace 32 with (bpow 5) by (rewrite bpow_IZR by lia; reflexivity).
        rewrite <- bpow_add. reflexivity. }
      assert (bpow (-1017) <= bpow (-82)) by (apply bpow_le; lia).
      pose proof (bpow_pos (-1022)). lra. }
    replace (29 * (u * bpow (-1022))) with (u * (29 * bpow (-1022))) by ring.
    apply Rmult_le_compat_l; lra. }
  assert (HetaN : eta <= u * sqrt S).
  { rewrite Heta. apply Rmult_le_compat_l; [lra |].
    eapply Rle_trans; [apply (bpow_le _ (-41)); lia | exact HN]. }
  assert (Hs8 : Rabs (Vs - S) <= 8 * u * S) by lra.
  pose proof (sqrt_error (8 * u) S Vs HS0 ltac:(lra) Hs8) as Hsq.
  pose proof (sqrt_pos Vs) as Hsq0. pose proof (sqrt_pos S) as HN0.
  rewrite (Rabs_pos_eq (sqrt Vs)) in HL by exact Hsq0.
  apply Rabs_le_inv in HL, Hsq.
  set (N := sqrt S) in *. set (r := sqrt Vs) in *.
  assert (HuN : 0 <= u * N) by (apply Rmult_le_pos; lra).
  assert (Hur : u * r <= u * N + 8 * u * (u * N)).
  { replace (u * N + 8 * u * (u * N)) with (u * (N + 8 * u * N)) by ring.
    apply Rmult_le_compat_l; lra. }
  assert (Huu : 8 * u * (u * N) <= u * N).
  { replace (u * N) with (1 * (u * N)) at 2 by ring.
    apply Rmult_le_compat_r; lra. }
  apply Rabs_le. lra.
Qed.

(** The reciprocal of the computed length. *)
Lemma reciprocal_bounded (L : R) : bpow (-34) <= L -> Rabs (1 / L) < bpow 1023.
Proof.
  intros HL. pose proof (bpow_pos (-34)) as Hb.
  assert (HL0 : 0 < L) by lra.
  rewrite Rabs_pos_eq by (apply Rlt_le, Rdiv_lt_0_compat; lra).
  apply (Rmult_lt_reg_r L); [exact HL0 |].
  replace (1 / L * L) with 1 by (field; lra).
  assert (Hmul : bpow 1023 * bpow (-34) <= bpow 1023 * L)
    by (apply Rmult_le_compat_l; [apply Rlt_le, bpow_pos | exact HL]).
  rewrite <- bpow_add in Hmul.
  assert (1 < bpow (1023 + -34)).
  { replace 1 with (bpow 0) by reflexivity.
    assert (bpow 0 + bpow 0 <= bpow (1023 + -34))
      by (rewrite (bpow_double 0 1) by lia; apply bpow_le; lia).
    pose proof (bpow_pos 0). lra. }
  lra.
Qed.

Lemma reciprocal_error (N L D : R) :
  bpow (-41) <= N ->
  Rabs (L - N) <= 11 * u * N ->
  L < bpow 1024 ->
  Rabs (D - 1 / L) <= u * Rabs (1 / L) + eta ->
  0 < D /\ Rabs (D - / N) <= 28 * u * / N.
Proof.
  intros HN HL Hmax HD.
  pose proof u_pos. pose proof u_small. pose proof eta_pos.
  pose proof (bpow_pos (-41)).
  assert (HN0 : 0 < N) by lra.
  destruct (inv_error (11 * u) N L HN0 ltac:(lra) HL) as [HL0 Hinv].
  assert (HiL : 0 < / L) by (apply Rinv_0_lt_compat; exact HL0).
  assert (HiN : 0 < / N) by (apply Rinv_0_lt_compat; exact HN0).
  replace (1 / L) with (/ L) in HD by (field; lra).
  rewrite (Rabs_pos_eq (/ L)) in HD by lra.
  (* the absolute error against the reciprocal *)
  assert (Heta : eta <= 4 * u * / L).
  { assert (Hlow : bpow (-1024) <= / L).
    { apply (Rmult_le_reg_r L); [exact HL0 |].
      replace (/ L * L) with 1 by (field; lra).
      assert (Hmul : bpow (-1024) * L <= bpow (-1024) * bpow 1024)
        by (apply Rmult_le_compat_l; [apply Rlt_le, bpow_pos | lra]).
      rewrite <- bpow_add in Hmul. change (bpow (-1024 + 1024)) with 1 in Hmul.
      lra. }
    assert (He : eta = 4 * u * bpow (-1024)).
    { unfold abs_err, rel_err.
      replace 4 with (bpow 2) by (rewrite bpow_IZR by lia; reflexivity).
      rewrite <- !bpow_add. reflexivity. }
    rewrite He. apply Rmult_le_compat_l; lra. }
  apply Rabs_le_inv in HD, Hinv.
  assert (HuN : 0 <= u * / N) by (apply Rmult_le_pos; lra).
  assert (HuL : u * / L <= u * / N + 22 * u * (u * / N)).
  { replace (u * / N + 22 * u * (u * / N)) with (u * (/ N + 2 * (11 * u) * / N)) by ring.
    apply Rmult_le_compat_l; lra. }
  assert (Huu : 22 * u * (u * / N) <= / 1000 * (u * / N)).
  { apply Rmult_le_compat_r; lra. }
  assert (H22 : 2 * (11 * u) * / N = 22 * (u * / N)) by ring.
  assert (H28 : 28 * u * / N = 28 * (u * / N)) by ring.
  assert (HuL' : 0 <= u * / L) by (apply Rmult_le_pos; lra).
  assert (HiLN : / N - 22 * (u * / N) <= / L) by lra.
  assert (H22' : 22 * (u * / N) <= / 1000 * / N).
  { replace (22 * (u * / N)) with (22 * u * / N) by ring.
    apply Rmult_le_compat_r; lra. }
  split; [lra |].
  apply Rabs_le. lra.
Qed.

(** One component of the result against the component of the unit
    quaternion. *)
Lemma component_bounded (N X D : R) :
  0 < N -> Rabs X <= N -> Rabs (D - / N) <= 28 * u * / N ->
  Rabs (X * D) <= 2.
Proof.
  intros HN HX HD.
  pose proof u_pos. pose proof u_small.
  assert (HiN : 0 < / N) by (apply Rinv_0_lt_compat; exact HN).
  apply Rabs_le_inv in HD.
  assert (HD2 : Rabs D <= 2 * / N).
  { assert (28 * u * / N <= / N).
    { replace (/ N) with (1 * / N) at 2 by ring. apply Rmult_le_compat_r; lra. }
    apply Rabs_le. lra. }
  rewrite Rabs_mult.
  assert (Rabs X * Rabs D <= N * (2 * / N)).
  { apply Rmult_le_compat; try apply Rabs_pos; assumption. }
  replace (N * (2 * / N)) with 2 in * by (field; lra). assumption.
Qed.

Lemma component_error (N X D R : R) :
  0 < N -> Rabs X <= N -> Rabs (D - / N) <= 28 * u * / N ->
  Rabs (R - X * D) <= u * Rabs (X * D) + eta ->
  Rabs (X / N) <= 1 /\ Rabs (R - X / N) <= 30 * u * Rabs (X / N) + eta.
Proof.
  intros HN HX HD HR.
  pose proof u_pos. pose proof u_small. pose proof eta_pos.
  assert (HiN : 0 < / N) by (apply Rinv_0_lt_compat; exact HN).
  set (T := X / N).
  assert (HT : Rabs T = Rabs X * / N).
  { unfold T, Rdiv. rewrite Rabs_mult, (Rabs_pos_eq (/ N)) by lra. reflexivity. }
  assert (HT1 : Rabs T <= 1).
  { rewrite HT. replace 1 with (N * / N) by (field; lra).
    apply Rmult_le_compat_r; lra. }
  split; [exact HT1 |].
  assert (Ht : Rabs (X * D - T) <= 28 * u * Rabs T).
  { replace (X * D - T) with (X * (D - / N)) by (unfold T; field; lra).
    rewrite Rabs_mult, HT.
    replace (28 * u * (Rabs X * / N)) with (Rabs X * (28 * u * / N)) by ring.
    apply Rmult_le_compat_l; [apply Rabs_pos | exact HD]. }
  pose proof (Rabs_pos T) as HT0.
  assert (HXD : Rabs (X * D) <= Rabs T + 28 * u * Rabs T).
  { replace (X * D) with (T + (X * D - T)) by ring.
    eapply Rle_trans; [apply Rabs_triang |]. lra. }
  assert (HuT : 0 <= u * Rabs T) by (apply Rmult_le_pos; lra).
  assert (Hu1 : u * Rabs (X * D) <= u * Rabs T + 28 * u * (u * Rabs T)).
  { replace (u * Rabs T + 28 * u * (u * Rabs T))
      with (u * (Rabs T + 28 * u * Rabs T)) by ring.
    apply Rmult_le_compat_l; lra. }
  assert (Huu : 28 * u * (u * Rabs T) <= u * Rabs T).
  { replace (u * Rabs T) with (1 * (u * Rabs T)) at 2 by ring.
    apply Rmult_le_compat_r; lra. }
  replace (R - T) with ((R - X * D) + (X * D - T)) by ring.
  eapply Rle_trans; [apply Rabs_triang |]. lra.
Qed.

Lemma square_error (T R : R) :
  Rabs T <= 1 -> Rabs (R - T) <= 30 * u * Rabs T + eta ->
  Rabs (R * R - T * T) <= 61 * u * (T * T) + 3 * eta.
Proof.
  intros HT HR.
  pose proof u_pos. pose proof u_small. pose proof eta_pos. pose proof eta_small.
  pose proof (Rabs_pos T) as Ha.
  assert (HTT : T * T = Rabs T * Rabs T).
  { rewrite <- Rabs_mult. symmetry. apply Rabs_pos_eq, Rle_0_sqr. }
  set (a := Rabs T) in *.
  set (e := 30 * u * a + eta) in *.
  assert (He0 : 0 <= e) by (unfold e; assert (0 <= 30 * u * a) by (apply Rmult_le_pos; lra); lra).
  assert (Hsum : Rabs (R + T) <= 2 * a + e).
  { replace (R + T) with ((R - T) + 2 * T) by ring.
    eapply Rle_trans; [apply Rabs_triang |].
    rewrite Rabs_mult, (Rabs_pos_eq 2) by lra. fold a. lra. }
  replace (R * R - T * T) with ((R - T) * (R + T)) by ring.
  rewrite Rabs_mult.
  assert (Hprod : Rabs (R - T) * Rabs (R + T) <= e * (2 * a + e)).
  { apply Rmult_le_compat; try apply Rabs_pos; assumption. }
  eapply Rle_trans; [exact Hprod |].
  rewrite HTT. unfold e.
  (* (30ua + eta)(2a + 30ua + eta) <= 61 u a^2 + 3 eta *)
  assert (Haa : 0 <= a * a) by (apply Rmult_le_pos; lra).
  assert (Hq1 : 900 * u * (u * (a * a)) <= u * (a * a)).
  { replace (u * (a * a)) with (1 * (u * (a * a))) at 2 by ring.
    apply Rmult_le_compat_r; [apply Rmult_le_pos; lra | lra]. }
  assert (Hq2 : a * eta <= eta).
  { replace eta with (1 * eta) at 2 by ring. apply Rmult_le_compat_r; lra. }
  assert (Hq3 : u * (a * eta) <= / 1000 * eta).
  { assert (0 <= a * eta) by (apply Rmult_le_pos; lra).
    apply Rmult_le_compat; lra. }
  assert (Hq4 : eta * eta <= / 1000 * eta).
  { apply Rmult_le_compat_r; lra. }
  replace ((30 * u * a + eta) * (2 * a + (30 * u * a + eta)))
    with (60 * (u * (a * a)) + 900 * u * (u * (a * a)) + 60 * (u * (a * eta))
          + 2 * (a * eta) + eta * eta) by ring.
  replace (61 * u * (a * a)) with (61 * (u * (a * a))) by ring.
  assert (0 <= a * eta) by (apply Rmult_le_pos; lra).
  lra.
Qed.

(** The four components together. *)
Lemma unit_norm (Tw Ti Tj Tk Rw Ri Rj Rk : R) :
  Tw * Tw + Ti * Ti + Tj * Tj + Tk * Tk = 1 ->
  Rabs (Rw * Rw - Tw * Tw) <= 61 * u * (Tw * Tw) + 3 * eta ->
  Rabs (Ri * Ri - Ti * Ti) <= 61 * u * (Ti * Ti) + 3 * eta ->
  Rabs (Rj * Rj - Tj * Tj) <= 61 * u * (Tj * Tj) + 3 * eta ->
  Rabs (Rk * Rk - Tk * Tk) <= 61 * u * (Tk * Tk) + 3 * eta ->
  let S' := Rw * Rw + Ri * Ri + Rj * Rj + Rk * Rk in
  Rabs (S' - 1) <= 62 * u
  /\ Rabs (sqrt S' - 1) <= 62 * u.
Proof.
  intros HT Hw Hi Hj Hk S'.
  pose proof u_pos. pose proof u_small. pose proof eta_pos. pose proof eta_small.
  apply Rabs_le_inv in Hw, Hi, Hj, Hk.
  assert (Hsum : 61 * u * (Tw * Tw) + 61 * u * (Ti * Ti) + 61 * u * (Tj * Tj)
                 + 61 * u * (Tk * Tk) = 61 * u).
  { replace (61 * u) with (61 * u * (Tw * Tw + Ti * Ti + Tj * Tj + Tk * Tk))
      at 5 by (rewrite HT; ring).
    ring. }
  assert (HS : Rabs (S' - 1) <= 62 * u) by (apply Rabs_le; unfold S'; lra).
  split; [exact HS |].
  pose proof (sqrt_error (62 * u) 1 S' ltac:(lra) ltac:(lra)) as Hsq.
  rewrite sqrt_1, !Rmult_1_r in Hsq. apply Hsq. exact HS.
Qed.

(** The length [length()] computes of the result. *)
Lemma second_length (S' Vs L : R) :
  Rabs (S' - 1) <= 62 * u -> 0 <= Vs ->
  Rabs (Vs - S') <= 7 * u * S' + 29 * eta ->
  Rabs (sqrt Vs) < bpow 1023
  /\ (Rabs (L - sqrt Vs) <= u * Rabs (sqrt Vs) + eta ->
      Rabs (L - 1) <= 80 * u).
Proof.
  intros HS HVs Hs.
  pose proof u_pos. pose proof u_small. pose proof eta_pos. pose proof eta_small.
  apply Rabs_le_inv in HS, Hs.
  assert (HuS : 7 * u * S' <= 14 * u + / 1000 * u).
  { replace (7 * u * S') with (7 * u * 1 + 7 * u * (S' - 1)) by ring.
    assert (7 * u * (S' - 1) <= 7 * u * (62 * u))
      by (apply Rmult_le_compat_l; lra).
    assert (7 * u * (62 * u) <= / 1000 * u).
    { replace (7 * u * (62 * u)) with (434 * u * u) by ring.
      apply Rmult_le_compat_r; lra. }
    lra. }
  assert (HuS0 : 0 <= 7 * u * S').
  { apply Rmult_le_pos; lra. }
  assert (Hs1 : Rabs (Vs - 1) <= 77 * u * 1) by (apply Rabs_le; lra).
  pose proof (sqrt_error (77 * u) 1 Vs ltac:(lra) ltac:(lra) Hs1) as Hsq.
  rewrite sqrt_1, Rmult_1_r in Hsq. apply Rabs_le_inv in Hsq.
  pose proof (sqrt_pos Vs) as Hsq0.
  rewrite (Rabs_pos_eq (sqrt Vs)) by exact Hsq0.
  pose proof bpow_1023_big.
  split; [lra |].
  intros HL. apply Rabs_le_inv in HL.
  assert (Hur : u * sqrt Vs <= u * (1 + 77 * u))
    by (apply Rmult_le_compat_l; lra).
  assert (77 * u * u <= / 1000 * u).
  { apply Rmult_le_compat_r; lra. }
  apply Rabs_le. lra.
Qed.

End UnitLength.

Section NormalizeUnit.
Import Double.
Local Open Scope R_scope.
Local Abbreviation u := rel_err.
Local Abbreviation eta := abs_err.

Lemma value_one : value 1 = 1.
Proof.
  unfold value. change (Prim2SF 1) with (S754_finite false 4503599627370496 (-52)).
  cbn [SF2R magnitude].
  change 4503599627370496%Z with (2 ^ 52)%Z. rewrite <- bpow_IZR by lia.
  rewrite <- bpow_add. reflexivity.
Qed.

Lemma finite_one : finite 1.
Proof. exact I. Qed.

(** The threshold of [normalize], the double nearest 1e-10, is at least
    2^-34. *)
Lemma threshold_lower : bpow (-34) <= value 0x1.b7cdfd9d7bdbbp-34.
Proof.
  unfold value.
  change (Prim2SF 0x1.b7cdfd9d7bdbbp-34)
    with (S754_finite false 7737125245533627 (-86)).
  cbn [SF2R magnitude].
  replace (bpow (-34)) with (bpow 52 * bpow (-86)) by (rewrite <- bpow_add; reflexivity).
  apply Rmult_le_compat_r; [apply Rlt_le, bpow_pos |].
  rewrite bpow_IZR by lia. apply IZR_le. lia.
Qed.

Lemma abs_le_norm (X S : R) : X * X <= S -> Rabs X <= sqrt S.
Proof.
  intros HX. rewrite <- sqrt_Rsqr_abs. apply sqrt_le_1; unfold Rsqr.
  - apply Rle_0_sqr.
  - pose proof (Rle_0_sqr X). unfold Rsqr in *. lra.
  - exact HX.
Qed.

(** One component, multiplied by the computed reciprocal [d] of the
    length. *)
Lemma component_spec (x d : float) (N : R) :
  finite x -> finite d -> 0 < N -> Rabs (value x) <= N ->
  Rabs (value d - / N) <= 28 * u * / N ->
  finite (x * d)
  /\ Rabs (value (x * d) - value x / N) <= / 1000000000
  /\ Rabs (value (x * d) * value (x * d) - value x / N * (value x / N))
     <= 61 * u * (value x / N * (value x / N)) + 3 * eta.
Proof.
  intros Hx Hd HN HX HD.
  pose proof (mul_approx x d Hx Hd) as Ha.
  pose proof (component_bounded N _ _ HN HX HD) as Hb.
  assert (Hf : finite (x * d)).
  { apply (approximates_finite _ _ Ha). pose proof bpow_1023_big. lra. }
  split; [exact Hf |].
  destruct (approximates_use _ _ Ha Hf) as [He _].
  fold (value (x * d)) in He.
  destruct (component_error N _ _ _ HN HX HD He) as [HT HR].
  split; [| apply square_error; assumption].
  pose proof u_pos. pose proof u_small. pose proof eta_pos. pose proof eta_small.
  pose proof (Rabs_pos (value x / N)).
  assert (30 * u * Rabs (value x / N) <= 30 * u * 1)
    by (apply Rmult_le_compat_l; lra).
  lra.
Qed.

(** [normalize] on the four components, where the computed length is
    finite and not below the threshold. *)
Lemma normalize_unit (w i j k : float) :
  let l := PrimFloat.sqrt (squared_norm w i j k) in
  let d := (1 / l)%float in
  is_finite l = true ->
  (abs l <? 0x1.b7cdfd9d7bdbbp-34)%float = false ->
  let N := sqrt (norm2 w i j k) in
  Rabs (value l - N) <= N / 10000000000000
  /\ (finite (w * d) /\ finite (i * d) /\ finite (j * d) /\ finite (k * d))
  /\ 0 < value d
  /\ (Rabs (value (w * d) - value w / N) <= / 1000000000
      /\ Rabs (value (i * d) - value i / N) <= / 1000000000
      /\ Rabs (value (j * d) - value j / N) <= / 1000000000
      /\ Rabs (value (k * d) - value k / N) <= / 1000000000)
  /\ Rabs (sqrt (norm2 (w * d) (i * d) (j * d) (k * d)) - 1) <= / 1000000000
  /\ finite (PrimFloat.sqrt (squared_norm (w * d) (i * d) (j * d) (k * d)))
  /\ Rabs (value (PrimFloat.sqrt (squared_norm (w * d) (i * d) (j * d) (k * d))) - 1)
     <= / 1000000000.
Proof.
  intros l d Hfin Hlt N0.
  pose proof u_pos as Hu0. pose proof u_small as Hu.
  apply is_finite_spec in Hfin.
  destruct (sqrt_finite _ Hfin) as [Hs HVs].
  destruct (squared_norm_error w i j k Hs) as [_ Es].
  destruct (squared_norm_finite w i j k Hs) as ((Hw & Hi & Hj & Hk) & _).
  pose proof (sqrt_approx _ Hs HVs) as Al. fold l in Al.
  destruct (approximates_use _ _ Al Hfin) as [El Nl].
  fold (value l) in El, Nl.
  specialize (Nl (sqrt_pos _)).
  assert (Hshape : match Prim2SF 0x1.b7cdfd9d7bdbbp-34 with
                   | S754_finite false _ _ => True
                   | _ => False
                   end) by (vm_compute; exact I).
  pose proof (ltb_abs_false l 0x1.b7cdfd9d7bdbbp-34 Hfin Nl Hshape Hlt) as Hge.
  pose proof threshold_lower as Hth.
  assert (HL : bpow (-34) <= value l) by lra.
  set (S := norm2 w i j k) in *.
  assert (HS0 : 0 <= S).
  { unfold S, norm2.
    pose proof (Rle_0_sqr (value w)). pose proof (Rle_0_sqr (value i)).
    pose proof (Rle_0_sqr (value j)). pose proof (Rle_0_sqr (value k)).
    unfold Rsqr in *. lra. }
  pose proof (norm2_lower S _ _ HS0 HVs Es El HL) as HSlow.
  destruct (length_error S _ _ HSlow HVs Es El) as [HN HLN].
  fold S in N0. set (N := sqrt S) in *. subst N0.
  pose proof (bpow_pos (-41)) as Hb41. pose proof (bpow_pos (-34)) as Hb34.
  assert (HN0 : 0 < N) by lra.
  assert (HNN : N * N = S) by (apply sqrt_sqrt; exact HS0).
  (* the reciprocal *)
  assert (Hl0 : value l <> 0) by lra.
  pose proof (div_approx 1 l finite_one Hfin Hl0) as Ad.
  rewrite value_one in Ad. fold d in Ad.
  assert (Hd : finite d)
    by (apply (approximates_finite _ _ Ad), reciprocal_bounded; exact HL).
  destruct (approximates_use _ _ Ad Hd) as [Ed _]. fold (value d) in Ed.
  pose proof (value_bound l Hfin) as Hmax.
  rewrite Rabs_pos_eq in Hmax by lra.
  destruct (reciprocal_error N _ _ HN HLN Hmax Ed) as [HD0 HD].
  (* the components *)
  assert (Xw : Rabs (value w) <= N).
  { apply abs_le_norm. unfold S, norm2.
    pose proof (Rle_0_sqr (value i)). pose proof (Rle_0_sqr (value j)).
    pose proof (Rle_0_sqr (value k)). unfold Rsqr in *. lra. }
  assert (Xi : Rabs (value i) <= N).
  { apply abs_le_norm. unfold S, norm2.
    pose proof (Rle_0_sqr (value w)). pose proof (Rle_0_sqr (value j)).
    pose proof (Rle_0_sqr (value k)). unfold Rsqr in *. lra. }
  assert (Xj : Rabs (value j) <= N).
  { apply abs_le_norm. unfold S, norm2.
    pose proof (Rle_0_sqr (value w)). pose proof (Rle_0_sqr (value i)).
    pose proof (Rle_0_sqr (value k)). unfold Rsqr in *. lra. }
  assert (Xk : Rabs (value k) <= N).
  { apply abs_le_norm. unfold S, norm2.
    pose proof (Rle_0_sqr (value w)). pose proof (Rle_0_sqr (value i)).
    pose proof (Rle_0_sqr (value j)). unfold Rsqr in *. lra. }
  destruct (component_spec w d N Hw Hd HN0 Xw HD) as (Fw & Cw & Qw).
  destruct (component_spec i d N Hi Hd HN0 Xi HD) as (Fi & Ci & Qi).
  destruct (component_spec j d N Hj Hd HN0 Xj HD) as (Fj & Cj & Qj).
  destruct (component_spec k d N Hk Hd HN0 Xk HD) as (Fk & Ck & Qk).
  assert (HT : value w / N * (value w / N) + value i / N * (value i / N)
               + value j / N * (value j / N) + value k / N * (value k / N) = 1).
  { replace (value w / N * (value w / N) + value i / N * (value i / N)
             + value j / N * (value j / N) + value k / N * (value k / N))
      with (S / (N * N)) by (unfold S, norm2; field; lra).
    rewrite HNN. pose proof (bpow_pos (-82)). field. lra. }
  destruct (unit_norm _ _ _ _ _ _ _ _ HT Qw Qi Qj Qk) as [HS' Hsq'].
  fold (norm2 (w * d) (i * d) (j * d) (k * d)) in HS', Hsq'.
  split.
  { assert (11 * u * N <= / 10000000000000 * N)
      by (apply Rmult_le_compat_r; lra).
    lra. }
  split; [tauto |]. split; [exact HD0 |]. split; [tauto |].
  split; [lra |].
  (* the length of the result, as [length] computes it *)
  assert (HS4 : norm2 (w * d) (i * d) (j * d) (k * d) <= 4).
  { apply Rabs_le_inv in HS'. lra. }
  pose proof (squared_norm_small _ _ _ _ Fw Fi Fj Fk HS4) as Hs'.
  destruct (squared_norm_error _ _ _ _ Hs') as [HVs' Es'].
  destruct (second_length _ _
              (value (PrimFloat.sqrt (squared_norm (w * d) (i * d) (j * d) (k * d))))
              HS' HVs' Es') as [Hb HL'].
  pose proof (sqrt_approx _ Hs' HVs') as Al'.
  assert (Hl' : finite (PrimFloat.sqrt (squared_norm (w * d) (i * d) (j * d) (k * d))))
    by (apply (approximates_finite _ _ Al'); exact Hb).
  split; [exact Hl' |].
  destruct (approximates_use _ _ Al' Hl') as [El' _].
  specialize (HL' El'). lra.
Qed.

End NormalizeUnit.

(* ================================================================== *)
(** * [normalize] on binary64                                         *)
(* ================================================================== *)

Section Normalize.
Import Quaternion Double.

(** On binary64, multiplying by 1.0 returns the operand, bit for bit:
    the product of the mantissa by 2^52 is shifted back by 52 places
    without loss. *)
Lemma float_mul_one (x : float) : (x * 1)%float = x.
Proof.
  apply Prim2SF_inj. rewrite mul_spec.
  change (Prim2SF 1) with (S754_finite false 4503599627370496 (-52)).
  pose proof (Prim2SF_valid x) as Hv.
  destruct (Prim2SF x) as [s | s | | s m e]; cbn [SF64mul SFmul];
    rewrite ?xorb_false_r; try reflexivity.
  cbn [valid_binary] in Hv.
  unfold SpecFloat.valid_binary, bounded, canonical_mantissa in Hv.
  apply andb_prop in Hv as [Hc Hb]. apply Z.eqb_eq in Hc.
  rewrite Pos.mul_comm. cbv beta iota fix delta [Pos.mul].
  unfold binary_round_aux, shr_fexp.
  cbn [Zdigits2 digits2_pos].
  set (d := digits2_pos m) in *.
  match goal with
  | |- context [fexp _ _ (Z.pos ?p + (e + -52))] =>
      replace (Z.pos p + (e + -52))%Z with (Z.pos d + e)%Z by lia
  end.
  rewrite Hc.
  replace (e - (e + -52))%Z with 52%Z by lia.
  cbn [shr shr_record_of_loc SpecFloat.iter_pos shr_1 orb shr_m
       loc_of_shr_record round_nearest_even shr_r shr_s].
  replace (e + -52 + 52)%Z with e by lia.
  cbn [Zdigits2]. fold d. rewrite Hc, Z.sub_diag.
  cbn [shr shr_record_of_loc shr_m]. rewrite Hb. reflexivity.
Qed.

(** C7, as stated, fails on binary64 in three ways.  Overflow: q =
    (2^600, 0, 0, 0) is finite and its norm 2^600 is far above 1e-10, but
    its squared norm overflows, the computed length is +infinity, the
    reciprocal is 0 and [normalize] leaves (0,0,0,0), of length 0.  The
    threshold, in both halves, since the code tests the computed length,
    and against the double nearest 1e-10: (w,i,j,0) below has a squared
    norm of at least 1e-20, hence a norm of at least 1e-10, but its
    computed length is the double next below the threshold, and
    [normalize] leaves it as it is, of length 1e-10; (w',i',j',0) has a
    squared norm below 1e-20, hence a norm below 1e-10, but its computed
    length is the threshold itself, and [normalize] scales it to length
    1. *)
Lemma normalize_overflow_and_threshold :
  let w := 0x1.817755352d8d4p-34%float in
  let i := 0x1.0127bb4186f2ep-37%float in
  let j := 0x1.a29ec63e9bb9p-35%float in
  let w' := 0x1.b5fb104b831abp-34%float in
  let i' := 0x1.bf5feab2a790fp-38%float in
  let j' := 0x1.c9f3094fcfc97p-38%float in
  (eval (Scenario.normalized [0x1p+600; 0; 0; 0]%float) [] =
     Ok (infinity, [0; 0; 0; 0], 0)%float
   /\ (infinity >=? c1em10)%js = true
   /\ Float64.within 0x1.12e0be826d695p-30 0 1 = false)
  /\ ((/ 100000000000000000000 <= norm2 w i j 0)%R
      /\ eval (Scenario.normalized [w; i; j; 0%float]) [] =
           Ok (0x1.b7cdfd9d7bdbap-34, [w; i; j; 0], 0x1.b7cdfd9d7bdbap-34)%float
      /\ (0x1.b7cdfd9d7bdbap-34 <? 0x1.b7cdfd9d7bdbbp-34)%float = true)
  /\ ((norm2 w' i' j' 0 < / 100000000000000000000)%R
      /\ eval (Scenario.normalized [w'; i'; j'; 0%float]) [] =
           Ok (0x1.b7cdfd9d7bdbbp-34,
               [0x1.fde06ce68d7ep-1; 0x1.0468057e1c347p-4;
                0x1.0a8fc5beea9e8p-4; 0],
               0x1.fffffffffffffp-1)%float).
Proof.
  intros w i j w' i' j'.
  split; [repeat split; vm_compute; reflexivity |].
  split; (split; [| repeat split; vm_compute; reflexivity]);
    unfold norm2, value, w, i, j, w', i', j'.
  - change (Prim2SF 0x1.817755352d8d4p-34)
      with (S754_finite false 6781192117606612 (-86)).
    change (Prim2SF 0x1.0127bb4186f2ep-37)
      with (S754_finite false 4523922139148078 (-89)).
    change (Prim2SF 0x1.a29ec63e9bb9p-35)
      with (S754_finite false 7364444659760016 (-87)).
    change (Prim2SF 0) with (S754_zero false).
    cbn [SF2R magnitude].
    change (-86)%Z with (Z.opp 86). change (-89)%Z with (Z.opp 89).
    change (-87)%Z with (Z.opp 87).
    rewrite !bpow_neg by lia.
    change (2 ^ 86)%Z with 77371252455336267181195264%Z.
    change (2 ^ 89)%Z with 618970019642690137449562112%Z.
    change (2 ^ 87)%Z with 154742504910672534362390528%Z.
    lra.
  - change (Prim2SF 0x1.b5fb104b831abp-34)
      with (S754_finite false 7705038264218027 (-86)).
    change (Prim2SF 0x1.bf5feab2a790fp-38)
      with (S754_finite false 7870298513373455 (-90)).
    change (Prim2SF 0x1.c9f3094fcfc97p-38)
      with (S754_finite false 8056330354752663 (-90)).
    change (Prim2SF 0) with (S754_zero false).
    cbn [SF2R magnitude].
    change (-86)%Z with (Z.opp 86). change (-90)%Z with (Z.opp 90).
    rewrite !bpow_neg by lia.
    change (2 ^ 86)%Z with 77371252455336267181195264%Z.
    change (2 ^ 90)%Z with 1237940039285380274899124224%Z.
    lra.
Qed.

(** C7, amended.  Let l be the length [length] computes of q, the
    rounded square root of the rounded sum of the rounded squares.  If l
    is finite, so that the squared norm did not overflow, and is not below
    the threshold, the double nearest 1e-10, then l is the Euclidean norm
    N of q within N/10^13, and [normalize] multiplies the four components
    by the computed reciprocal d of l, which is positive, and leaves a
    quaternion that is q over N within 1e-9 in each component, whose
    Euclidean norm is within 1e-9 of 1 and whose length, as [length]
    computes it, is finite and within 1e-9 of 1.  If l is below the
    threshold, [normalize] leaves the heap, hence q, unchanged bit for
    bit. *)
Theorem normalize_gives_unit_length (h : heap float) (this : ref)
    (w i j k : float) :
  h !! this = Some (mkQuaternion [w; i; j; k]) ->
  let l := PrimFloat.sqrt (w * w + i * i + j * j + k * k)%float in
  length this h = Ok (l, h)
  /\ (is_finite l = true ->
      (PrimFloat.abs l <? 0x1.b7cdfd9d7bdbbp-34)%float = false ->
      let d := (1 / l)%float in
      let N := sqrt (norm2 w i j k) in
      let h' := <[this := mkQuaternion [w * d; i * d; j * d; k * d]%float]> h in
      normalize this h = Ok (tt, h')
      /\ (Rabs (value l - N) <= N / 10000000000000)%R
      /\ (0 < value d)%R
      /\ (finite (w * d) /\ finite (i * d) /\ finite (j * d) /\ finite (k * d))
      /\ (Rabs (value (w * d) - value w / N) <= / 1000000000
          /\ Rabs (value (i * d) - value i / N) <= / 1000000000
          /\ Rabs (value (j * d) - value j / N) <= / 1000000000
          /\ Rabs (value (k * d) - value k / N) <= / 1000000000)%R
      /\ (Rabs (sqrt (norm2 (w * d) (i * d) (j * d) (k * d)) - 1)
          <= / 1000000000)%R
      /\ exists l' : float,
           length this h' = Ok (l', h')
           /\ finite l'
           /\ (Rabs (value l' - 1) <= / 1000000000)%R)
  /\ ((PrimFloat.abs l <? 0x1.b7cdfd9d7bdbbp-34)%float = true ->
      normalize this h = Ok (tt, h)).
Proof.
  intros Hthis l.
  pose proof (normalize_at h this w i j k Hthis) as Hn.
  cbn [num_mul num_add num_div Math_sqrt Math_abs num_ltb c1 c1em10
       Float64.arith] in Hn.
  fold l in Hn.
  split; [exact (length_at h this w i j k Hthis) | split].
  - intros Hfin Hlt d N h'. rewrite Hlt in Hn. fold d in Hn.
    destruct (normalize_unit w i j k Hfin Hlt)
      as (Hl & Hf & Hd & Hc & Hnorm & Hfl & Hlen).
    split; [exact Hn |]. split; [exact Hl |].
    split; [exact Hd |]. split; [exact Hf |].
    split; [exact Hc |]. split; [exact Hnorm |].
    eexists. split; [| split; [exact Hfl | exact Hlen]].
    exact (length_at h' this _ _ _ _ (lookup_written _ _ _ _ Hthis)).
  - intros Hlt. rewrite Hlt, !float_mul_one in Hn.
    rewrite list_insert_id in Hn by exact Hthis. exact Hn.
Qed.

End Normalize.

Section NormalizeInstances.
Import Quaternion Double.

Lemma normalize_gives_unit_length_witness :
  let h : heap float := [mkQuaternion [0; 0; 2; 0]%float] in
  let g : heap float := [mkQuaternion [0; 0; 0x1p-40; 0]%float] in
  normalize 0 h = Ok (tt, [mkQuaternion [0; 0; 1; 0]%float])
  /\ (exists l' : float,
        length 0 [mkQuaternion [0; 0; 1; 0]%float]
          = Ok (l', [mkQuaternion [0; 0; 1; 0]%float])
        /\ (Rabs (value l' - 1) <= / 1000000000)%R)
  /\ normalize 0 g = Ok (tt, g).
Proof.
  intros h g.
  destruct (normalize_gives_unit_length h 0%nat 0 0 2 0 eq_refl)%float
    as (_ & Hbig & _).
  destruct (normalize_gives_unit_length g 0%nat 0 0 0x1p-40 0 eq_refl)%float
    as (_ & _ & Hsmall).
  destruct Hbig as (Hn & _ & _ & _ & _ & _ & l' & Hl & _ & Hlen);
    [vm_compute; reflexivity | vm_compute; reflexivity |].
  split; [| split].
  - rewrite Hn. vm_compute. reflexivity.
  - vm_compute in Hl. injection Hl as Hl. subst l'.
    exists 1%float. split; [vm_compute; reflexivity | exact Hlen].
  - apply Hsmall. vm_compute. reflexivity.
Defined.

End NormalizeInstances.

(* ================================================================== *)
(** * The value holder keeps its components finite                    *)
(* ================================================================== *)

Section HolderFacts.
Import Holder.

Lemma zero_not_infinite (v : float) : is_zero v = true -> is_infinity v = false.
Proof.
  unfold is_zero, is_infinity.
  rewrite !FloatAxioms.eqb_spec, abs_spec.
  change (Prim2SF zero) with (S754_zero false).
  change (Prim2SF infinity) with (S754_infinity false).
  destruct (Prim2SF v) as [s | s | | s m e]; try destruct s; try discriminate;
    reflexivity.
Qed.

Lemma accepts_finite (v : float) : accepts v = true <-> finite v.
Proof.
  unfold accepts, isNaN, isFinite, finite, Prim2SF.
  destruct (is_nan v); cbn [negb andb]; [split; [discriminate | tauto] |].
  destruct (is_zero v) eqn:Hz.
  - rewrite (zero_not_infinite v Hz). split; [intros _; exact I | reflexivity].
  - destruct (is_infinity v); cbn [negb]; [split; [discriminate | tauto] |].
    destruct (Z.frexp v) as [r ex].
    destruct (shr_fexp prec emax _ _ _) as [shr e'].
    destruct (shr_m shr); split; trivial.
Qed.

Lemma initial_finite : all_finite initial.
Proof. unfold all_finite, initial, finite. cbn [_w _i _j _k]. vm_compute. tauto. Qed.

(** Each setter either stores a finite value or stores nothing. *)
Lemma set_w_keeps q value q' :
  set_w value q = Ok (tt, q') -> all_finite q -> all_finite q'.
Proof.
  unfold set_w. fold (accepts value). destruct (accepts value) eqn:Ha;
    intros [= <-]; [| tauto].
  apply accepts_finite in Ha. unfold all_finite. cbn [_w _i _j _k]. tauto.
Qed.

Lemma set_i_keeps q value q' :
  set_i value q = Ok (tt, q') -> all_finite q -> all_finite q'.
Proof.
  unfold set_i. fold (accepts value). destruct (accepts value) eqn:Ha;
    intros [= <-]; [| tauto].
  apply accepts_finite in Ha. unfold all_finite. cbn [_w _i _j _k]. tauto.
Qed.

Lemma set_j_keeps q value q' :
  set_j value q = Ok (tt, q') -> all_finite q -> all_finite q'.
Proof.
  unfold set_j. fold (accepts value). destruct (accepts value) eqn:Ha;
    intros [= <-]; [| tauto].
  apply accepts_finite in Ha. unfold all_finite. cbn [_w _i _j _k]. tauto.
Qed.

Lemma set_k_keeps q value q' :
  set_k value q = Ok (tt, q') -> all_finite q -> all_finite q'.
Proof.
  unfold set_k. fold (accepts value). destruct (accepts value) eqn:Ha;
    intros [= <-]; [| tauto].
  apply accepts_finite in Ha. unfold all_finite. cbn [_w _i _j _k]. tauto.
Qed.

Lemma set_id_keeps q value q' :
  set_id value q = Ok (tt, q') -> all_finite q -> all_finite q'.
Proof. unfold set_id. intros [= <-]. unfold all_finite. cbn [_w _i _j _k]. tauto. Qed.

(** No setter throws. *)
Lemma set_w_total value q : exists q', set_w value q = Ok (tt, q').
Proof. unfold set_w. destruct (negb _ && _); eauto. Qed.
Lemma set_i_total value q : exists q', set_i value q = Ok (tt, q').
Proof. unfold set_i. destruct (negb _ && _); eauto. Qed.
Lemma set_j_total value q : exists q', set_j value q = Ok (tt, q').
Proof. unfold set_j. destruct (negb _ && _); eauto. Qed.
Lemma set_k_total value q : exists q', set_k value q = Ok (tt, q').
Proof. unfold set_k. destruct (negb _ && _); eauto. Qed.

(** The constructor runs the four setters on the initialised fields. *)
Lemma new_Q_finite wValue iValue jValue kValue _id :
  exists q, new_Q wValue iValue jValue kValue _id = Ok q /\ all_finite q.
Proof.
  unfold new_Q, constructor.
  destruct (set_w_total wValue initial) as [q1 H1].
  destruct (set_i_total iValue q1) as [q2 H2].
  destruct (set_j_total jValue q2) as [q3 H3].
  destruct (set_k_total kValue q3) as [q4 H4].
  rewrite (bind_Ok _ _ _ _ _ H1), (bind_Ok _ _ _ _ _ H2),
    (bind_Ok _ _ _ _ _ H3), (bind_Ok _ _ _ _ _ H4).
  assert (Hfin : all_finite q4).
  { eapply set_k_keeps, set_j_keeps, set_i_keeps, set_w_keeps, initial_finite;
      eassumption. }
  destruct _id as [s |]; cbn; eexists; (split; [reflexivity |]).
  - unfold all_finite in *. cbn [_w _i _j _k]. exact Hfin.
  - exact Hfin.
Qed.

(** C9.  Every instance a caller can hold, from [new Q] on and through
    any sequence of assignments, has four finite components.  Construction
    completes normally on all arguments.  A setter given a finite value
    stores it in its own component and changes nothing else; given a NaN or
    an infinity it leaves the instance as it was; in both cases it
    completes normally. *)
Theorem holder_components_stay_finite (q : Q) :
  reachable q ->
  all_finite q
  /\ (forall wValue iValue jValue kValue _id,
        exists q0, new_Q wValue iValue jValue kValue _id = Ok q0)
  /\ (forall value,
        finite value ->
        set_w value q = Ok (tt, mkQ (id q) value (_i q) (_j q) (_k q))
        /\ set_i value q = Ok (tt, mkQ (id q) (_w q) value (_j q) (_k q))
        /\ set_j value q = Ok (tt, mkQ (id q) (_w q) (_i q) value (_k q))
        /\ set_k value q = Ok (tt, mkQ (id q) (_w q) (_i q) (_j q) value))
  /\ (forall value,
        ~ finite value ->
        set_w value q = Ok (tt, q) /\ set_i value q = Ok (tt, q)
        /\ set_j value q = Ok (tt, q) /\ set_k value q = Ok (tt, q)).
Proof.
  intros Hq. split; [| split; [| split]].
  - induction Hq as [wv iv jv kv oid q Hnew | q v q' _ IH Hs | q v q' _ IH Hs
                    | q v q' _ IH Hs | q v q' _ IH Hs | q v q' _ IH Hs].
    + destruct (new_Q_finite wv iv jv kv oid) as (q0 & Hq0 & Hfin).
      rewrite Hnew in Hq0. injection Hq0 as ->. exact Hfin.
    + exact (set_w_keeps _ _ _ Hs IH).
    + exact (set_i_keeps _ _ _ Hs IH).
    + exact (set_j_keeps _ _ _ Hs IH).
    + exact (set_k_keeps _ _ _ Hs IH).
    + exact (set_id_keeps _ _ _ Hs IH).
  - intros wv iv jv kv oid.
    destruct (new_Q_finite wv iv jv kv oid) as (q0 & Hq0 & _). eauto.
  - intros value Hfin. apply accepts_finite in Hfin.
    unfold set_w, set_i, set_j, set_k. fold (accepts value). rewrite Hfin.
    repeat split.
  - intros value Hnot.
    assert (Ha : accepts value = false).
    { destruct (accepts value) eqn:Ha; [| reflexivity].
      apply accepts_finite in Ha. contradiction. }
    unfold set_w, set_i, set_j, set_k. fold (accepts value). rewrite Ha.
    repeat split.
Qed.

End HolderFacts.

Lemma holder_components_stay_finite_witness :
  let q := Holder.mkQ EmptyString 0 0 1 2 in
  Holder.reachable q
  /\ Holder.all_finite q
  /\ Holder.set_w 5 q = Ok (tt, Holder.mkQ EmptyString 5 0 1 2)
  /\ Holder.set_k nan q = Ok (tt, q)
  /\ Holder.set_j infinity q = Ok (tt, q).
Proof.
  intros q.
  assert (Hq : Holder.reachable q).
  { apply (Holder.reach_new nan neg_infinity 1 2 None). reflexivity. }
  destruct (holder_components_stay_finite q Hq) as (Hfin & _ & Hyes & Hno).
  split; [exact Hq | split; [exact Hfin |]].
  split; [| split].
  - apply (Hyes 5%float). vm_compute. exact I.
  - apply (Hno nan). vm_compute. tauto.
  - apply (Hno infinity). vm_compute. tauto.
Defined.

(* ================================================================== *)
(** * The remaining engine methods: what they write, what they leave  *)
(* ================================================================== *)

Section MoreMethodFacts.
Context {num : Type} `{Arith num} `{Guards num}.
Import Quaternion QuaternionOps.
Local Open Scope js_scope.

Implicit Types (h : heap num) (this q : ref).

Lemma multiply_result h this q w1 i1 j1 k1 w2 i2 j2 k2 :
  h !! this = Some (mkQuaternion [w1; i1; j1; k1]) ->
  h !! q = Some (mkQuaternion [w2; i2; j2; k2]) ->
  multiply this q h =
    Ok (tt, <[this := mkQuaternion
               [ w1 * w2 - i1 * i2 - j1 * j2 - k1 * k2;
                 w1 * i2 + i1 * w2 + j1 * k2 - k1 * j2;
                 w1 * j2 - i1 * k2 + j1 * w2 + k1 * i2;
                 w1 * k2 + i1 * j2 - j1 * i2 + k1 * w2 ]]> h).
Proof.
  intros Hthis Hq. unfold multiply.
  rewrite (bind_Ok _ _ _ _ _ (values_at _ _ _ Hq)).
  run Hthis. reflexivity.
Qed.

Lemma subtract_at h this q a0 a1 a2 a3 b0 b1 b2 b3 :
  h !! this = Some (mkQuaternion [a0; a1; a2; a3]) ->
  h !! q = Some (mkQuaternion [b0; b1; b2; b3]) ->
  subtract this q h =
    Ok (tt, <[this := mkQuaternion [a0 - b0; a1 - b1; a2 - b2; a3 - b3]]> h).
Proof.
  intros Hthis Hq. unfold subtract.
  rewrite (bind_Ok _ _ _ _ _ (values_at _ _ _ Hq)).
  run Hthis. reflexivity.
Qed.

Lemma divideByScalar_at h this w i j k a :
  h !! this = Some (mkQuaternion [w; i; j; k]) ->
  let d := if Math_abs a <? c1em10 then c1 else c1 / a in
  divideByScalar this a h =
    Ok (tt, <[this := mkQuaternion [w * d; i * d; j * d; k * d]]> h).
Proof. intros Hthis d. unfold divideByScalar. run Hthis. reflexivity. Qed.

Lemma addScalar_at h this w i j k a :
  h !! this = Some (mkQuaternion [w; i; j; k]) ->
  addScalar this a h =
    Ok (tt, if negb (js_isNaN a) && js_isFinite a
            then <[this := mkQuaternion [w + a; i; j; k]]> h else h).
Proof.
  intros Hthis. unfold addScalar.
  destruct (negb (js_isNaN a) && js_isFinite a); [| reflexivity].
  run Hthis. reflexivity.
Qed.

Lemma subtractScalar_at h this w i j k a :
  h !! this = Some (mkQuaternion [w; i; j; k]) ->
  subtractScalar this a h =
    Ok (tt, if negb (js_isNaN a) && js_isFinite a
            then <[this := mkQuaternion [w - a; i; j; k]]> h else h).
Proof.
  intros Hthis. unfold subtractScalar.
  destruct (negb (js_isNaN a) && js_isFinite a); [| reflexivity].
  run Hthis. reflexivity.
Qed.

(** Old objects survive an allocation. *)
Lemma lookup_grown h (o o' : TSMT_Quaternion num) r :
  h !! r = Some o -> (h ++ [o']) !! r = Some o.
Proof. apply lookup_app_l_Some. Qed.

(** X1.  [clone] returns a reference that did not exist before, to an
    object holding the receiver's four components, and leaves every object
    of the heap, the receiver included, as it was. *)
Theorem clone_is_a_fresh_copy h this w i j k :
  h !! this = Some (mkQuaternion [w; i; j; k]) ->
  exists (r : ref) (h' : heap num),
    clone this h = Ok (r, h')
    /\ h !! r = None
    /\ h' !! r = Some (mkQuaternion [w; i; j; k])
    /\ (forall r' o, h !! r' = Some o -> h' !! r' = Some o).
Proof.
  intros Hthis. eexists _, _. split; [apply (clone_at _ _ _ _ _ _ Hthis) |].
  split; [| split].
  - apply lookup_ge_None. lia.
  - apply lookup_fresh.
  - intros r' o Ho. apply lookup_grown, Ho.
Qed.

Lemma addTo_at h this q a0 a1 a2 a3 b0 b1 b2 b3 :
  h !! this = Some (mkQuaternion [a0; a1; a2; a3]) ->
  h !! q = Some (mkQuaternion [b0; b1; b2; b3]) ->
  addTo this q h =
    Ok (Datatypes.length h,
        h ++ [mkQuaternion [a0 + b0; a1 + b1; a2 + b2; a3 + b3]]).
Proof.
  intros Hthis Hq. unfold addTo.
  rewrite (bind_Ok _ _ _ _ _ (clone_at _ _ _ _ _ _ Hthis)).
  rewrite (bind_Ok _ _ _ _ _
             (add_at _ _ _ _ _ _ _ _ _ _ _ (lookup_fresh h _)
                (lookup_grown h _ _ _ Hq))).
  unfold ret. rewrite write_fresh. reflexivity.
Qed.

Lemma subtractFrom_at h this q a0 a1 a2 a3 b0 b1 b2 b3 :
  h !! this = Some (mkQuaternion [a0; a1; a2; a3]) ->
  h !! q = Some (mkQuaternion [b0; b1; b2; b3]) ->
  subtractFrom this q h =
    Ok (Datatypes.length h,
        h ++ [mkQuaternion [a0 - b0; a1 - b1; a2 - b2; a3 - b3]]).
Proof.
  intros Hthis Hq. unfold subtractFrom.
  rewrite (bind_Ok _ _ _ _ _ (clone_at _ _ _ _ _ _ Hthis)).
  rewrite (bind_Ok _ _ _ _ _
             (subtract_at _ _ _ _ _ _ _ _ _ _ _ (lookup_fresh h _)
                (lookup_grown h _ _ _ Hq))).
  unfold ret. rewrite write_fresh. reflexivity.
Qed.

Lemma multiplyInto_at h this q a0 a1 a2 a3 b0 b1 b2 b3 :
  h !! this = Some (mkQuaternion [a0; a1; a2; a3]) ->
  h !! q = Some (mkQuaternion [b0; b1; b2; b3]) ->
  multiplyInto this q h =
    Ok (Datatypes.length h,
        h ++ [mkQuaternion
                [ a0 * b0 - a1 * b1 - a2 * b2 - a3 * b3;
                  a0 * b1 + a1 * b0 + a2 * b3 - a3 * b2;
                  a0 * b2 - a1 * b3 + a2 * b0 + a3 * b1;
                  a0 * b3 + a1 * b2 - a2 * b1 + a3 * b0 ]]).
Proof.
  intros Hthis Hq. unfold multiplyInto.
  rewrite (bind_Ok _ _ _ _ _ (clone_at _ _ _ _ _ _ Hthis)).
  rewrite (bind_Ok _ _ _ _ _
             (multiply_result _ _ _ _ _ _ _ _ _ _ _ (lookup_fresh h _)
                (lookup_grown h _ _ _ Hq))).
  unfold ret. rewrite write_fresh. reflexivity.
Qed.

(** X2.  [addTo], [subtractFrom] and [multiplyInto] return a new object
    holding the sum, the difference and the Hamilton product; the heap they
    were called on is a prefix of the heap they leave, so neither operand
    changes, also when both are the same object. *)
Theorem binary_into_variants h this q a0 a1 a2 a3 b0 b1 b2 b3 :
  h !! this = Some (mkQuaternion [a0; a1; a2; a3]) ->
  h !! q = Some (mkQuaternion [b0; b1; b2; b3]) ->
  addTo this q h =
    Ok (Datatypes.length h,
        h ++ [mkQuaternion [a0 + b0; a1 + b1; a2 + b2; a3 + b3]])
  /\ subtractFrom this q h =
       Ok (Datatypes.length h,
           h ++ [mkQuaternion [a0 - b0; a1 - b1; a2 - b2; a3 - b3]])
  /\ multiplyInto this q h =
       Ok (Datatypes.length h,
           h ++ [mkQuaternion
                   [ a0 * b0 - a1 * b1 - a2 * b2 - a3 * b3;
                     a0 * b1 + a1 * b0 + a2 * b3 - a3 * b2;
                     a0 * b2 - a1 * b3 + a2 * b0 + a3 * b1;
                     a0 * b3 + a1 * b2 - a2 * b1 + a3 * b0 ]]).
Proof.
  intros Hthis Hq. split; [| split].
  - apply (addTo_at _ _ _ _ _ _ _ _ _ _ _ Hthis Hq).
  - apply (subtractFrom_at _ _ _ _ _ _ _ _ _ _ _ Hthis Hq).
  - apply (multiplyInto_at _ _ _ _ _ _ _ _ _ _ _ Hthis Hq).
Qed.

(** X3.  [inverse], [multiplyByScalarInto] and [divideByScalarInto] return
    a new object and leave the receiver as it was; [divideByScalarInto]
    divides by the scalar unless its magnitude is below 1e-10, where it
    multiplies by 1. *)
Theorem unary_into_variants h this w i j k a :
  h !! this = Some (mkQuaternion [w; i; j; k]) ->
  let l := w * w + i * i + j * j + k * k in
  let d := if Math_abs l <? c1em10 then c1 else c1 / l in
  let r := if Math_abs a <? c1em10 then c1 else c1 / a in
  inverse this h =
    Ok (Datatypes.length h,
        h ++ [mkQuaternion [- w * d; - i * d; - j * d; k * d]])
  /\ multiplyByScalarInto this a h =
       Ok (Datatypes.length h, h ++ [mkQuaternion [w * a; i * a; j * a; k * a]])
  /\ divideByScalarInto this a h =
       Ok (Datatypes.length h, h ++ [mkQuaternion [w * r; i * r; j * r; k * r]]).
Proof.
  intros Hthis l d r.
  pose proof (lookup_fresh h (mkQuaternion [w; i; j; k])) as Hs.
  split; [| split].
  - unfold inverse.
    rewrite (bind_Ok _ _ _ _ _ (clone_at _ _ _ _ _ _ Hthis)).
    rewrite (bind_Ok _ _ _ _ _ (invert_at _ _ _ _ _ _ Hs)).
    unfold ret. rewrite write_fresh. reflexivity.
  - unfold multiplyByScalarInto.
    rewrite (bind_Ok _ _ _ _ _ (clone_at _ _ _ _ _ _ Hthis)).
    rewrite (bind_Ok _ _ _ _ _ (multiplyByScalar_at _ _ _ _ _ _ a Hs)).
    unfold ret. rewrite write_fresh. reflexivity.
  - unfold divideByScalarInto.
    rewrite (bind_Ok _ _ _ _ _ (clone_at _ _ _ _ _ _ Hthis)).
    rewrite (bind_Ok _ _ _ _ _ (divideByScalar_at _ _ _ _ _ _ a Hs)).
    unfold ret. rewrite write_fresh. reflexivity.
Qed.

End MoreMethodFacts.

Section DivideAndArrays.
Context {num : Type} `{Arith num} `{Trig num}.
Import Quaternion QuaternionOps.
Local Open Scope js_scope.

Implicit Types (h : heap num) (this q : ref).

Lemma divide_at h this q a0 a1 a2 a3 b0 b1 b2 b3 :
  h !! this = Some (mkQuaternion [a0; a1; a2; a3]) ->
  h !! q = Some (mkQuaternion [b0; b1; b2; b3]) ->
  let l := b0 * b0 + b1 * b1 + b2 * b2 + b3 * b3 in
  let d := if Math_abs l <? c1em10 then c1 else c1 / l in
  let n0 := - b0 * d in
  let n1 := - b1 * d in
  let n2 := - b2 * d in
  let n3 := b3 * d in
  divide this q h =
    Ok (tt, <[this := mkQuaternion
               [ a0 * n0 - a1 * n1 - a2 * n2 - a3 * n3;
                 a0 * n1 + a1 * n0 + a2 * n3 - a3 * n2;
                 a0 * n2 - a1 * n3 + a2 * n0 + a3 * n1;
                 a0 * n3 + a1 * n2 - a2 * n1 + a3 * n0 ]]>
              (h ++ [mkQuaternion [n0; n1; n2; n3]])).
Proof.
  intros Hthis Hq l d n0 n1 n2 n3.
  pose proof (lookup_fresh h (mkQuaternion [n0; n1; n2; n3])) as Hinv.
  pose proof (lookup_old h (mkQuaternion [n0; n1; n2; n3]) _ _ Hthis) as Hthis'.
  unfold divide.
  rewrite (bind_Ok _ _ _ _ _ (clone_at _ _ _ _ _ _ Hq)).
  rewrite (bind_Ok _ _ _ _ _
             (invert_at _ _ _ _ _ _ (lookup_fresh h (mkQuaternion [b0; b1; b2; b3])))).
  rewrite write_fresh.
  exact (multiply_result _ _ _ _ _ _ _ _ _ _ _ Hthis' Hinv).
Qed.

(** X4.  [divide] multiplies the receiver by the inverse [invert] computes
    of a copy of the argument: the copy is the one object it allocates, and
    the argument itself, when it is not the receiver, is left as it was. *)
Theorem divide_spares_its_argument h this q a0 a1 a2 a3 b0 b1 b2 b3 :
  h !! this = Some (mkQuaternion [a0; a1; a2; a3]) ->
  h !! q = Some (mkQuaternion [b0; b1; b2; b3]) ->
  let l := b0 * b0 + b1 * b1 + b2 * b2 + b3 * b3 in
  let d := if Math_abs l <? c1em10 then c1 else c1 / l in
  let n0 := - b0 * d in
  let n1 := - b1 * d in
  let n2 := - b2 * d in
  let n3 := b3 * d in
  exists h' : heap num,
    divide this q h = Ok (tt, h')
    /\ Datatypes.length h' = S (Datatypes.length h)
    /\ h' !! this =
         Some (mkQuaternion
                 [ a0 * n0 - a1 * n1 - a2 * n2 - a3 * n3;
                   a0 * n1 + a1 * n0 + a2 * n3 - a3 * n2;
                   a0 * n2 - a1 * n3 + a2 * n0 + a3 * n1;
                   a0 * n3 + a1 * n2 - a2 * n1 + a3 * n0 ])
    /\ (this <> q -> h' !! q = Some (mkQuaternion [b0; b1; b2; b3])).
Proof.
  intros Hthis Hq l d n0 n1 n2 n3.
  pose proof (lookup_old h (mkQuaternion [n0; n1; n2; n3]) _ _ Hthis) as Hthis'.
  eexists. split; [apply (divide_at _ _ _ _ _ _ _ _ _ _ _ Hthis Hq) |].
  split; [| split].
  - rewrite length_insert, length_app. cbn. lia.
  - apply (lookup_written _ _ _ _ Hthis').
  - intros Hne. rewrite lookup_other by exact Hne. apply lookup_old, Hq.
Qed.

(** X5.  [fromArray] with four values or more loads the first four, in
    the order w, i, j, k, and ignores the others; loading what [toArray]
    gives for another quaternion copies its components. *)
Theorem fromArray_takes_the_first_four h this q w i j k a b c d rest b0 b1 b2 b3 :
  h !! this = Some (mkQuaternion [w; i; j; k]) ->
  h !! q = Some (mkQuaternion [b0; b1; b2; b3]) ->
  fromArray this (a :: b :: c :: d :: rest) h =
    Ok (tt, <[this := mkQuaternion [a; b; c; d]]> h)
  /\ (v <- toArray q ;; fromArray this v) h =
       Ok (tt, <[this := mkQuaternion [b0; b1; b2; b3]]> h).
Proof.
  intros Hthis Hq. split.
  - unfold fromArray.
    cbn [Datatypes.length Nat.ltb Nat.leb Nat.eqb].
    change (arr_get (a :: b :: c :: d :: rest) 0) with a.
    change (arr_get (a :: b :: c :: d :: rest) 1) with b.
    change (arr_get (a :: b :: c :: d :: rest) 2) with c.
    change (arr_get (a :: b :: c :: d :: rest) 3) with d.
    run Hthis. reflexivity.
  - unfold toArray.
    rewrite (bind_Ok _ _ _ _ _ (values_at _ _ _ Hq)). cbn [_q].
    apply (fromArray_four _ _ _ _ _ _ _ _ _ _ Hthis).
Qed.

(** X6.  Whatever branch it takes, [slerp] returns a new object of four
    components and changes no object of the heap it was called on: neither
    operand is touched. *)
Theorem slerp_touches_no_operand h this q a0 a1 a2 a3 b0 b1 b2 b3 t :
  h !! this = Some (mkQuaternion [a0; a1; a2; a3]) ->
  h !! q = Some (mkQuaternion [b0; b1; b2; b3]) ->
  exists v0 v1 v2 v3 : num,
    slerp this q t h =
      Ok (Datatypes.length h, h ++ [mkQuaternion [v0; v1; v2; v3]]).
Proof.
  intros Hthis Hq. unfold slerp.
  rewrite (bind_Ok _ _ _ _ _ (clone_at _ _ _ _ _ _ Hthis)).
  pose proof (lookup_old h (mkQuaternion [a0; a1; a2; a3]) _ _ Hthis) as Hthis'.
  pose proof (lookup_old h (mkQuaternion [a0; a1; a2; a3]) _ _ Hq) as Hq'.
  rewrite (bind_Ok _ _ _ _ _ (get_q_at _ _ _ 0 Hthis')).
  rewrite (bind_Ok _ _ _ _ _ (get_q_at _ _ _ 2 Hthis')).
  rewrite (bind_Ok _ _ _ _ _ (get_q_at _ _ _ 2 Hthis')).
  rewrite (bind_Ok _ _ _ _ _ (get_q_at _ _ _ 3 Hthis')).
  rewrite (bind_Ok _ _ _ _ _ (values_at _ _ _ Hq')).
  cbn [_q]. autorewrite with arr.
  destruct (Math_abs _ >=? c1).
  - rewrite (bind_Ok _ _ _ _ _
               (fromArray_four _ _ _ _ _ _ a2 a2 a3 a0 (lookup_fresh h _))).
    unfold ret. rewrite write_fresh. eauto.
  - destruct (_ <? c0); cbv zeta iota beta;
      destruct (Math_abs _ <? c0_001);
      erewrite (bind_Ok _ _ _ _ _
                  (fromArray_four _ _ _ _ _ _ _ _ _ _ (lookup_fresh h _)));
      unfold ret; rewrite write_fresh; eauto.
Qed.

End DivideAndArrays.

(* ================================================================== *)
(** * Guards and exact identities on binary64                         *)
(* ================================================================== *)

Section Binary64Facts.
Import Quaternion QuaternionOps.

Implicit Types (h : heap float) (this q : ref).

(** Multiplication and addition of doubles are commutative, bit for bit. *)
Lemma float_mul_comm (x y : float) : (x * y)%float = (y * x)%float.
Proof.
  apply Prim2SF_inj. rewrite !mul_spec.
  destruct (Prim2SF x) as [sx | sx | | sx mx ex],
           (Prim2SF y) as [sy | sy | | sy my ey];
    cbn [SF64mul SFmul]; rewrite ?(xorb_comm sx sy); try reflexivity.
  rewrite (Pos.mul_comm mx my), (Z.add_comm ex ey). reflexivity.
Qed.

Lemma float_add_comm (x y : float) : (x + y)%float = (y + x)%float.
Proof.
  apply Prim2SF_inj. rewrite !add_spec.
  destruct (Prim2SF x) as [sx | sx | | sx mx ex],
           (Prim2SF y) as [sy | sy | | sy my ey];
    cbn [SF64add SFadd]; try reflexivity;
    try (destruct sx, sy; reflexivity).
  rewrite (Z.min_comm ex ey).
  rewrite (Z.add_comm (cond_Zopp sx _)). reflexivity.
Qed.

(** X7.  On binary64 [dot] is symmetric and [addTo] commutes, bit for
    bit: [a.dot(b)] is [b.dot(a)], and [a.addTo(b)] and [b.addTo(a)] return
    objects with the same components. *)
Theorem dot_and_addTo_commute h this q a0 a1 a2 a3 b0 b1 b2 b3 :
  h !! this = Some (mkQuaternion [a0; a1; a2; a3]) ->
  h !! q = Some (mkQuaternion [b0; b1; b2; b3]) ->
  eval (dot this q) h = eval (dot q this) h
  /\ eval (s <- addTo this q ;; values s)%js h =
     eval (s <- addTo q this ;; values s)%js h.
Proof.
  intros Hthis Hq. split.
  - unfold eval.
    rewrite (dot_at _ _ _ _ _ _ _ _ _ _ _ Hthis Hq),
            (dot_at _ _ _ _ _ _ _ _ _ _ _ Hq Hthis).
    cbn [num_mul num_add Float64.arith].
    rewrite (float_mul_comm b0 a0), (float_mul_comm b1 a1),
            (float_mul_comm b2 a2), (float_mul_comm b3 a3).
    reflexivity.
  - pose proof (addTo_at _ _ _ _ _ _ _ _ _ _ _ Hthis Hq) as H1.
    pose proof (addTo_at _ _ _ _ _ _ _ _ _ _ _ Hq Hthis) as H2.
    unfold eval.
    rewrite (bind_Ok _ _ _ _ _ H1), (bind_Ok _ _ _ _ _ H2).
    rewrite (values_at _ _ _ (lookup_fresh h _)),
            (values_at _ _ _ (lookup_fresh h _)).
    cbn [_q num_add Float64.arith].
    rewrite (float_add_comm b0 a0), (float_add_comm b1 a1),
            (float_add_comm b2 a2), (float_add_comm b3 a3).
    reflexivity.
Qed.

End Binary64Facts.

Section Binary64Guards.
Import Quaternion QuaternionOps.
Local Open Scope float_scope.

Implicit Types (h : heap float) (this q : ref).

Lemma guard_is_accepts (a : float) :
  negb (js_isNaN a) && js_isFinite a = Holder.accepts a.
Proof. reflexivity. Qed.

(** X8.  The scalar variants change the real component only, and only
    for a finite scalar: with a NaN or an infinity [addScalar] and
    [subtractScalar] leave the heap as it was and [addScalarTo] returns a
    plain copy. *)
Theorem scalar_variants_guard h this w i j k a :
  h !! this = Some (mkQuaternion [w; i; j; k]) ->
  (Holder.finite a ->
     addScalar this a h = Ok (tt, <[this := mkQuaternion [w + a; i; j; k]]> h)
     /\ subtractScalar this a h =
          Ok (tt, <[this := mkQuaternion [w - a; i; j; k]]> h)
     /\ addScalarTo this a h =
          Ok (Datatypes.length h, h ++ [mkQuaternion [w + a; i; j; k]])
     /\ subractScalarFrom this a h =
          Ok (Datatypes.length h, h ++ [mkQuaternion [w - a; i; j; k]]))
  /\ (~ Holder.finite a ->
        addScalar this a h = Ok (tt, h)
        /\ subtractScalar this a h = Ok (tt, h)
        /\ addScalarTo this a h =
             Ok (Datatypes.length h, h ++ [mkQuaternion [w; i; j; k]])
        /\ subractScalarFrom this a h =
             Ok (Datatypes.length h, h ++ [mkQuaternion [w; i; j; k]])).
Proof.
  intros Hthis.
  pose proof (lookup_fresh h (mkQuaternion [w; i; j; k])) as Hs.
  assert (Hcases :
    forall b : bool, Holder.accepts a = b ->
      addScalar this a h =
        Ok (tt, if b then <[this := mkQuaternion [w + a; i; j; k]]> h else h)
      /\ subtractScalar this a h =
           Ok (tt, if b then <[this := mkQuaternion [w - a; i; j; k]]> h else h)
      /\ addScalarTo this a h =
           Ok (Datatypes.length h,
               h ++ [mkQuaternion [if b then w + a else w; i; j; k]])
      /\ subractScalarFrom this a h =
           Ok (Datatypes.length h,
               h ++ [mkQuaternion [if b then w - a else w; i; j; k]])).
  { intros b Hb. split; [| split; [| split]].
    - rewrite (addScalar_at _ _ _ _ _ _ a Hthis), guard_is_accepts, Hb.
      reflexivity.
    - rewrite (subtractScalar_at _ _ _ _ _ _ a Hthis), guard_is_accepts, Hb.
      reflexivity.
    - unfold addScalarTo.
      rewrite (bind_Ok _ _ _ _ _ (clone_at _ _ _ _ _ _ Hthis)).
      rewrite guard_is_accepts, Hb. destruct b.
      + rewrite (bind_Ok _ _ _ _ _ (addScalar_at _ _ _ _ _ _ a Hs)).
        rewrite guard_is_accepts, Hb. unfold ret. rewrite write_fresh.
        reflexivity.
      + reflexivity.
    - unfold subractScalarFrom.
      rewrite (bind_Ok _ _ _ _ _ (clone_at _ _ _ _ _ _ Hthis)).
      rewrite (bind_Ok _ _ _ _ _ (subtractScalar_at _ _ _ _ _ _ a Hs)).
      rewrite guard_is_accepts, Hb. unfold ret. destruct b.
      + rewrite write_fresh. reflexivity.
      + reflexivity. }
  split.
  - intros Hfin. apply accepts_finite in Hfin. apply (Hcases true Hfin).
  - intros Hnot. apply (Hcases false).
    destruct (Holder.accepts a) eqn:Ha; [| reflexivity].
    apply accepts_finite in Ha. contradiction.
Qed.

(** X9.  [divideByScalar] by a scalar of magnitude below 1e-10 leaves the
    quaternion unaltered, bit for bit, as its documentation says; so does
    [divideByScalarInto] for the copy it returns. *)
Theorem divideByScalar_near_zero h this w i j k a :
  h !! this = Some (mkQuaternion [w; i; j; k]) ->
  (PrimFloat.abs a <? 0x1.b7cdfd9d7bdbbp-34) = true ->
  divideByScalar this a h = Ok (tt, h)
  /\ divideByScalarInto this a h =
       Ok (Datatypes.length h, h ++ [mkQuaternion [w; i; j; k]]).
Proof.
  intros Hthis Hlt.
  assert (Hd : forall g r x y z t,
             g !! r = Some (mkQuaternion [x; y; z; t]) ->
             divideByScalar r a g =
               Ok (tt, <[r := mkQuaternion [x; y; z; t]]> g)).
  { intros g r x y z t Hr.
    rewrite (divideByScalar_at _ _ _ _ _ _ a Hr).
    cbn [num_mul num_div Math_abs num_ltb c1 c1em10 Float64.arith].
    rewrite Hlt, !float_mul_one. reflexivity. }
  split.
  - rewrite (Hd _ _ _ _ _ _ Hthis). rewrite list_insert_id by exact Hthis.
    reflexivity.
  - unfold divideByScalarInto.
    rewrite (bind_Ok _ _ _ _ _ (clone_at _ _ _ _ _ _ Hthis)).
    rewrite (bind_Ok _ _ _ _ _ (Hd _ _ _ _ _ _ (lookup_fresh h _))).
    unfold ret. rewrite write_fresh. reflexivity.
Qed.

End Binary64Guards.

Section Objects.
Context {num : Type} `{Arith num} `{Guards num}.
Import Quaternion QuaternionOps.
Local Open Scope js_scope.

Implicit Types (h : heap num) (this q : ref).

(** One property of [fromObject]: the component is overwritten by what is
    chosen for it, which is the component itself when the property is
    missing or NaN. *)
Lemma fromObject_stage h this (p : option num) (n : nat) x0 x1 x2 x3 :
  (n < 4)%nat ->
  h !! this = Some (mkQuaternion [x0; x1; x2; x3]) ->
  match p with
  | Some v =>
      if js_isNaN v then old <- get_q this n ;; set_q this n old
      else set_q this n v
  | None => ret tt
  end h =
  Ok (tt, <[this := mkQuaternion
             (arr_set [x0; x1; x2; x3] n
                (chosen p (arr_get [x0; x1; x2; x3] n)))]> h).
Proof.
  intros Hn Hthis. destruct p as [v |]; cbn [chosen].
  - destruct (js_isNaN v).
    + rewrite (bind_Ok _ _ _ _ _ (get_q_at _ _ _ n Hthis)).
      apply (set_q_at _ _ _ _ _ Hthis).
    + apply (set_q_at _ _ _ _ _ Hthis).
  - unfold ret. do 2 f_equal. symmetry. apply list_insert_id.
    etransitivity; [exact Hthis |]. do 2 f_equal.
    do 4 (destruct n as [| n]; [reflexivity |]). lia.
Qed.

Lemma fromObject_at h this (o : gmap string num) w i j k :
  h !! this = Some (mkQuaternion [w; i; j; k]) ->
  fromObject this o h =
    Ok (tt, <[this := mkQuaternion
               [ chosen (o !! "w"%string) w; chosen (o !! "i"%string) i;
                 chosen (o !! "j"%string) j; chosen (o !! "k"%string) k ]]> h).
Proof.
  intros Hthis. unfold fromObject.
  rewrite (bind_Ok _ _ _ _ _
             (fromObject_stage h this (o !! "w"%string) 0 _ _ _ _ ltac:(lia) Hthis)).
  autorewrite with arr.
  rewrite (bind_Ok _ _ _ _ _
             (fromObject_stage _ this (o !! "i"%string) 1 _ _ _ _ ltac:(lia)
                (lookup_written _ _ _ _ Hthis))).
  autorewrite with arr. rewrite list_insert_insert_eq.
  rewrite (bind_Ok _ _ _ _ _
             (fromObject_stage _ this (o !! "j"%string) 2 _ _ _ _ ltac:(lia)
                (lookup_written _ _ _ _ Hthis))).
  autorewrite with arr. rewrite list_insert_insert_eq.
  rewrite (fromObject_stage _ this (o !! "k"%string) 3 _ _ _ _ ltac:(lia)
             (lookup_written _ _ _ _ Hthis)).
  autorewrite with arr. rewrite list_insert_insert_eq. reflexivity.
Qed.

Lemma toObject_at h this w i j k :
  h !! this = Some (mkQuaternion [w; i; j; k]) ->
  toObject this h =
    Ok (<["w"%string := w]> (<["i"%string := i]>
          (<["j"%string := j]> (<["k"%string := k]> ∅))), h).
Proof. intros Hthis. unfold toObject. run Hthis. reflexivity. Qed.

(** X10.  [fromObject] overwrites a component only by an own property
    that is not NaN: a missing property and a NaN property both leave the
    component as it was.  Hence [p.fromObject(q.toObject())] copies into p
    the components of q that are not NaN, and [fromObject] of an object
    without any of the four properties changes nothing. *)
Theorem fromObject_keeps_what_is_missing h this q (o : gmap string num)
    w i j k b0 b1 b2 b3 :
  h !! this = Some (mkQuaternion [w; i; j; k]) ->
  h !! q = Some (mkQuaternion [b0; b1; b2; b3]) ->
  fromObject this o h =
    Ok (tt, <[this := mkQuaternion
               [ chosen (o !! "w"%string) w; chosen (o !! "i"%string) i;
                 chosen (o !! "j"%string) j; chosen (o !! "k"%string) k ]]> h)
  /\ (o' <- toObject q ;; fromObject this o') h =
       Ok (tt, <[this := mkQuaternion
                  [ if js_isNaN b0 then w else b0; if js_isNaN b1 then i else b1;
                    if js_isNaN b2 then j else b2; if js_isNaN b3 then k else b3 ]]> h)
  /\ (o !! "w"%string = None -> o !! "i"%string = None ->
       o !! "j"%string = None -> o !! "k"%string = None ->
       fromObject this o h = Ok (tt, h)).
Proof.
  intros Hthis Hq. split; [| split].
  - apply (fromObject_at _ _ _ _ _ _ _ Hthis).
  - rewrite (bind_Ok _ _ _ _ _ (toObject_at _ _ _ _ _ _ Hq)).
    rewrite (fromObject_at _ _ _ _ _ _ _ Hthis).
    repeat (first [ rewrite lookup_insert_eq
                  | rewrite lookup_insert_ne by discriminate ]).
    reflexivity.
  - intros Hw Hi Hj Hk.
    rewrite (fromObject_at _ _ _ _ _ _ _ Hthis), Hw, Hi, Hj, Hk.
    cbn [chosen]. rewrite list_insert_id by exact Hthis. reflexivity.
Qed.

End Objects.

(* ================================================================== *)
(** * The value holder and the dispatcher                             *)
(* ================================================================== *)

Section HolderMore.
Import Holder.

Lemma kept_finite (v : float) : finite v -> kept v = v.
Proof. intros Hv. apply accepts_finite in Hv. unfold kept. rewrite Hv. reflexivity. Qed.

Lemma kept_not_finite (v : float) : ~ finite v -> kept v = 0%float.
Proof.
  intros Hv. unfold kept. destruct (accepts v) eqn:Ha; [| reflexivity].
  apply accepts_finite in Ha. contradiction.
Qed.

Lemma finite_kept (v : float) : finite (kept v).
Proof.
  unfold kept. destruct (accepts v) eqn:Ha.
  - apply accepts_finite, Ha.
  - vm_compute. exact I.
Qed.

Lemma new_Q_kept wValue iValue jValue kValue _id :
  new_Q wValue iValue jValue kValue _id =
    Ok (mkQ (default EmptyString _id)
            (kept wValue) (kept iValue) (kept jValue) (kept kValue)).
Proof.
  unfold new_Q, constructor, bind, ret, set_w, set_i, set_j, set_k, set_id,
    kept, initial.
  fold (accepts wValue) (accepts iValue) (accepts jValue) (accepts kValue).
  destruct (accepts wValue), (accepts iValue), (accepts jValue),
    (accepts kValue), _id; reflexivity.
Qed.

Lemma reachable_finite (q : Q) : reachable q -> all_finite q.
Proof.
  induction 1 as [wv iv jv kv oid q Hnew | q v q' _ IH Hs | q v q' _ IH Hs
                 | q v q' _ IH Hs | q v q' _ IH Hs | q v q' _ IH Hs].
  - destruct (new_Q_finite wv iv jv kv oid) as (q0 & Hq0 & Hfin).
    rewrite Hnew in Hq0. injection Hq0 as ->. exact Hfin.
  - exact (set_w_keeps _ _ _ Hs IH).
  - exact (set_i_keeps _ _ _ Hs IH).
  - exact (set_j_keeps _ _ _ Hs IH).
  - exact (set_k_keeps _ _ _ Hs IH).
  - exact (set_id_keeps _ _ _ Hs IH).
Qed.

Lemma clone_of_finite (q : Q) : all_finite q -> clone q = Ok q.
Proof.
  intros (Hw & Hi & Hj & Hk). unfold clone. rewrite new_Q_kept.
  rewrite (kept_finite _ Hw), (kept_finite _ Hi), (kept_finite _ Hj),
    (kept_finite _ Hk).
  destruct q; reflexivity.
Qed.

(** X16.  [new Q] keeps each argument that is a finite number and puts 0
    in the place of each NaN or infinite argument; the id is the one given,
    or the empty string. *)
Theorem constructor_zeroes_what_is_not_finite wValue iValue jValue kValue _id :
  new_Q wValue iValue jValue kValue _id =
    Ok (mkQ (default EmptyString _id)
            (kept wValue) (kept iValue) (kept jValue) (kept kValue))
  /\ (forall v, finite v -> kept v = v)
  /\ (forall v, ~ finite v -> kept v = 0%float).
Proof.
  split; [apply new_Q_kept | split].
  - apply kept_finite.
  - apply kept_not_finite.
Qed.

(** X17.  [clone] of an instance a caller can hold returns an instance
    with the same id and the same four components. *)
Theorem clone_reproduces (q : Q) : reachable q -> clone q = Ok q.
Proof. intros Hq. apply clone_of_finite, reachable_finite, Hq. Qed.

End HolderMore.

Section DispatcherFacts.
Import Quaternion.
Local Open Scope float_scope.

Implicit Types (h : heap float).

(** The two engines after the operands are loaded. *)
Lemma QCalc_loaded h (q1 q2 : Holder.Q) (k : St (heap float) Holder.Q) :
  QCalc.ready h ->
  exists h1 : heap float,
    (fromArray QCalc.Q1
       [Holder.w q1; Holder.i q1; Holder.j q1; Holder.k q1] ;;
     fromArray QCalc.Q2
       [Holder.w q2; Holder.i q2; Holder.j q2; Holder.k q2] ;; k)%js h = k h1
    /\ h1 !! QCalc.Q1 =
         Some (mkQuaternion
                 [Holder._w q1; Holder._i q1; Holder._j q1; Holder._k q1])
    /\ h1 !! QCalc.Q2 =
         Some (mkQuaternion
                 [Holder._w q2; Holder._i q2; Holder._j q2; Holder._k q2])
    /\ Datatypes.length h1 = Datatypes.length h.
Proof.
  intros [(a & b & c & d & H1) (a' & b' & c' & d' & H2)].
  eexists. split; [| split; [| split]].
  - rewrite (bind_Ok _ _ _ _ _ (fromArray_four _ _ _ _ _ _ _ _ _ _ H1)).
    assert (H2' : <[QCalc.Q1 := mkQuaternion
                     [Holder.w q1; Holder.i q1; Holder.j q1; Holder.k q1]]> h
                  !! QCalc.Q2 = Some (mkQuaternion [a'; b'; c'; d']))
      by (rewrite lookup_other by discriminate; exact H2).
    rewrite (bind_Ok _ _ _ _ _ (fromArray_four _ _ _ _ _ _ _ _ _ _ H2')).
    reflexivity.
  - rewrite lookup_other by discriminate. apply (lookup_written _ _ _ _ H1).
  - eapply lookup_written. rewrite lookup_other by discriminate. exact H2.
  - rewrite !length_insert. reflexivity.
Qed.

Lemma ready_after (h' : heap float) a b c d a' b' c' d' :
  h' !! QCalc.Q1 = Some (mkQuaternion [a; b; c; d]) ->
  h' !! QCalc.Q2 = Some (mkQuaternion [a'; b'; c'; d']) ->
  QCalc.ready h'.
Proof. intros H1 H2. split; eauto 10. Qed.

Lemma wrap_at h (a b c d : float) :
  QCalc.wrap [a; b; c; d] h =
    Ok (Holder.mkQ EmptyString (kept a) (kept b) (kept c) (kept d), h).
Proof.
  unfold QCalc.wrap, lift. autorewrite with arr.
  rewrite new_Q_kept. reflexivity.
Qed.

Lemma QCalc_add_at h (q1 q2 : Holder.Q) :
  QCalc.ready h ->
  exists h' : heap float,
    QCalc.add q1 q2 h =
      Ok (Holder.mkQ EmptyString
            (kept (Holder._w q1 + Holder._w q2))
            (kept (Holder._i q1 + Holder._i q2))
            (kept (Holder._j q1 + Holder._j q2))
            (kept (Holder._k q1 + Holder._k q2)), h')
    /\ QCalc.ready h'.
Proof.
  intros Hr. unfold QCalc.add.
  destruct (QCalc_loaded h q1 q2
              (Quaternion.add QCalc.Q1 QCalc.Q2 ;;
               values <- toArray QCalc.Q1 ;; QCalc.wrap values)%js Hr)
    as (h1 & -> & H1 & H2 & _).
  rewrite (bind_Ok _ _ _ _ _ (add_at _ _ _ _ _ _ _ _ _ _ _ H1 H2)).
  unfold toArray.
  rewrite (bind_Ok _ _ _ _ _ (values_at _ _ _ (lookup_written _ _ _ _ H1))).
  cbn [_q]. rewrite wrap_at. eexists. split; [reflexivity |].
  eapply ready_after.
  - apply (lookup_written _ _ _ _ H1).
  - rewrite lookup_other by discriminate. exact H2.
Qed.

Lemma QCalc_subtract_at h (q1 q2 : Holder.Q) :
  QCalc.ready h ->
  exists h' : heap float,
    QCalc.subtract q1 q2 h =
      Ok (Holder.mkQ EmptyString
            (kept (Holder._w q1 - Holder._w q2))
            (kept (Holder._i q1 - Holder._i q2))
            (kept (Holder._j q1 - Holder._j q2))
            (kept (Holder._k q1 - Holder._k q2)), h')
    /\ QCalc.ready h'.
Proof.
  intros Hr. unfold QCalc.subtract.
  destruct (QCalc_loaded h q1 q2
              (QuaternionOps.subtract QCalc.Q1 QCalc.Q2 ;;
               values <- toArray QCalc.Q1 ;; QCalc.wrap values)%js Hr)
    as (h1 & -> & H1 & H2 & _).
  rewrite (bind_Ok _ _ _ _ _ (subtract_at _ _ _ _ _ _ _ _ _ _ _ H1 H2)).
  unfold toArray.
  rewrite (bind_Ok _ _ _ _ _ (values_at _ _ _ (lookup_written _ _ _ _ H1))).
  cbn [_q]. rewrite wrap_at. eexists. split; [reflexivity |].
  eapply ready_after.
  - apply (lookup_written _ _ _ _ H1).
  - rewrite lookup_other by discriminate. exact H2.
Qed.

Lemma QCalc_multiply_at h (q1 q2 : Holder.Q) :
  QCalc.ready h ->
  let w1 := Holder._w q1 in let i1 := Holder._i q1 in
  let j1 := Holder._j q1 in let k1 := Holder._k q1 in
  let w2 := Holder._w q2 in let i2 := Holder._i q2 in
  let j2 := Holder._j q2 in let k2 := Holder._k q2 in
  exists h' : heap float,
    QCalc.multiply q1 q2 h =
      Ok (Holder.mkQ EmptyString
            (kept (w1 * w2 - i1 * i2 - j1 * j2 - k1 * k2))
            (kept (w1 * i2 + i1 * w2 + j1 * k2 - k1 * j2))
            (kept (w1 * j2 - i1 * k2 + j1 * w2 + k1 * i2))
            (kept (w1 * k2 + i1 * j2 - j1 * i2 + k1 * w2)), h')
    /\ QCalc.ready h'.
Proof.
  intros Hr w1 i1 j1 k1 w2 i2 j2 k2. unfold QCalc.multiply.
  destruct (QCalc_loaded h q1 q2
              (Quaternion.multiply QCalc.Q1 QCalc.Q2 ;;
               values <- toArray QCalc.Q1 ;; QCalc.wrap values)%js Hr)
    as (h1 & -> & H1 & H2 & _).
  rewrite (bind_Ok _ _ _ _ _ (multiply_result _ _ _ _ _ _ _ _ _ _ _ H1 H2)).
  unfold toArray.
  rewrite (bind_Ok _ _ _ _ _ (values_at _ _ _ (lookup_written _ _ _ _ H1))).
  cbn [_q]. rewrite wrap_at. eexists. split; [reflexivity |].
  eapply ready_after.
  - apply (lookup_written _ _ _ _ H1).
  - rewrite lookup_other by discriminate. exact H2.
Qed.

End DispatcherFacts.

Section DispatcherTheorems.
Import Quaternion.
Local Open Scope float_scope.

Lemma QCalc_divide_at (h : heap float) (q1 q2 : Holder.Q) :
  QCalc.ready h ->
  let a0 := Holder._w q1 in let a1 := Holder._i q1 in
  let a2 := Holder._j q1 in let a3 := Holder._k q1 in
  let b0 := Holder._w q2 in let b1 := Holder._i q2 in
  let b2 := Holder._j q2 in let b3 := Holder._k q2 in
  let l := b0 * b0 + b1 * b1 + b2 * b2 + b3 * b3 in
  let d := if PrimFloat.abs l <? 0x1.b7cdfd9d7bdbbp-34 then 1 else 1 / l in
  let n0 := - b0 * d in
  let n1 := - b1 * d in
  let n2 := - b2 * d in
  let n3 := b3 * d in
  exists h' : heap float,
    QCalc.divide q1 q2 h =
      Ok (Holder.mkQ EmptyString
            (kept (a0 * n0 - a1 * n1 - a2 * n2 - a3 * n3))
            (kept (a0 * n1 + a1 * n0 + a2 * n3 - a3 * n2))
            (kept (a0 * n2 - a1 * n3 + a2 * n0 + a3 * n1))
            (kept (a0 * n3 + a1 * n2 - a2 * n1 + a3 * n0)), h')
    /\ QCalc.ready h'.
Proof.
  intros Hr a0 a1 a2 a3 b0 b1 b2 b3 l d n0 n1 n2 n3. unfold QCalc.divide.
  destruct (QCalc_loaded h q1 q2
              (Quaternion.divide QCalc.Q1 QCalc.Q2 ;;
               values <- toArray QCalc.Q1 ;; QCalc.wrap values)%js Hr)
    as (h1 & -> & H1 & H2 & _).
  rewrite (bind_Ok _ _ _ _ _ (divide_at _ _ _ _ _ _ _ _ _ _ _ H1 H2)).
  pose proof (lookup_old h1 (mkQuaternion [n0; n1; n2; n3]) _ _ H1) as H1'.
  pose proof (lookup_old h1 (mkQuaternion [n0; n1; n2; n3]) _ _ H2) as H2'.
  unfold toArray.
  rewrite (bind_Ok _ _ _ _ _ (values_at _ _ _ (lookup_written _ _ _ _ H1'))).
  cbn [_q]. rewrite wrap_at. eexists. split; [reflexivity |].
  eapply ready_after.
  - apply (lookup_written _ _ _ _ H1').
  - rewrite lookup_other by discriminate. exact H2'.
Qed.

(** X18.  [QCalc.add] and [QCalc.subtract] return a new holder with an
    empty id whose components are the componentwise sums and differences
    in binary64, and 0 wherever the sum or difference is not finite; the
    result does not depend on what the two static engines held. *)
Theorem QCalc_sums (h : heap float) (q1 q2 : Holder.Q) :
  QCalc.ready h ->
  eval (QCalc.add q1 q2) h =
    Ok (Holder.mkQ EmptyString
          (kept (Holder._w q1 + Holder._w q2))
          (kept (Holder._i q1 + Holder._i q2))
          (kept (Holder._j q1 + Holder._j q2))
          (kept (Holder._k q1 + Holder._k q2)))
  /\ eval (QCalc.subtract q1 q2) h =
       Ok (Holder.mkQ EmptyString
             (kept (Holder._w q1 - Holder._w q2))
             (kept (Holder._i q1 - Holder._i q2))
             (kept (Holder._j q1 - Holder._j q2))
             (kept (Holder._k q1 - Holder._k q2)))
  /\ (forall v, Holder.finite v -> kept v = v)
  /\ (forall v, ~ Holder.finite v -> kept v = 0).
Proof.
  intros Hr. unfold eval.
  destruct (QCalc_add_at h q1 q2 Hr) as (h1 & -> & _).
  destruct (QCalc_subtract_at h q1 q2 Hr) as (h2 & -> & _).
  repeat split; [apply kept_finite | apply kept_not_finite].
Qed.

(** X19.  [QCalc.multiply] returns the Hamilton product of its operands
    in binary64, first operand on the left, with 0 wherever a component is
    not finite; the result does not depend on what the two static engines
    held. *)
Theorem QCalc_product (h : heap float) (q1 q2 : Holder.Q) :
  QCalc.ready h ->
  let w1 := Holder._w q1 in let i1 := Holder._i q1 in
  let j1 := Holder._j q1 in let k1 := Holder._k q1 in
  let w2 := Holder._w q2 in let i2 := Holder._i q2 in
  let j2 := Holder._j q2 in let k2 := Holder._k q2 in
  eval (QCalc.multiply q1 q2) h =
    Ok (Holder.mkQ EmptyString
          (kept (w1 * w2 - i1 * i2 - j1 * j2 - k1 * k2))
          (kept (w1 * i2 + i1 * w2 + j1 * k2 - k1 * j2))
          (kept (w1 * j2 - i1 * k2 + j1 * w2 + k1 * i2))
          (kept (w1 * k2 + i1 * j2 - j1 * i2 + k1 * w2))).
Proof.
  intros Hr w1 i1 j1 k1 w2 i2 j2 k2. unfold eval.
  destruct (QCalc_multiply_at h q1 q2 Hr) as (h1 & -> & _). reflexivity.
Qed.

(** X20.  The static engines are usable from class initialisation on and
    stay so: each of the four operations completes normally on all
    operands, returns a holder whose components are finite, and leaves the
    engines ready for the next call. *)
Theorem QCalc_never_throws :
  (exists h0, QCalc.statics [] = Ok (tt, h0) /\ QCalc.ready h0)
  /\ forall (h : heap float) (q1 q2 : Holder.Q),
       QCalc.ready h ->
       forall op, In op [QCalc.add; QCalc.subtract; QCalc.multiply; QCalc.divide] ->
         exists r h', op q1 q2 h = Ok (r, h')
                      /\ Holder.all_finite r /\ QCalc.ready h'.
Proof.
  split.
  - eexists. split; [reflexivity |].
    split; exists 1, 0, 0, 0; reflexivity.
  - intros h q1 q2 Hr op Hop.
    assert (Hfin : forall a b c d,
              Holder.all_finite (Holder.mkQ EmptyString (kept a) (kept b)
                                   (kept c) (kept d))).
    { intros. repeat split; apply finite_kept. }
    destruct Hop as [<- | [<- | [<- | [<- | []]]]].
    + destruct (QCalc_add_at h q1 q2 Hr) as (h' & -> & Hr'). eauto.
    + destruct (QCalc_subtract_at h q1 q2 Hr) as (h' & -> & Hr'). eauto.
    + destruct (QCalc_multiply_at h q1 q2 Hr) as (h' & -> & Hr'). eauto.
    + destruct (QCalc_divide_at h q1 q2 Hr) as (h' & -> & Hr'). eauto.
Qed.

End DispatcherTheorems.

(* ================================================================== *)
(** * The reducers                                                    *)
(* ================================================================== *)

Section InputReducerFacts.
Import CalcActions Inputs.
Local Open Scope float_scope.

Implicit Types (h : heap float) (s p : QInputs).

Lemma new_QInputs_at {S} (st : S) :
  new_QInputs st =
    Ok (mkQInputs (Holder.mkQ EmptyString 0 0 0 0) (Holder.mkQ EmptyString 0 0 0 0)
          (Holder.mkQ EmptyString 0 0 0 0) "none" "none", st).
Proof. reflexivity. Qed.

Lemma lift_clone {S} (q : Holder.Q) (st : S) :
  Holder.reachable q -> lift (Holder.clone q) st = Ok (q, st).
Proof.
  intros Hq. unfold lift.
  rewrite (clone_of_finite q (reachable_finite q Hq)). reflexivity.
Qed.

(** The slice built before the [switch], without a payload. *)
Lemma from_state h s (k : QInputs -> St (heap float) QInputs) :
  operands_reachable s ->
  (qi <- new_QInputs ;;
   qi <- (a <- lift (Holder.clone (q1 s)) ;;
          b <- lift (Holder.clone (q2 s)) ;;
          ret (mkQInputs a b (result qi) (op s) (action qi))) ;;
   k qi)%js h =
  k (mkQInputs (q1 s) (q2 s) (Holder.mkQ EmptyString 0 0 0 0) (op s) "none") h.
Proof.
  intros [H1 H2].
  rewrite (bind_Ok _ _ _ _ _ (new_QInputs_at h)).
  unfold bind at 1. unfold bind at 1.
  rewrite (lift_clone _ h H1). unfold bind at 1.
  rewrite (lift_clone _ h H2). reflexivity.
Qed.

(** X21.  An operation action without payload recomputes the result from
    the operands of the current slice with the matching [QCalc] operation,
    and returns them, and the slice's [op], unchanged; [action] is the
    action's type. *)
Theorem inputReducer_recomputes_from_state h s :
  operands_reachable s ->
  forall (t : string) (f : Holder.Q -> Holder.Q -> St (heap float) Holder.Q),
    In (t, f) [ (Q_ADD, QCalc.add); (Q_SUBTRACT, QCalc.subtract);
                (Q_MULTIPLY, QCalc.multiply); (Q_DIVIDE, QCalc.divide) ] ->
    inputReducer (Some s) (mkQInputAction t None) h =
      (r <- f (q1 s) (q2 s) ;; ret (mkQInputs (q1 s) (q2 s) r (op s) t))%js h.
Proof.
  intros Hs t f Hin. unfold inputReducer. cbn [payload type].
  rewrite (from_state h s _ Hs). cbn [q1 q2 result op action].
  destruct Hin as [[= <- <-] | [[= <- <-] | [[= <- <-] | [[= <- <-] | []]]]];
    reflexivity.
Qed.

(** X22.  Any other action without payload, such as the two memory
    actions and the store action, returns the operands and the [op] of the
    current slice with the result reset to (0,0,0,0), and does not touch
    the engines. *)
Theorem inputReducer_resets_result_otherwise h s (t : string) :
  operands_reachable s ->
  ~ In t [Q_ADD; Q_SUBTRACT; Q_MULTIPLY; Q_DIVIDE; Q_CLEAR; INIT] ->
  inputReducer (Some s) (mkQInputAction t None) h =
    Ok (mkQInputs (q1 s) (q2 s) (Holder.mkQ EmptyString 0 0 0 0) (op s) t, h).
Proof.
  intros Hs Hnot. unfold inputReducer. cbn [payload type].
  rewrite (from_state h s _ Hs). cbn [q1 q2 result op action].
  assert (Hneq : forall c, In c [Q_ADD; Q_SUBTRACT; Q_MULTIPLY; Q_DIVIDE;
                                 Q_CLEAR; INIT] -> String.eqb t c = false).
  { intros c Hc. apply String.eqb_neq. intros ->. exact (Hnot Hc). }
  rewrite !Hneq by (cbn; tauto). reflexivity.
Qed.

End InputReducerFacts.

Section InputReducerTotal.
Import CalcActions Inputs.
Local Open Scope float_scope.

Implicit Types (h : heap float) (s p : QInputs).






End InputReducerTotal.

Section InitAndMemory.
Import CalcActions Inputs.
Local Open Scope float_scope.

Implicit Types (h : heap float) (p : QInputs).

Lemma clone_at_reachable {S} p (st : S) :
  Holder.reachable (q1 p) -> Holder.reachable (q2 p) ->
  Holder.reachable (result p) ->
  clone p st = Ok (p, st).
Proof.
  intros H1 H2 H3. unfold clone.
  rewrite (bind_Ok _ _ _ _ _ (new_QInputs_at st)).
  rewrite (bind_Ok _ _ _ _ _ (lift_clone _ st H1)),
          (bind_Ok _ _ _ _ _ (lift_clone _ st H2)),
          (bind_Ok _ _ _ _ _ (lift_clone _ st H3)).
  destruct p; reflexivity.
Qed.

(** X24.  [INIT] ignores the current slice: it takes the operands and the
    [op] of the payload, performs the operation the payload's [op] names,
    and, when [op] names none of the four, keeps the payload's result and
    does not touch the engines. *)
Theorem inputReducer_INIT_from_payload h (state : option QInputs) p :
  Holder.reachable (q1 p) -> Holder.reachable (q2 p) ->
  Holder.reachable (result p) ->
  (forall (t : string) (f : Holder.Q -> Holder.Q -> St (heap float) Holder.Q),
     In (t, f) [ (Q_ADD, QCalc.add); (Q_SUBTRACT, QCalc.subtract);
                 (Q_MULTIPLY, QCalc.multiply); (Q_DIVIDE, QCalc.divide) ] ->
     op p = t ->
     inputReducer state (mkQInputAction INIT (Some p)) h =
       (r <- f (q1 p) (q2 p) ;; ret (mkQInputs (q1 p) (q2 p) r t INIT))%js h)
  /\ (~ In (op p) [Q_ADD; Q_SUBTRACT; Q_MULTIPLY; Q_DIVIDE] ->
        inputReducer state (mkQInputAction INIT (Some p)) h =
          Ok (mkQInputs (q1 p) (q2 p) (result p) (op p) INIT, h)).
Proof.
  intros H1 H2 H3.
  assert (Hstep : forall k : QInputs -> St (heap float) QInputs,
            inputReducer state (mkQInputAction INIT (Some p)) h =
            (q <- clone p ;; k q)%js h ->
            inputReducer state (mkQInputAction INIT (Some p)) h = k p h).
  { intros k ->. rewrite (bind_Ok _ _ _ _ _ (clone_at_reachable p h H1 H2 H3)).
    reflexivity. }
  split.
  - intros t f Hin Hop.
    erewrite Hstep by reflexivity. cbn [q1 q2 result op action type].
    rewrite Hop.
    destruct Hin as [[= <- <-] | [[= <- <-] | [[= <- <-] | [[= <- <-] | []]]]];
      reflexivity.
  - intros Hnot.
    erewrite Hstep by reflexivity. cbn [q1 q2 result op action type].
    assert (Hneq : forall c, In c [Q_ADD; Q_SUBTRACT; Q_MULTIPLY; Q_DIVIDE] ->
                             String.eqb (op p) c = false).
    { intros c Hc. apply String.eqb_neq. intros E. apply Hnot. rewrite E. exact Hc. }
    rewrite !Hneq by (cbn; tauto). reflexivity.
Qed.

(** X25.  Storing replaces the slot whatever it held, and a recall after
    it returns the stored quaternion and id with the action set to
    [FROM_MEMORY]; a second recall changes nothing more; an action of any
    other type returns the slot as it is; storing without payload
    throws. *)
Theorem memory_store_then_recall (state : option Reducers.QMemory)
    (m : Reducers.QMemory) (pl : option Reducers.QMemory) (t : string) :
  let stored := Reducers.mkQMemory Reducers.TO_MEMORY (Reducers.id m)
                  (Reducers.memory m) in
  let recalled := Reducers.mkQMemory Reducers.FROM_MEMORY (Reducers.id m)
                    (Reducers.memory m) in
  Reducers.memoryReducer state
    (Reducers.mkQMemoryAction Reducers.TO_MEMORY (Some m)) = Ok (Some stored)
  /\ Reducers.memoryReducer (Some stored)
       (Reducers.mkQMemoryAction Reducers.FROM_MEMORY pl) = Ok (Some recalled)
  /\ Reducers.memoryReducer (Some recalled)
       (Reducers.mkQMemoryAction Reducers.FROM_MEMORY pl) = Ok (Some recalled)
  /\ (t <> Reducers.TO_MEMORY -> t <> Reducers.FROM_MEMORY ->
        Reducers.memoryReducer state (Reducers.mkQMemoryAction t pl) = Ok state)
  /\ Reducers.memoryReducer state
       (Reducers.mkQMemoryAction Reducers.TO_MEMORY None) = TypeError.
Proof.
  intros stored recalled. repeat split.
  intros Ht1 Ht2. unfold Reducers.memoryReducer. cbn [Reducers.type].
  apply String.eqb_neq in Ht1, Ht2. rewrite Ht1, Ht2. reflexivity.
Qed.

(** X26.  [__update] after [__opToString] dispatches exactly one action,
    of the type the operation names and carrying the inputs, for each of the
    four operations, and dispatches nothing for any other [op]. *)
Theorem update_dispatches_the_operation (op : string) (qi : QInputs) :
  (In op [Q_ADD; Q_SUBTRACT; Q_MULTIPLY; Q_DIVIDE] ->
     App.update (App.opToString op) qi = [mkQInputAction op (Some qi)])
  /\ (~ In op [Q_ADD; Q_SUBTRACT; Q_MULTIPLY; Q_DIVIDE] ->
        App.update (App.opToString op) qi = []).
Proof.
  split.
  - intros [<- | [<- | [<- | [<- | []]]]]; reflexivity.
  - intros Hnot.
    assert (Hneq : forall c, In c [Q_ADD; Q_SUBTRACT; Q_MULTIPLY; Q_DIVIDE] ->
                             String.eqb op c = false).
    { intros c Hc. apply String.eqb_neq. intros ->. exact (Hnot Hc). }
    unfold App.opToString. rewrite !Hneq by (cbn; tauto). reflexivity.
Qed.

End InitAndMemory.

(* ================================================================== *)
(** * Instances of the facts above                                    *)
(* ================================================================== *)

Section MoreInstances.
Import Quaternion QuaternionOps.

Lemma clone_is_a_fresh_copy_witness :
  let h : heap float := [mkQuaternion [1; 2; 3; 4]%float] in
  h !! 0%nat = Some (mkQuaternion [1; 2; 3; 4]%float)
  /\ exists r h', clone 0 h = Ok (r, h')
                  /\ h' !! r = Some (mkQuaternion [1; 2; 3; 4]%float).
Proof.
  intros h. split; [reflexivity |].
  destruct (clone_is_a_fresh_copy h 0%nat 1 2 3 4 eq_refl)%float
    as (r & h' & E & _ & Hr & _).
  exists r, h'. split; assumption.
Defined.

Lemma binary_into_variants_witness :
  let h : heap float := [mkQuaternion [1; 2; 3; 4]; mkQuaternion [5; 6; 7; 8]]%float in
  h !! 0%nat = Some (mkQuaternion [1; 2; 3; 4]%float)
  /\ h !! 1%nat = Some (mkQuaternion [5; 6; 7; 8]%float)
  /\ addTo 0 1 h = Ok (2%nat, h ++ [mkQuaternion [6; 8; 10; 12]%float])
  /\ subtractFrom 0 0 h = Ok (2%nat, h ++ [mkQuaternion [0; 0; 0; 0]%float]).
Proof.
  intros h.
  destruct (binary_into_variants h 0%nat 1%nat 1 2 3 4 5 6 7 8 eq_refl eq_refl)%float
    as (Ha & _ & _).
  destruct (binary_into_variants h 0%nat 0%nat 1 2 3 4 1 2 3 4 eq_refl eq_refl)%float
    as (_ & Hs & _).
  split; [reflexivity | split; [reflexivity | split]].
  - rewrite Ha. reflexivity.
  - rewrite Hs. reflexivity.
Defined.

Lemma unary_into_variants_witness :
  let h : heap float := [mkQuaternion [1; 1; 1; 1]%float] in
  h !! 0%nat = Some (mkQuaternion [1; 1; 1; 1]%float)
  /\ multiplyByScalarInto 0 2%float h =
       Ok (1%nat, h ++ [mkQuaternion [2; 2; 2; 2]%float])
  /\ divideByScalarInto 0 2%float h =
       Ok (1%nat, h ++ [mkQuaternion [0.5; 0.5; 0.5; 0.5]%float]).
Proof.
  intros h.
  destruct (unary_into_variants h 0%nat 1 1 1 1 2 eq_refl)%float as (_ & Hm & Hd).
  split; [reflexivity | split].
  - rewrite Hm. reflexivity.
  - rewrite Hd. reflexivity.
Defined.

Lemma divide_spares_its_argument_witness :
  let h : heap float := [mkQuaternion [1; 2; 3; 4]; mkQuaternion [1; 1; 1; 1]]%float in
  h !! 0%nat = Some (mkQuaternion [1; 2; 3; 4]%float)
  /\ h !! 1%nat = Some (mkQuaternion [1; 1; 1; 1]%float)
  /\ exists h', divide 0 1 h = Ok (tt, h')
                /\ h' !! 1%nat = Some (mkQuaternion [1; 1; 1; 1]%float).
Proof.
  intros h. split; [reflexivity | split; [reflexivity |]].
  destruct (divide_spares_its_argument h 0%nat 1%nat 1 2 3 4 1 1 1 1
              eq_refl eq_refl)%float as (h' & E & _ & _ & Hq).
  exists h'. split; [exact E | apply Hq; discriminate].
Defined.

Lemma fromArray_takes_the_first_four_witness :
  let h : heap float := [mkQuaternion [1; 2; 3; 4]; mkQuaternion [5; 6; 7; 8]]%float in
  h !! 0%nat = Some (mkQuaternion [1; 2; 3; 4]%float)
  /\ h !! 1%nat = Some (mkQuaternion [5; 6; 7; 8]%float)
  /\ fromArray 0 [9; 8; 7; 6; 5; 4]%float h =
       Ok (tt, [mkQuaternion [9; 8; 7; 6]; mkQuaternion [5; 6; 7; 8]]%float).
Proof.
  intros h.
  destruct (fromArray_takes_the_first_four h 0%nat 1%nat 1 2 3 4 9 8 7 6 [5; 4]
              5 6 7 8 eq_refl eq_refl)%float as (Hf & _).
  split; [reflexivity | split; [reflexivity |]].
  rewrite Hf. reflexivity.
Defined.

Lemma slerp_touches_no_operand_witness :
  let h : heap float :=
    [mkQuaternion [0.5; 0.5; 0.5; 0.5]; mkQuaternion [0; 1; 0; 0]]%float in
  h !! 0%nat = Some (mkQuaternion [0.5; 0.5; 0.5; 0.5]%float)
  /\ h !! 1%nat = Some (mkQuaternion [0; 1; 0; 0]%float)
  /\ forall T : Trig float,
       exists v0 v1 v2 v3 : float,
         slerp 0 1 0.5%float h = Ok (2%nat, h ++ [mkQuaternion [v0; v1; v2; v3]]).
Proof.
  intros h. split; [reflexivity | split; [reflexivity |]]. intros T.
  exact (slerp_touches_no_operand h 0%nat 1%nat 0.5 0.5 0.5 0.5 0 1 0 0 0.5
           eq_refl eq_refl)%float.
Defined.

Lemma dot_and_addTo_commute_witness :
  let h : heap float := [mkQuaternion [1; 2; 3; 4]; mkQuaternion [5; 6; 7; 8]]%float in
  h !! 0%nat = Some (mkQuaternion [1; 2; 3; 4]%float)
  /\ h !! 1%nat = Some (mkQuaternion [5; 6; 7; 8]%float)
  /\ eval (dot 0 1) h = eval (dot 1 0) h.
Proof.
  intros h. split; [reflexivity | split; [reflexivity |]].
  exact (proj1 (dot_and_addTo_commute h 0%nat 1%nat 1 2 3 4 5 6 7 8
                  eq_refl eq_refl)%float).
Defined.

Lemma scalar_variants_guard_witness :
  let h : heap float := [mkQuaternion [1; 2; 3; 4]%float] in
  h !! 0%nat = Some (mkQuaternion [1; 2; 3; 4]%float)
  /\ addScalar 0 5%float h = Ok (tt, [mkQuaternion [6; 2; 3; 4]%float])
  /\ addScalar 0 infinity h = Ok (tt, h)
  /\ subtractScalar 0 nan h = Ok (tt, h).
Proof.
  intros h.
  destruct (scalar_variants_guard h 0%nat 1 2 3 4 5 eq_refl)%float as [Hyes _].
  destruct (scalar_variants_guard h 0%nat 1 2 3 4 infinity eq_refl)%float as [_ Hinf].
  destruct (scalar_variants_guard h 0%nat 1 2 3 4 nan eq_refl)%float as [_ Hnan].
  split; [reflexivity | split; [| split]].
  - destruct Hyes as [-> _]; [vm_compute; exact I | reflexivity].
  - apply Hinf. vm_compute. tauto.
  - apply Hnan. vm_compute. tauto.
Defined.

Lemma divideByScalar_near_zero_witness :
  let h : heap float := [mkQuaternion [1; 2; 3; 4]%float] in
  h !! 0%nat = Some (mkQuaternion [1; 2; 3; 4]%float)
  /\ (PrimFloat.abs 0 <? 0x1.b7cdfd9d7bdbbp-34)%float = true
  /\ divideByScalar 0 0%float h = Ok (tt, h).
Proof.
  intros h. split; [reflexivity | split; [reflexivity |]].
  exact (proj1 (divideByScalar_near_zero h 0%nat 1 2 3 4 0 eq_refl eq_refl)%float).
Defined.

Lemma fromObject_keeps_what_is_missing_witness :
  let h : heap float := [mkQuaternion [1; 2; 3; 4]; mkQuaternion [5; nan; 7; 8]]%float in
  h !! 0%nat = Some (mkQuaternion [1; 2; 3; 4]%float)
  /\ h !! 1%nat = Some (mkQuaternion [5; nan; 7; 8]%float)
  /\ (o <- toObject 1 ;; fromObject 0 o)%js h =
       Ok (tt, [mkQuaternion [5; 2; 7; 8]; mkQuaternion [5; nan; 7; 8]]%float)
  /\ fromObject 0 ({[ "i"%string := 9%float ]} : gmap string float) h =
       Ok (tt, [mkQuaternion [1; 9; 3; 4]; mkQuaternion [5; nan; 7; 8]]%float).
Proof.
  intros h.
  destruct (fromObject_keeps_what_is_missing h 0%nat 1%nat
              ({[ "i"%string := 9%float ]} : gmap string float)
              1 2 3 4 5 nan 7 8 eq_refl eq_refl)%float as (Ho & Hrt & _).
  split; [reflexivity | split; [reflexivity | split]].
  - rewrite Hrt. reflexivity.
  - rewrite Ho. reflexivity.
Defined.

End MoreInstances.

Section ReducerInstances.
Import CalcActions Inputs.
Local Open Scope float_scope.

Lemma clone_reproduces_witness :
  let q := Holder.mkQ "q1" 1 2 3 4 in
  Holder.reachable q /\ Holder.clone q = Ok q.
Proof.
  intros q.
  assert (Hq : Holder.reachable q).
  { apply (Holder.reach_new 1 2 3 4 (Some "q1"%string)). reflexivity. }
  split; [exact Hq | exact (clone_reproduces q Hq)].
Defined.

Lemma QCalc_sums_witness :
  let h : heap float := [mkQuaternion [1; 0; 0; 0]; mkQuaternion [1; 0; 0; 0]] in
  QCalc.ready h
  /\ eval (QCalc.add (Holder.mkQ EmptyString 1 (-1) 0 (-1))
                     (Holder.mkQ EmptyString 1 2 1 0)) h =
       Ok (Holder.mkQ EmptyString 2 1 1 (-1))
  /\ eval (QCalc.add (Holder.mkQ EmptyString 0x1p+1023 0 0 0)
                     (Holder.mkQ EmptyString 0x1p+1023 0 0 0)) h =
       Ok (Holder.mkQ EmptyString 0 0 0 0).
Proof.
  intros h.
  assert (Hr : QCalc.ready h) by (split; exists 1, 0, 0, 0; reflexivity).
  split; [exact Hr | split].
  - rewrite (proj1 (QCalc_sums h _ _ Hr)). vm_compute. reflexivity.
  - rewrite (proj1 (QCalc_sums h _ _ Hr)). vm_compute. reflexivity.
Defined.

Lemma QCalc_product_witness :
  let h : heap float := [mkQuaternion [9; 9; 9; 9]; mkQuaternion [7; 7; 7; 7]] in
  QCalc.ready h
  /\ eval (QCalc.multiply (Holder.mkQ EmptyString 1 0 0 0)
                          (Holder.mkQ EmptyString 0 1 0 0)) h =
       Ok (Holder.mkQ EmptyString 0 1 0 0).
Proof.
  intros h.
  assert (Hr : QCalc.ready h) by (split; [exists 9, 9, 9, 9 | exists 7, 7, 7, 7]; reflexivity).
  split; [exact Hr |].
  rewrite (QCalc_product h _ _ Hr). vm_compute. reflexivity.
Defined.

Lemma inputReducer_witness_state :
  let s := mkQInputs (Holder.mkQ EmptyString 1 2 3 4) (Holder.mkQ EmptyString 5 6 7 8)
             (Holder.mkQ EmptyString 9 9 9 9) Q_ADD Q_ADD in
  operands_reachable s.
Proof.
  intros s. split.
  - apply (Holder.reach_new 1 2 3 4 None). reflexivity.
  - apply (Holder.reach_new 5 6 7 8 None). reflexivity.
Qed.

Lemma inputReducer_recomputes_from_state_witness :
  let h : heap float := [mkQuaternion [1; 0; 0; 0]; mkQuaternion [1; 0; 0; 0]] in
  let s := mkQInputs (Holder.mkQ EmptyString 1 2 3 4) (Holder.mkQ EmptyString 5 6 7 8)
             (Holder.mkQ EmptyString 9 9 9 9) Q_ADD Q_ADD in
  operands_reachable s
  /\ eval (inputReducer (Some s) (mkQInputAction Q_SUBTRACT None)) h =
       Ok (mkQInputs (Holder.mkQ EmptyString 1 2 3 4) (Holder.mkQ EmptyString 5 6 7 8)
             (Holder.mkQ EmptyString (-4) (-4) (-4) (-4)) Q_ADD Q_SUBTRACT).
Proof.
  intros h s. split; [exact inputReducer_witness_state |].
  unfold eval.
  rewrite (inputReducer_recomputes_from_state h s inputReducer_witness_state
             Q_SUBTRACT QCalc.subtract ltac:(cbn; tauto)).
  vm_compute. reflexivity.
Defined.

Lemma inputReducer_resets_result_otherwise_witness :
  let h : heap float := [] in
  let s := mkQInputs (Holder.mkQ EmptyString 1 2 3 4) (Holder.mkQ EmptyString 5 6 7 8)
             (Holder.mkQ EmptyString 9 9 9 9) Q_ADD Q_ADD in
  operands_reachable s
  /\ ~ In Reducers.FROM_MEMORY [Q_ADD; Q_SUBTRACT; Q_MULTIPLY; Q_DIVIDE; Q_CLEAR; INIT]
  /\ inputReducer (Some s) (mkQInputAction Reducers.FROM_MEMORY None) h =
       Ok (mkQInputs (Holder.mkQ EmptyString 1 2 3 4) (Holder.mkQ EmptyString 5 6 7 8)
             (Holder.mkQ EmptyString 0 0 0 0) Q_ADD Reducers.FROM_MEMORY, h).
Proof.
  intros h s.
  assert (Hnot : ~ In Reducers.FROM_MEMORY
                     [Q_ADD; Q_SUBTRACT; Q_MULTIPLY; Q_DIVIDE; Q_CLEAR; INIT]).
  { cbn. intros [E | [E | [E | [E | [E | [E | []]]]]]]; discriminate E. }
  split; [exact inputReducer_witness_state | split; [exact Hnot |]].
  exact (inputReducer_resets_result_otherwise h s Reducers.FROM_MEMORY
           inputReducer_witness_state Hnot).
Defined.


Lemma inputReducer_INIT_from_payload_witness :
  let h : heap float := [mkQuaternion [1; 0; 0; 0]; mkQuaternion [1; 0; 0; 0]] in
  let p := mkQInputs (Holder.mkQ EmptyString 1 2 3 4) (Holder.mkQ EmptyString 5 6 7 8)
             (Holder.mkQ EmptyString 9 9 9 9) Q_NONE Q_NONE in
  Holder.reachable (q1 p) /\ Holder.reachable (q2 p) /\ Holder.reachable (result p)
  /\ inputReducer None (mkQInputAction INIT (Some p)) h =
       Ok (mkQInputs (q1 p) (q2 p) (result p) Q_NONE INIT, h).
Proof.
  intros h p.
  assert (H1 : Holder.reachable (q1 p))
    by (apply (Holder.reach_new 1 2 3 4 None); reflexivity).
  assert (H2 : Holder.reachable (q2 p))
    by (apply (Holder.reach_new 5 6 7 8 None); reflexivity).
  assert (H3 : Holder.reachable (result p))
    by (apply (Holder.reach_new 9 9 9 9 None); reflexivity).
  split; [exact H1 | split; [exact H2 | split; [exact H3 |]]].
  apply (proj2 (inputReducer_INIT_from_payload h None p H1 H2 H3)).
  cbn. intros [E | [E | [E | [E | []]]]]; discriminate E.
Defined.

End ReducerInstances.
